(** * Verification of the overlap-graph assembly module [assembly2.py]

    A shallow embedding of the module: Python integers are [Z], sequences of
    symbols are [list ascii], tuples of edges are lists, the networkx
    multigraph is an insertion-ordered edge table, and the objects that the
    code mutates in place (graphs, sequence features) live in an explicit
    store.  A raised exception is [None]. *)

From stdpp Require Import base list option strings pretty sorting.
From Stdlib Require Import ZArith Lia Ascii.

Open Scope Z_scope.

#[global] Set Warnings "-clear-no-such-hyp".

(** ** Python list primitives *)

Section PySeq.
Context {A : Type}.

(** Index normalisation of [l[i:j]] for a list of length [n]: negative
    indices count from the end, everything is clamped to [0..n]. *)
Definition py_index (n : Z) (i : Z) : Z :=
  if decide (i < 0) then Z.max (i + n) 0 else Z.min i n.

(** [l[start:stop]] with either bound possibly [None]. *)
Definition py_slice (start stop : option Z) (l : list A) : list A :=
  let n := Z.of_nat (length l) in
  let i := py_index n (default 0 start) in
  let j := py_index n (default n stop) in
  take (Z.to_nat (j - i)) (drop (Z.to_nat i) l).

(** [l[-1]] of a non-empty list given as head and tail. *)
Definition py_last (x : A) (l : list A) : A := default x (last l).

(** [zip(l, l[1:])]. *)
Definition zip_next (l : list A) : list (A * A) :=
  zip l (py_slice (Some 1) None l).

(** [zip(l, l[1:] + l[:1])]. *)
Definition zip_cyclic (l : list A) : list (A * A) :=
  zip l (py_slice (Some 1) None l ++ py_slice None (Some 1) l).
End PySeq.

(** ** is_sublist *)

Section IsSublist.
Context {A : Type} `{EqDecision A}.

(** [range(len(my_list) - n + 1)]: empty when the bound is not positive. *)
Definition py_range (n : Z) : list Z := Z.of_nat <$> List.seq 0 (Z.to_nat n).

Definition is_sublist (sublist my_list : list A) : bool :=
  let n := Z.of_nat (length sublist) in
  existsb (fun i => bool_decide (py_slice (Some i) (Some (i + n)) my_list = sublist))
          (py_range (Z.of_nat (length my_list) - n + 1)).
End IsSublist.

(** ** Locations

    The location classes of Biopython and the location helper of pydna are
    imported by the module, not defined in it. *)

(** Modelled from the spec: one start/end/strand-tagged range of a location
    (section 3, Fragment).  The strand is [Some 1], [Some (-1)] or absent. *)
Record part : Type := Part { p_start : Z; p_end : Z; p_strand : option Z }.

(** Modelled from the spec: a location is one range or an ordered list of
    ranges (section 9, Interval); it always has a first part. *)
Record location : Type := Location { loc_first : part; loc_rest : list part }.

#[global] Instance part_eq_dec : EqDecision part.
Proof. solve_decision. Defined.
#[global] Instance location_eq_dec : EqDecision location.
Proof. solve_decision. Defined.

Definition parts (l : location) : list part := loc_first l :: loc_rest l.

(** [SimpleLocation(start, end, strand)]. *)
Definition SimpleLocation (s e : Z) (strand : Z) : location :=
  Location (Part s e (Some strand)) [].

(** [location.parts[0]] and [location.parts[-1]]. *)
Definition first_part (l : location) : part := loc_first l.
Definition last_part (l : location) : part := py_last (loc_first l) (loc_rest l).

Definition part_len (p : part) : Z := p_end p - p_start p.

(** [len(location)]: the summed length of the parts. *)
Definition loc_len (l : location) : Z :=
  foldr (fun p acc => part_len p + acc) 0 (parts l).

(** [location.start] and [location.end]: the extreme coordinates. *)
Definition loc_start (l : location) : Z :=
  foldr (fun p acc => Z.min (p_start p) acc) (p_start (loc_first l)) (loc_rest l).
Definition loc_end (l : location) : Z :=
  foldr (fun p acc => Z.max (p_end p) acc) (p_end (loc_first l)) (loc_rest l).

(** [location.strand]: the common strand of the parts, absent when mixed. *)
Definition loc_strand (l : location) : option Z :=
  if forallb (fun p => bool_decide (p_strand p = p_strand (loc_first l))) (loc_rest l)
  then p_strand (loc_first l) else None.

(** Rebuild a location from a list of parts; fails on the empty list. *)
Definition location_of_parts (ps : list part) : option location :=
  match ps with
  | [] => None
  | p :: ps' => Some (Location p ps')
  end.

Definition flip_strand (s : option Z) : option Z :=
  match s with
  | Some 1 => Some (-1)
  | Some (-1) => Some 1
  | _ => s
  end.

Definition flip_part (length : Z) (p : part) : part :=
  Part (length - p_end p) (length - p_start p) (flip_strand (p_strand p)).

(** Modelled from the spec: [location._flip(length)] (section 4.1, flip): the
    equivalent location on the reverse complement of a sequence of the given
    total length, with the strand inverted. *)
Definition flip (l : location) (length : Z) : location :=
  Location (flip_part length (loc_first l)) (flip_part length <$> loc_rest l).

Definition shift_part (offset : Z) (p : part) : part :=
  Part (p_start p + offset) (p_end p + offset) (p_strand p).

(** Modelled from the spec: [location._shift(offset)], the plain translation
    of every range of a shiftable location (section 6, Fragment type). *)
Definition loc_shift (l : location) (offset : Z) : location :=
  Location (shift_part offset (loc_first l)) (shift_part offset <$> loc_rest l).

(** The ranges one part becomes under [shift_location]. *)
Definition shift_wrap_part (strand : option Z) (shift lim : Z) (p : part) : list part :=
  let new_start := (p_start p + shift) `mod` lim in
  let new_end := let e := (p_end p + shift) `mod` lim in if decide (e = 0) then lim else e in
  if decide (new_start < new_end) then [Part new_start new_end strand]
  else
    let parttuple := [Part new_start lim strand; Part 0 new_end strand] in
    if decide (strand = Some (-1)) then reverse parttuple else parttuple.

(** Modelled from the spec: pydna's [shift_location(location, shift, lim)]
    (section 4.1, shift_and_wrap): every range is translated by [shift]
    modulo [lim]; a range that would run past [lim] is split in two parts
    across the origin.  A zero [lim] is a division by zero.  The library
    also checks that the result is as long as the location it was given;
    on a one-part range of positive length inside [0, lim], which is what
    the graph builder passes for a match inside its sequences, that check
    holds and the result is the range itself. *)
Definition shift_location (l : location) (shift lim : Z) : option location :=
  if decide (lim = 0) then None
  else location_of_parts (parts l ≫= shift_wrap_part (loc_strand l) shift lim).

(** [str(location)] as it appears in an edge key. *)
Definition str_strand (s : option Z) : string :=
  match s with
  | None => ""
  | Some 1 => "(+)"
  | Some (-1) => "(-)"
  | Some z => "(" +:+ pretty z +:+ ")"
  end.

Definition str_part (p : part) : string :=
  "[" +:+ pretty (p_start p) +:+ ":" +:+ pretty (p_end p) +:+ "]" +:+ str_strand (p_strand p).

Fixpoint str_join (sep : string) (l : list string) : string :=
  match l with
  | [] => ""
  | [s] => s
  | s :: l' => s +:+ sep +:+ str_join sep l'
  end.

Definition str_location (l : location) : string :=
  match loc_rest l with
  | [] => str_part (loc_first l)
  | _ => "join{" +:+ str_join ", " (str_part <$> parts l) +:+ "}"
  end.

(** ** Sequence records and the object store *)

(** A feature object is addressed by a reference into the store. *)
Abbreviation fref := nat (only parsing).

(** Modelled from the spec: an annotation with its location (section 3). *)
Record SeqFeature : Type := Feature { f_location : location; f_type : string }.

(** Modelled from the spec: the sequence record (section 3, Fragment): the
    symbols, the annotation objects and the topology. *)
Record Dseqrecord : Type :=
  Record_ { seq : list ascii; features : list fref; circular : bool }.

#[global] Instance SeqFeature_eq_dec : EqDecision SeqFeature.
Proof. solve_decision. Defined.
#[global] Instance Dseqrecord_eq_dec : EqDecision Dseqrecord.
Proof. solve_decision. Defined.

(** [len(record)]. *)
Definition rec_len (r : Dseqrecord) : Z := Z.of_nat (length (seq r)).

(** ** The directed multigraph *)

(** Nodes are signed fragment indices, or the strings ['begin'], ['end']. *)
Inductive node : Type := NInt (z : Z) | NStr (s : string).

(** Edge keys are the location strings, or the integers networkx assigns
    to an edge added without a key. *)
Inductive ekey : Type := KStr (s : string) | KInt (n : Z).

#[global] Instance node_eq_dec : EqDecision node.
Proof. solve_decision. Defined.
#[global] Instance ekey_eq_dec : EqDecision ekey.
Proof. solve_decision. Defined.

Definition edge : Type := node * node * ekey.
Definition assembly : Type := list edge.

Definition e_src (e : edge) : node := e.1.1.
Definition e_tgt (e : edge) : node := e.1.2.
Definition e_key (e : edge) : ekey := e.2.

(** The ['locations'] attribute, when the edge has one. *)
Definition edge_attr : Type := option (location * location).

(** Nodes with their ['seq'] attribute and edges with their attributes, both
    in insertion order. *)
Record MultiDiGraph : Type :=
  Graph { g_nodes : list (node * option Dseqrecord);
          g_edges : list (edge * edge_attr) }.

#[global] Instance MultiDiGraph_eq_dec : EqDecision MultiDiGraph.
Proof. solve_decision. Defined.

Definition empty_graph : MultiDiGraph := Graph [] [].

(** The first entry stored under a key. *)
Fixpoint assoc {K V} `{EqDecision K} (k : K) (l : list (K * V)) : option V :=
  match l with
  | [] => None
  | (k', v) :: l' => if decide (k' = k) then Some v else assoc k l'
  end.

Definition has_node (G : MultiDiGraph) (n : node) : bool :=
  bool_decide (n ∈ (g_nodes G).*1).

Definition has_edge (G : MultiDiGraph) (e : edge) : bool :=
  bool_decide (e ∈ (g_edges G).*1).

(** [G.nodes[n]['seq']]. *)
Definition node_seq (G : MultiDiGraph) (n : node) : option Dseqrecord :=
  d ← assoc n (g_nodes G); d.

(** [G[u][v][key]['locations']]. *)
Definition edge_locations (G : MultiDiGraph) (e : edge) : option (location * location) :=
  d ← assoc e (g_edges G); d.

(** [G[u][v]]: the keys of the edges from [u] to [v]; a [KeyError] when
    there is none. *)
Definition keys_between (G : MultiDiGraph) (u v : node) : list ekey :=
  (fun x => e_key x.1) <$>
    filter (fun x => e_src x.1 = u ∧ e_tgt x.1 = v) (g_edges G).

Definition adj (G : MultiDiGraph) (u v : node) : option (list ekey) :=
  match keys_between G u v with
  | [] => None
  | ks => Some ks
  end.

(** [G.add_node(n)] without attributes: a known node is left as it is. *)
Definition add_node (n : node) (G : MultiDiGraph) : MultiDiGraph :=
  if has_node G n then G else Graph (g_nodes G ++ [(n, None)]) (g_edges G).

(** [G.add_node(n, seq=r)]. *)
Definition add_node_seq (n : node) (r : Dseqrecord) (G : MultiDiGraph) : MultiDiGraph :=
  if has_node G n
  then Graph ((fun x => if decide (x.1 = n) then (n, Some r) else x) <$> g_nodes G) (g_edges G)
  else Graph (g_nodes G ++ [(n, Some r)]) (g_edges G).

(** [G.add_edge(u, v, key, locations=l)]: the end points become nodes; an
    edge with the same end points and key has its attribute overwritten. *)
Definition add_edge (u v : node) (k : ekey) (a : edge_attr) (G : MultiDiGraph) : MultiDiGraph :=
  let G' := add_node v (add_node u G) in
  if has_edge G' (u, v, k)
  then Graph (g_nodes G')
         ((fun x => if decide (x.1 = (u, v, k))
                    then (x.1, match a with Some _ => a | None => x.2 end) else x)
            <$> g_edges G')
  else Graph (g_nodes G') (g_edges G' ++ [((u, v, k), a)]).

(** The key networkx picks for [G.add_edge(u, v)]: the number of edges
    between the two nodes, moved up while it is taken. *)
Fixpoint free_key (fuel : nat) (ks : list ekey) (k : Z) : Z :=
  match fuel with
  | O => k
  | S fuel' => if bool_decide (KInt k ∈ ks) then free_key fuel' ks (k + 1) else k
  end.

Definition new_edge_key (G : MultiDiGraph) (u v : node) : ekey :=
  let ks := keys_between G u v in
  KInt (free_key (S (length ks)) ks (Z.of_nat (length ks))).

Definition add_edge_nokey (u v : node) (G : MultiDiGraph) : MultiDiGraph :=
  add_edge u v (new_edge_key G u v) None G.

(** ** circular_permutation_min_abs *)

(** [abs(x)] is a type error on a string node. *)
Definition node_abs (n : node) : option Z :=
  match n with
  | NInt z => Some (Z.abs z)
  | NStr _ => None
  end.

(** [min(range(len(keys)), key=lambda i: keys[i])]: the first index of a
    least key, counted from [i]; [m] is the least key so far, found at [b]. *)
Fixpoint argmin_from (keys : list Z) (i : nat) (b : nat) (m : Z) : nat :=
  match keys with
  | [] => b
  | k :: keys' =>
      if decide (k < m) then argmin_from keys' (S i) i k
      else argmin_from keys' (S i) b m
  end.

Definition argmin (keys : list Z) : option nat :=
  match keys with
  | [] => None
  | k :: keys' => Some (argmin_from keys' 1 0 k)
  end.

Definition circular_permutation_min_abs (lst : list node) : option (list node) :=
  ks ← mapM node_abs lst;
  min_abs_index ← argmin ks;
  Some (py_slice (Some (Z.of_nat min_abs_index)) None lst
        ++ py_slice None (Some (Z.of_nat min_abs_index)) lst).

(** ** add_edges_from_match *)

Definition edge_key_str (u v : Z) (l : location * location) : ekey :=
  KStr (pretty u +:+ str_location l.1 +:+ ":" +:+ pretty v +:+ str_location l.2).

Definition match_t : Type := Z * Z * Z.

(** The four (u, v, locations) combinations recorded for one match. *)
Definition match_combinations (m : match_t) (index_first index_secnd : Z)
    (first secnd : Dseqrecord) : option (list (Z * Z * (location * location))) :=
  let '(x_start, y_start, length) := m in
  l0 ← shift_location (SimpleLocation x_start (x_start + length) 1) 0 (rec_len first);
  l1 ← shift_location (SimpleLocation y_start (y_start + length) 1) 0 (rec_len secnd);
  let locs := (l0, l1) in
  let rc_locs := (flip l0 (rec_len first), flip l1 (rec_len secnd)) in
  Some [ (index_first, index_secnd, locs);
         (index_secnd, index_first, (locs.2, locs.1));
         (- index_first, - index_secnd, rc_locs);
         (- index_secnd, - index_first, (rc_locs.2, rc_locs.1)) ].

Definition add_match_edge (c : Z * Z * (location * location)) (G : MultiDiGraph) : MultiDiGraph :=
  let '(u, v, l) := c in
  add_edge (NInt u) (NInt v) (edge_key_str u v l) (Some l) G.

Definition add_edges_from_match (m : match_t) (index_first index_secnd : Z)
    (first secnd : Dseqrecord) (graph : MultiDiGraph) : option MultiDiGraph :=
  combinations ← match_combinations m index_first index_secnd first secnd;
  Some (foldl (fun G c => add_match_edge c G) graph combinations).

(** ** The object store

    Graphs and feature objects are mutable Python objects; the store maps
    their references to their current value.  A computation threads the
    store and either returns a value or raises ([None]); the store survives
    an exception. *)

Abbreviation gref := nat (only parsing).

Record store : Type :=
  Store { st_graphs : list MultiDiGraph; st_feats : list SeqFeature }.

Definition M (A : Type) : Type := store -> option A * store.

#[global] Instance M_ret : MRet M := fun A a s => (Some a, s).
#[global] Instance M_bind : MBind M := fun A B f m s =>
  match m s with
  | (Some a, s') => f a s'
  | (None, s') => (None, s')
  end.

(** An operation that does not touch the store. *)
Definition liftO {A} (o : option A) : M A := fun s => (o, s).

Definition get_graph (g : gref) : M MultiDiGraph :=
  fun s => (st_graphs s !! g, s).

Definition new_graph (G : MultiDiGraph) : M gref :=
  fun s => (Some (length (st_graphs s)), Store (st_graphs s ++ [G]) (st_feats s)).

Definition update_graph (g : gref) (f : MultiDiGraph -> MultiDiGraph) : M unit :=
  fun s =>
    match st_graphs s !! g with
    | Some G => (Some (), Store (<[g := f G]> (st_graphs s)) (st_feats s))
    | None => (None, s)
    end.

Definition get_feature (r : fref) : M SeqFeature :=
  fun s => (st_feats s !! r, s).

Definition new_feature (f : SeqFeature) : M fref :=
  fun s => (Some (length (st_feats s)), Store (st_graphs s) (st_feats s ++ [f])).

(** [feature.location = loc]. *)
Definition set_location (r : fref) (loc : location) : M unit :=
  fun s =>
    match st_feats s !! r with
    | Some f => (Some (), Store (st_graphs s) (<[r := Feature loc (f_type f)]> (st_feats s)))
    | None => (None, s)
    end.

(** [for x in l: body(x)]. *)
Fixpoint for_each {A} (l : list A) (body : A -> M unit) : M unit :=
  match l with
  | [] => mret ()
  | x :: l' => _ ← body x; for_each l' body
  end.

(** [filter(p, l)] consumed to the end, with a predicate that may raise. *)
Fixpoint filterM {A} (p : A -> M bool) (l : list A) : M (list A) :=
  match l with
  | [] => mret []
  | x :: l' => b ← p x; r ← filterM p l'; mret (if b : bool then x :: r else r)
  end.

(** ** Record operations *)

(** Modelled from the spec: [feature._shift(offset)] returns a new feature
    object whose location is translated (section 6, shiftable locations). *)
Definition feature_shift (offset : Z) (r : fref) : M fref :=
  f ← get_feature r;
  new_feature (Feature (loc_shift (f_location f) offset) (f_type f)).

(** Modelled from the spec: [record[start:stop]] on a linear record (section
    6: slicing by position range returns a new fragment, retaining the
    annotations inside the range).  The kept features are new objects,
    shifted to the coordinates of the slice. *)
Definition record_slice (r : Dseqrecord) (start stop : option Z) : M Dseqrecord :=
  let n := rec_len r in
  let i := py_index n (default 0 start) in
  let j := py_index n (default n stop) in
  fs ← mapM (fun x => f ← get_feature x; mret (x, f)) (features r);
  let kept := filter (fun xf => i <= loc_start (f_location xf.2) ∧ loc_end (f_location xf.2) <= j) fs in
  fs' ← mapM (fun xf => feature_shift (- i) xf.1) kept;
  mret (Record_ (py_slice start stop (seq r)) fs' false).

(** ** The Assembly object *)

Record Assembly : Type :=
  Assembly_ { self_G : gref;
              fragments : list Dseqrecord;
              limit : Z;
              use_fragment_order : bool;
              use_all_fragments : bool }.

Definition node_pos (n : node) : option bool :=
  match n with
  | NInt z => Some (bool_decide (z > 0))
  | NStr _ => None
  end.

Definition is_int (n : node) : bool :=
  match n with
  | NInt _ => true
  | NStr _ => false
  end.

(** [assembly[0][0] == assembly[-1][1]]; an index error on the empty tuple. *)
Definition is_circular (a : assembly) : option bool :=
  match a with
  | [] => None
  | e :: a' => Some (bool_decide (e_src e = e_tgt (py_last e a')))
  end.

(** The loop of [validate_assembly] over the pairs of consecutive edges. *)
Fixpoint check_edge_pairs (G : MultiDiGraph) (edge_pairs : list (edge * edge)) : option bool :=
  match edge_pairs with
  | [] => Some true
  | (e1, e2) :: rest =>
      left_edge ← edge_locations G e1;
      right_edge ← edge_locations G e2;
      if decide (p_end (last_part left_edge.2) >= p_end (first_part right_edge.1))
      then Some false
      else check_edge_pairs G rest
  end.

Definition validate_on (G : MultiDiGraph) (self : Assembly) (a : assembly) : option bool :=
  if decide (Z.of_nat (length a) = 0) then Some false
  else
    is_circ ← is_circular a;
    if use_all_fragments self
       && bool_decide (Z.of_nat (length a) - (if is_circ : bool then 1 else 0)
                       ≠ Z.of_nat (length (fragments self)) - 1)
    then Some false
    else check_edge_pairs G (if is_circ : bool then zip_cyclic a else zip_next a).

Definition validate_assembly (self : Assembly) (a : assembly) : M bool :=
  G ← get_graph (self_G self);
  liftO (validate_on G self a).

(** [sorted(l, key=len, reverse=True)]: stable, longest first. *)
Fixpoint insert_by_len {A} (a : list A) (l : list (list A)) : list (list A) :=
  match l with
  | [] => [a]
  | b :: l' =>
      if decide (length b <= length a)%nat then a :: b :: l'
      else b :: insert_by_len a l'
  end.

Definition sorted_by_len_desc {A} (l : list (list A)) : list (list A) :=
  foldr insert_by_len [] l.

Definition remove_subassemblies (assemblies : list assembly) : list assembly :=
  foldl (fun filtered_assemblies a =>
           if existsb (is_sublist a) filtered_assemblies
           then filtered_assemblies
           else filtered_assemblies ++ [a])
        [] (sorted_by_len_desc assemblies).

(** [itertools.product] of the lists: the last position varies fastest. *)
Fixpoint product {A} (ls : list (list A)) : list (list A) :=
  match ls with
  | [] => [[]]
  | l :: ls' => x ← l; rest ← product ls'; [x :: rest]
  end.

Definition cycle2circular_on (G : MultiDiGraph) (cycle : list node) : option (list assembly) :=
  combine ← mapM (M := option)
               (fun uv : node * node =>
                  ks ← adj G uv.1 uv.2;
                  Some ((fun k : ekey => (uv.1, uv.2, k)) <$> (ks : list ekey)))
               (zip_cyclic cycle);
  Some (product combine).

Definition cycle2circular_assemblies (self : Assembly) (cycle : list node) : M (list assembly) :=
  G ← get_graph (self_G self);
  liftO (cycle2circular_on G cycle).

(** [foldl] with a body that uses the store. *)
Fixpoint foldlM {A B} (f : A -> B -> M A) (a : A) (l : list B) : M A :=
  match l with
  | [] => mret a
  | x :: l' => a' ← f a x; foldlM f a' l'
  end.

(** [itertools.combinations(l, 2)]. *)
Fixpoint combinations2 {A} (l : list A) : list (A * A) :=
  match l with
  | [] => []
  | x :: l' => ((fun y => (x, y)) <$> l') ++ combinations2 l'
  end.

Definition node_int (n : node) : option Z :=
  match n with
  | NInt z => Some z
  | NStr _ => None
  end.

(** The entries of the list [temp] of
    [edge_representation2subfragment_representation]: edge triples in which
    [None] may stand for a missing component. *)
Abbreviation temp_item := (option node * option node * option ekey)%type (only parsing).

Definition edge_to_temp (e : edge) : temp_item :=
  (Some (e_src e), Some (e_tgt e), Some (e_key e)).

(** [G[u][v][key]['locations']] on such a triple. *)
Definition temp_locations (G : MultiDiGraph) (t : temp_item) : option (location * location) :=
  match t with
  | (Some u, Some v, Some k) => edge_locations G (u, v, k)
  | _ => None
  end.

(** A fragment node with the overlap locations bounding it on either side. *)
Abbreviation subfragment_repr :=
  (option node * option location * option location)%type (only parsing).

Section Methods.
(** The graph enumerators of networkx and the sequence operations of
    Biopython and pydna are used as they come. *)
Variable all_simple_edge_paths : MultiDiGraph -> node -> node -> list (list edge).
Variable simple_cycles : MultiDiGraph -> list (list node).
Variable str_upper : list ascii -> list ascii.
Variable reverse_complement : list ascii -> list ascii.
Variable record_reverse_complement : Dseqrecord -> M Dseqrecord.

(** [Assembly.__init__]; the graph is built in a local value and stored
    as a new graph object. *)
Definition add_matches (matches : list match_t) (index_first index_secnd : Z)
    (first secnd : Dseqrecord) (G : MultiDiGraph) : option MultiDiGraph :=
  foldl (fun acc m => G' ← acc; add_edges_from_match m index_first index_secnd first secnd G')
        (Some G) matches.

Definition Assembly_init (frags : list Dseqrecord) (limit : Z)
    (algorithm : list ascii -> list ascii -> Z -> list match_t)
    (use_fragment_order use_all_fragments : bool) : M Assembly :=
  let G := foldl (fun G '(i, f) => add_node_seq (NInt (Z.of_nat i + 1)) f G)
                 empty_graph (imap (fun i f => (i, f)) frags) in
  rcs ← mapM record_reverse_complement frags;
  let G := foldl (fun G '(i, f) => add_node_seq (NInt (- (Z.of_nat i + 1))) f G)
                 G (imap (fun i f => (i, f)) rcs) in
  ints ← liftO (mapM node_int (g_nodes G).*1);
  let edge_pairs := combinations2 (filter (fun x => x > 0) ints) in
  G ← liftO (foldl (fun acc '(index_first, index_secnd) =>
                      G ← acc;
                      first ← node_seq G (NInt index_first);
                      secnd ← node_seq G (NInt index_secnd);
                      let matches_fwd :=
                        algorithm (str_upper (seq first)) (str_upper (seq secnd)) limit in
                      G ← add_matches matches_fwd index_first index_secnd first secnd G;
                      let matches_rvs :=
                        algorithm (str_upper (seq first))
                                  (reverse_complement (str_upper (seq secnd))) limit in
                      add_matches matches_rvs index_first (- index_secnd) first secnd G)
                   (Some G) edge_pairs);
  g ← new_graph G;
  mret (Assembly_ g frags limit use_fragment_order use_all_fragments).

(** The ['begin'] and ['end'] anchors of [get_linear_assemblies], added to
    the graph object [G]. *)
Definition add_anchors (self : Assembly) (G : gref) : M unit :=
  _ ← update_graph G (add_node (NStr "begin"));
  _ ← update_graph G (add_node (NStr "end"));
  if use_fragment_order self then
    _ ← update_graph G (add_edge_nokey (NStr "begin") (NInt 1));
    _ ← update_graph G (add_edge_nokey (NStr "begin") (NInt (-1)));
    _ ← update_graph G
          (add_edge_nokey (NInt (Z.of_nat (length (fragments self)))) (NStr "end"));
    update_graph G
      (add_edge_nokey (NInt (- Z.of_nat (length (fragments self)))) (NStr "end"))
  else
    Gc ← get_graph G;
    for_each (filter (fun x => is_int x = true) (g_nodes Gc).*1)
      (fun node =>
         pos ← (if negb (use_fragment_order self) then liftO (node_pos node)
                else mret false);
         _ ← (if pos : bool then update_graph G (add_edge_nokey (NStr "begin") node)
              else mret ());
         update_graph G (add_edge_nokey node (NStr "end"))).

(** [get_linear_assemblies]: the search runs on a copy of the graph. *)
Definition get_linear_assemblies (self : Assembly) : M (list assembly) :=
  G0 ← get_graph (self_G self);
  G ← new_graph G0;
  _ ← add_anchors self G;
  Gc ← get_graph G;
  candidates ← filterM (validate_assembly self)
                 (py_slice (Some 1) (Some (-1))
                    <$> all_simple_edge_paths Gc (NStr "begin") (NStr "end"));
  mret (remove_subassemblies candidates).

(** [x[0] > 0] on a cycle. *)
Definition first_positive (x : list node) : option bool :=
  n ← head x; node_pos n.

Definition get_circular_assemblies (self : Assembly) : M (list assembly) :=
  G ← get_graph (self_G self);
  sorted_cycles ← liftO (mapM circular_permutation_min_abs (simple_cycles G));
  sorted_cycles ← filterM (fun x => liftO (first_positive x)) sorted_cycles;
  assemblies ← mapM (cycle2circular_assemblies self) sorted_cycles;
  filterM (validate_assembly self) (concat assemblies).

(** One round of the loop of [edge_representation2subfragment_representation]
    over the pairs of consecutive entries of [temp]. *)
Definition pair_to_subfragment (G : MultiDiGraph) (tt : temp_item * temp_item)
    : option subfragment_repr :=
  let '(u1, v1, key1) := tt.1 in
  let '(u2, v2, key2) := tt.2 in
  start_location ← match u1 with
                   | None => Some None
                   | Some _ => locs ← temp_locations G tt.1; Some (Some locs.2)
                   end;
  end_location ← match v2 with
                 | None => Some None
                 | Some _ => locs ← temp_locations G tt.2; Some (Some locs.1)
                 end;
  Some (v1, start_location, end_location).

Definition edge_representation2subfragment_on (G : MultiDiGraph) (a : assembly)
    : option (list subfragment_repr) :=
  is_circ ← is_circular a;
  first_edge ← head a;
  last_edge ← last a;
  let temp : list temp_item :=
    if is_circ : bool
    then (edge_to_temp <$> py_slice (Some (-1)) None a) ++ (edge_to_temp <$> a)
    else [(None, Some (e_src first_edge), None)] ++ (edge_to_temp <$> a)
         ++ [(Some (e_tgt last_edge), None, None)] in
  mapM (pair_to_subfragment G) (zip_next temp).

Definition edge_representation2subfragment_representation (self : Assembly) (a : assembly)
    : M (list subfragment_repr) :=
  G ← get_graph (self_G self);
  liftO (edge_representation2subfragment_on G a).

(** One round of the loop of [get_assembly_subfragments]. *)
Definition get_subfragment (self : Assembly) (r : subfragment_repr) : M Dseqrecord :=
  let '(node, start_location, end_location) := r in
  G ← get_graph (self_G self);
  seq ← liftO (n ← node; node_seq G n);
  let start := match start_location with
               | None => 0
               | Some l => p_start (first_part l)
               end in
  let end_ := (fun l => p_end (last_part l)) <$> end_location in
  record_slice seq (Some start) end_.

Definition get_assembly_subfragments (self : Assembly)
    (assembly_repr_fragments : list subfragment_repr) : M (list Dseqrecord) :=
  mapM (get_subfragment self) assembly_repr_fragments.

(** One round of the joining loop of [assemble]. *)
Definition join_fragment (out_dseqrecord : Dseqrecord) (fo : Dseqrecord * Z) : M Dseqrecord :=
  let '(fragment, overlap) := fo in
  new_features ← mapM (feature_shift (rec_len out_dseqrecord - overlap)) (features fragment);
  mret (Record_ (seq out_dseqrecord ++ py_slice (Some overlap) None (seq fragment))
                (features out_dseqrecord ++ new_features) false).

(** The rewriting of an origin-spanning feature of a circular result. *)
Definition wrap_feature (len_out : Z) (feature : fref) : M unit :=
  f ← get_feature feature;
  if decide (p_start (first_part (f_location f)) >= len_out
             ∨ p_end (last_part (f_location f)) > len_out)
  then loc ← liftO (shift_location (f_location f) 0 len_out); set_location feature loc
  else mret ().

Definition assemble (self : Assembly) (assembly_repr_edges : assembly) : M Dseqrecord :=
  assembly_repr_fragments ←
    edge_representation2subfragment_representation self assembly_repr_edges;
  G ← get_graph (self_G self);
  fragment_overlaps ←
    liftO (mapM (M := option)
             (fun e : edge => locs ← edge_locations G e; Some (loc_len locs.2))
             assembly_repr_edges);
  subfragments ← get_assembly_subfragments self assembly_repr_fragments;
  first_sub ← liftO (head subfragments);
  out_dseqrecord ←
    foldlM join_fragment first_sub
           (zip (py_slice (Some 1) None subfragments) fragment_overlaps);
  first_repr ← liftO (head assembly_repr_fragments);
  match first_repr.1.2 with
  | Some _ =>
      overlap ← liftO (last fragment_overlaps);
      let out_dseqrecord :=
        Record_ (py_slice None (Some (- overlap)) (seq out_dseqrecord))
                (features out_dseqrecord) true in
      _ ← for_each (features out_dseqrecord) (wrap_feature (rec_len out_dseqrecord));
      mret out_dseqrecord
  | None => mret out_dseqrecord
  end.

Definition assemble_linear (self : Assembly) : M (list Dseqrecord) :=
  assemblies ← get_linear_assemblies self;
  mapM (assemble self) assemblies.

Definition assemble_circular (self : Assembly) : M (list Dseqrecord) :=
  assemblies ← get_circular_assemblies self;
  mapM (assemble self) assemblies.

(** A call of one of the public operations, its result dropped. *)
Inductive call : Type :=
  | CallLinear
  | CallCircular
  | CallAssemble (a : assembly).

Definition run_call (self : Assembly) (c : call) : M unit :=
  match c with
  | CallLinear => _ ← get_linear_assemblies self; mret ()
  | CallCircular => _ ← get_circular_assemblies self; mret ()
  | CallAssemble a => _ ← assemble self a; mret ()
  end.

Definition run_calls (self : Assembly) (calls : list call) : M unit :=
  for_each calls (run_call self).
End Methods.

(** [Assembly.__repr__].  The record of the model does not keep the overlap
    algorithm, so its [__name__] is passed in; [_pretty_str] only wraps the
    text. *)
Definition newline : string := String (ascii_of_nat 10) EmptyString.

Definition Assembly_repr (self : Assembly) (algorithm_name : string) : M string :=
  G ← get_graph (self_G self);
  let sequences :=
    str_join " " ((fun x => pretty (rec_len x) +:+ "bp") <$> fragments self) in
  mret ("Assembly" +:+ newline
        +:+ "fragments..: " +:+ sequences +:+ newline
        +:+ "limit(bp)..: " +:+ pretty (limit self) +:+ newline
        +:+ "G.nodes....: " +:+ pretty (Z.of_nat (length (g_nodes G))) +:+ newline
        +:+ "algorithm..: " +:+ algorithm_name).

(** ** Reference instances for the worked examples

    Small executable stand-ins for the library functions, used to run the
    module on the example fragments of its docstring. *)

Module Reference.

Definition out_edges (G : MultiDiGraph) (u : node) : list edge :=
  filter (fun e => e_src e = u) (g_edges G).*1.

(** Depth-first enumeration of the simple edge paths from [u] to [target]
    that avoid the nodes already [visited]. *)
Fixpoint paths_from (fuel : nat) (G : MultiDiGraph) (visited : list node)
    (u target : node) : list (list edge) :=
  match fuel with
  | O => []
  | S fuel' =>
      e ← out_edges G u;
      if bool_decide (e_tgt e ∈ visited) then []
      else if bool_decide (e_tgt e = target) then [[e]]
      else (cons e) <$> paths_from fuel' G (e_tgt e :: visited) (e_tgt e) target
  end.

Definition all_simple_edge_paths (G : MultiDiGraph) (source target : node)
    : list (list edge) :=
  if has_node G source && has_node G target
  then paths_from (length (g_nodes G)) G [source] source target
  else [].

Definition successors (G : MultiDiGraph) (u : node) : list node :=
  remove_dups (e_tgt <$> out_edges G u).

(** Node paths from [u] back to [root] through [allowed] nodes only. *)
Fixpoint cycles_from (fuel : nat) (G : MultiDiGraph) (allowed visited : list node)
    (u root : node) : list (list node) :=
  match fuel with
  | O => []
  | S fuel' =>
      v ← successors G u;
      if bool_decide (v = root) then [[u]]
      else if bool_decide (v ∈ visited) || negb (bool_decide (v ∈ allowed)) then []
      else (cons u) <$> cycles_from fuel' G allowed (v :: visited) v root
  end.

(** Every simple cycle once, rooted at its earliest node. *)
Fixpoint cycles_rooted (G : MultiDiGraph) (nodes : list node) : list (list node) :=
  match nodes with
  | [] => []
  | r :: nodes' =>
      cycles_from (S (length nodes')) G nodes' [r] r r ++ cycles_rooted G nodes'
  end.

Definition simple_cycles (G : MultiDiGraph) : list (list node) :=
  cycles_rooted G (g_nodes G).*1.

Definition upper_ascii (c : ascii) : ascii :=
  let n := nat_of_ascii c in
  if decide (97 <= n <= 122)%nat then ascii_of_nat (n - 32) else c.

Definition str_upper (s : list ascii) : list ascii := upper_ascii <$> s.

Definition complement (c : ascii) : ascii :=
  if decide (c = "A"%char) then "T"%char
  else if decide (c = "T"%char) then "A"%char
  else if decide (c = "C"%char) then "G"%char
  else if decide (c = "G"%char) then "C"%char
  else if decide (c = "a"%char) then "t"%char
  else if decide (c = "t"%char) then "a"%char
  else if decide (c = "c"%char) then "g"%char
  else if decide (c = "g"%char) then "c"%char
  else c.

Definition reverse_complement (s : list ascii) : list ascii :=
  reverse (complement <$> s).

(** Reverse complement of a record: the features are flipped copies. *)
Definition record_reverse_complement (r : Dseqrecord) : M Dseqrecord :=
  fs ← mapM (fun x => f ← get_feature x;
                      new_feature (Feature (flip (f_location f) (rec_len r)) (f_type f)))
            (features r);
  mret (Record_ (reverse_complement (seq r)) fs (circular r)).

Fixpoint common_prefix (x y : list ascii) : nat :=
  match x, y with
  | a :: x', b :: y' => if decide (a = b) then S (common_prefix x' y') else O
  | _, _ => O
  end.

(** All maximal common substrings of length at least [limit]. *)
Definition common_sub_strings (x y : list ascii) (limit : Z) : list match_t :=
  i ← List.seq 0 (length x);
  j ← List.seq 0 (length y);
  let extends_left :=
    match i, j with
    | S i', S j' => bool_decide (x !! i' = y !! j')
    | _, _ => false
    end in
  let n := common_prefix (drop i x) (drop j y) in
  if negb extends_left && bool_decide (limit <= Z.of_nat n) && bool_decide (0 < n)%nat
  then [(Z.of_nat i, Z.of_nat j, Z.of_nat n)] else [].

Definition Assembly_init :=
  Assembly_init str_upper reverse_complement record_reverse_complement.
Definition get_linear_assemblies := get_linear_assemblies all_simple_edge_paths.
Definition get_circular_assemblies := get_circular_assemblies simple_cycles.
Definition assemble_linear := assemble_linear all_simple_edge_paths.
Definition assemble_circular := assemble_circular simple_cycles.

Definition dseqrecord (s : string) : Dseqrecord :=
  Record_ (String.list_ascii_of_string s) [] false.

Definition example_fragments : list Dseqrecord :=
  [dseqrecord "AacgatCAtgctcc"; dseqrecord "TtgctccTAAattctgc";
   dseqrecord "CattctgcGAGGacgatG"].

Definition empty_store : store := Store [] [].

(** [Assembly(example_fragments, limit=5, use_fragment_order=False)]. *)
Definition example_run {A} (ufo uaf : bool) (k : Assembly -> M A) : option A * store :=
  (self ← Assembly_init example_fragments 5 common_sub_strings ufo uaf; k self)
    empty_store.

(** The Assembly object and the store that construction leaves behind. *)
Definition example_self : Assembly := Assembly_ 0%nat example_fragments 5 false false.
Definition example_store : store :=
  Eval vm_compute in (example_run false false mret).2.
Definition example_graph : MultiDiGraph :=
  Eval vm_compute in default empty_graph (st_graphs example_store !! 0%nat).

(** The joins 1 -> 2 -> 3 and 1 -> 2 -> 3 -> 1 of the docstring. *)
Definition edge_12 : edge := (NInt 1, NInt 2, KStr "1[8:14](+):2[1:7](+)").
Definition edge_23 : edge := (NInt 2, NInt 3, KStr "2[10:17](+):3[1:8](+)").
Definition edge_31 : edge := (NInt 3, NInt 1, KStr "3[12:17](+):1[1:6](+)").
Definition example_linear : assembly := [edge_12; edge_23].
Definition example_circular : assembly := [edge_12; edge_23; edge_31].

Definition example_linear_result : list assembly * store :=
  Eval vm_compute in
    (let r := get_linear_assemblies example_self example_store in (default [] r.1, r.2)).
Definition example_circular_result : list assembly * store :=
  Eval vm_compute in
    (let r := get_circular_assemblies example_self example_store in (default [] r.1, r.2)).

(** Three fragments of which the second starts with the end of the first
    and ends with its reverse complement; the third shares nothing. *)
Definition inverted_fragments : list Dseqrecord :=
  [dseqrecord "GGGTTTCCCAATACCGATTG"; dseqrecord "ACCGATTGTTTTTTTTCAATCGGT";
   dseqrecord "CACACACACACACACA"].

(** [Assembly(inverted_fragments, limit=8, use_fragment_order=False,
    use_all_fragments=True)]. *)
Definition inverted_self : Assembly := Assembly_ 0%nat inverted_fragments 8 false true.
Definition inverted_store : store :=
  Eval vm_compute in
    ((Assembly_init inverted_fragments 8 common_sub_strings false true) empty_store).2.
Definition inverted_assembly : assembly :=
  [(NInt 1, NInt 2, KStr "1[12:20](+):2[0:8](+)");
   (NInt 2, NInt (-1), KStr "2[16:24](-):-1[0:8](-)")].




(** The example fragments with one annotation each, the feature objects
    being those of the caller's store. *)
Definition annotated_fragments : list Dseqrecord :=
  [Record_ (String.list_ascii_of_string "AacgatCAtgctcc") [0%nat] false;
   Record_ (String.list_ascii_of_string "TtgctccTAAattctgc") [1%nat] false;
   Record_ (String.list_ascii_of_string "CattctgcGAGGacgatG") [2%nat] false].
Definition caller_store : store :=
  Store [] [Feature (SimpleLocation 1 6 1) "overlap_ca";
            Feature (SimpleLocation 7 10 1) "stop";
            Feature (SimpleLocation 8 12 (-1)) "gagg"].
Definition annotated_self : Assembly := Assembly_ 0%nat annotated_fragments 5 false false.
Definition annotated_store : store :=
  Eval vm_compute in
    ((Assembly_init annotated_fragments 5 common_sub_strings false false) caller_store).2.
Definition annotated_graph : MultiDiGraph :=
  Eval vm_compute in default empty_graph (st_graphs annotated_store !! 0%nat).
Definition annotated_first_run : Dseqrecord * store :=
  Eval vm_compute in
    (let r := assemble annotated_self example_circular annotated_store in
     (default (Record_ [] [] false) r.1, r.2)).

(** [Assembly(example_fragments, limit=5, use_fragment_order=True)]: the
    same graph, searched with the legacy constraint. *)
Definition ordered_self : Assembly := Assembly_ 0%nat example_fragments 5 true false.

(** The records that [assemble_linear] builds for the example. *)
Definition example_assembled : list Dseqrecord * store :=
  Eval vm_compute in
    (let r := assemble_linear example_self example_store in (default [] r.1, r.2)).
End Reference.

(** * Vocabulary of the statements *)

Definition longer {A} (a b : list A) : Prop := (length b <= length a)%nat.

(** [b] comes after [a] in the kept list: it is no longer than [a] and not
    contained in it. *)
Definition kept_after (a b : assembly) : Prop :=
  longer a b /\ is_sublist b a = false.

Definition keep_step (filtered_assemblies : list assembly) (a : assembly) : list assembly :=
  if existsb (is_sublist a) filtered_assemblies
  then filtered_assemblies
  else filtered_assemblies ++ [a].

(** The pairs of edges the ordering check visits: an edge and its successor,
    the successor of the last edge of a circular candidate being the first. *)
Definition consecutive (circ : bool) (a : assembly) (e1 e2 : edge) : Prop :=
  exists i : nat,
    a !! i = Some e1 /\
    a !! (if circ then (S i `mod` length a)%nat else S i) = Some e2.

(** The end of the last part of the first edge's location on the shared
    fragment lies strictly before the end of the first part of the second
    edge's location on it. *)
Definition ordering_ok (G : MultiDiGraph) (e1 e2 : edge) : Prop :=
  exists l r, edge_locations G e1 = Some l /\ edge_locations G e2 = Some r /\
              p_end (last_part l.2) < p_end (first_part r.1).

(** The fragment-count test of [validate_assembly]. *)
Definition count_ok (self : Assembly) (circ : bool) (a : assembly) : Prop :=
  use_all_fragments self = true ->
  Z.of_nat (length a) - (if circ then 1 else 0) = Z.of_nat (length (fragments self)) - 1.

Definition in_graph (G : MultiDiGraph) (a : assembly) : Prop :=
  Forall (fun e => is_Some (edge_locations G e)) a.

(** [filter] with a predicate that may raise, without the store. *)
Fixpoint filter_opt {A} (p : A -> option bool) (l : list A) : option (list A) :=
  match l with
  | [] => Some []
  | x :: l' => b ← p x; r ← filter_opt p l'; Some (if b : bool then x :: r else r)
  end.

(** A computation that, run when the graph object [g] is the newest one,
    changes at most that object. *)
Definition touches_last {A} (g : gref) (c : M A) : Prop :=
  forall gs fs X, g = length gs ->
    exists r X', c (Store (gs ++ [X]) fs) = (r, Store (gs ++ [X']) fs).

(** Every object of [s0] is still there, unchanged, in [s]. *)
Definition store_prefix (s0 s : store) : Prop :=
  st_graphs s0 `prefix_of` st_graphs s /\ st_feats s0 `prefix_of` st_feats s.

(** A computation that, started in any extension of [s0], leaves the objects
    of [s0] as they are (also when it raises) and whose result satisfies
    [Q]. *)
Definition frames {A} (s0 : store) (c : M A) (Q : A -> Prop) : Prop :=
  forall s, store_prefix s0 s ->
    store_prefix s0 (c s).2 /\ forall a, (c s).1 = Some a -> Q a.

(** References to objects created after [s0]. *)
Definition fresh_graph (s0 : store) (g : gref) : Prop := (length (st_graphs s0) <= g)%nat.
Definition fresh_feature (s0 : store) (r : fref) : Prop := (length (st_feats s0) <= r)%nat.
Definition fresh_record (s0 : store) (r : Dseqrecord) : Prop :=
  Forall (fresh_feature s0) (features r).

(** *** The sequence that [assemble] builds, without the annotations *)

Definition subfragment_bounds (r : subfragment_repr) : Z * option Z :=
  (match r.1.2 with
   | None => 0
   | Some l => p_start (first_part l)
   end,
   (fun l => p_end (last_part l)) <$> r.2).

Definition subfragment_seq (G : MultiDiGraph) (r : subfragment_repr) : option (list ascii) :=
  rec ← (n ← r.1.1; node_seq G n);
  Some (py_slice (Some (subfragment_bounds r).1) (subfragment_bounds r).2 (seq rec)).

Definition joined_seq (first : list ascii) (l : list (list ascii * Z)) : list ascii :=
  foldl (fun out fo => out ++ py_slice (Some fo.2) None fo.1) first l.

Definition edge_overlaps (G : MultiDiGraph) (a : assembly) : option (list Z) :=
  mapM (M := option) (fun e : edge => locs ← edge_locations G e; Some (loc_len locs.2)) a.

Definition assemble_seq (G : MultiDiGraph) (a : assembly) : option (list ascii) :=
  reprs ← edge_representation2subfragment_on G a;
  overlaps ← edge_overlaps G a;
  subs ← mapM (subfragment_seq G) reprs;
  first_sub ← head subs;
  let out := joined_seq first_sub (zip (py_slice (Some 1) None subs) overlaps) in
  first_repr ← head reprs;
  match first_repr.1.2 with
  | Some _ => overlap ← last overlaps; Some (py_slice None (Some (- overlap)) out)
  | None => Some out
  end.

(** Every feature reference held by a record of the graph is live. *)
Definition valid_record (s : store) (r : Dseqrecord) : Prop :=
  Forall (fun x => (x < length (st_feats s))%nat) (features r).

Definition records_valid (G : MultiDiGraph) (s : store) : Prop :=
  forall n r, node_seq G n = Some r -> valid_record s r.

(** The store [s] with only new feature objects added. *)
Definition extends (s s' : store) : Prop :=
  exists extra, s' = Store (st_graphs s) (st_feats s ++ extra).

(** *** The quantities of the length formula *)





(** The fragment nodes of an assembly: the source of the first edge and the
    target of every edge, the first node of a circular assembly counted
    once. *)
Definition fragments_used (circ : bool) (a : assembly) : list node :=
  if circ then e_src <$> a
  else match a with
       | [] => []
       | e :: _ => e_src e :: (e_tgt <$> a)
       end.

(** A one-part location inside a sequence of length [n]. *)
Definition simple_in (l : location) (n : Z) : Prop :=
  loc_rest l = [] /\
  0 <= p_start (loc_first l) /\ p_start (loc_first l) < p_end (loc_first l) /\
  p_end (loc_first l) <= n.

(** An edge as the builder records it for a match: its end nodes carry
    sequences and its two locations lie inside them. *)
Definition edge_wf (G : MultiDiGraph) (e : edge) : Prop :=
  exists l ru rv,
    edge_locations G e = Some l /\
    node_seq G (e_src e) = Some ru /\ node_seq G (e_tgt e) = Some rv /\
    simple_in l.1 (rec_len ru) /\ simple_in l.2 (rec_len rv).

(** Consecutive edges meet at a node. *)
Definition chained (a : assembly) : Prop :=
  forall e1 e2, consecutive false a e1 e2 -> e_tgt e1 = e_src e2.






(** *** Renaming of feature references

    Two runs of the same computation from stores that differ by [d] extra
    feature objects inserted at position [m] create their objects [d]
    references apart. *)

Definition ren (m d : nat) (r : fref) : fref :=
  if decide (r < m)%nat then r else (r + d)%nat.

Definition ren_record (m d : nat) (r : Dseqrecord) : Dseqrecord :=
  Record_ (seq r) (ren m d <$> features r) (circular r).

Definition sim (m d : nat) (gs : list MultiDiGraph) (s t : store) : Prop :=
  st_graphs s = gs /\ st_graphs t = gs /\ (m <= length (st_feats s))%nat /\
  exists junk, length junk = d /\
               st_feats t = take m (st_feats s) ++ junk ++ drop m (st_feats s).

Definition simulates {A} (m d : nat) (gs : list MultiDiGraph) (rho : A -> A)
    (c c' : M A) : Prop :=
  forall s t, sim m d gs s t ->
    sim m d gs (c s).2 (c' t).2 /\ (c' t).1 = rho <$> (c s).1.

(** The annotations of a record as the store has them. *)
Definition annotations (s : store) (r : Dseqrecord) : list (option SeqFeature) :=
  (fun x => st_feats s !! x) <$> features r.

(** *** The graph that [__init__] builds *)

(** The edge recorded for one (u, v, locations) combination. *)
Definition match_edge (c : Z * Z * (location * location)) : edge :=
  (NInt c.1.1, NInt c.1.2, edge_key_str c.1.1 c.1.2 c.2).

(** The node table after the two [add_nodes_from] calls: the fragments
    under 1, 2, ... and their reverse complements under -1, -2, ... *)
Definition fragment_nodes (frags rcs : list Dseqrecord) : list (node * option Dseqrecord) :=
  imap (fun i f => (NInt (Z.of_nat i + 1), Some f)) frags
  ++ imap (fun i f => (NInt (- (Z.of_nat i + 1)), Some f)) rcs.

(** A signed index of one of [n] fragments. *)
Definition fragment_index (n : nat) (u : Z) : Prop := 1 <= Z.abs u <= Z.of_nat n.

(** Every edge joins two different fragments, in either orientation,
    carries its locations, and comes with the edge in the opposite
    direction and the edge between the reverse complements. *)
Definition overlap_graph (n : nat) (G : MultiDiGraph) : Prop :=
  forall e, has_edge G e = true ->
    exists u v,
      e_src e = NInt u /\ e_tgt e = NInt v /\
      fragment_index n u /\ fragment_index n v /\ Z.abs u <> Z.abs v /\
      is_Some (edge_locations G e) /\
      (exists k, has_edge G (NInt v, NInt u, k) = true) /\
      (exists k, has_edge G (NInt (- u), NInt (- v), k) = true).

(** The graph has the edge [e] between known nodes, with the locations
    [l] on every entry stored for it. *)
Definition settled (G : MultiDiGraph) (e : edge) (l : location * location) : Prop :=
  has_node G (e_src e) = true /\ has_node G (e_tgt e) = true /\
  e ∈ (g_edges G).*1 /\
  forall x, x ∈ g_edges G -> x.1 = e -> x.2 = Some l.

(** *** The anchored copy of the graph *)

(** A computation that, run when the graph object [g] is the newest one,
    changes at most that object, from [X] to a graph related to it by [R]. *)
Definition evolves {A} (g : gref) (R : MultiDiGraph -> MultiDiGraph -> Prop) (c : M A) : Prop :=
  forall gs fs X, g = length gs ->
    exists r X', c (Store (gs ++ [X]) fs) = (r, Store (gs ++ [X']) fs) /\ R X X'.

(** An edge that [get_linear_assemblies] adds to its copy of the graph: from
    ['begin'] to a start node, or from a final node to ['end']. *)
Definition anchor_edge (self : Assembly) (e : edge) : Prop :=
  (e_src e = NStr "begin" /\
   if use_fragment_order self
   then e_tgt e = NInt 1 \/ e_tgt e = NInt (-1)
   else exists z, e_tgt e = NInt z /\ 0 < z) \/
  (e_tgt e = NStr "end" /\
   if use_fragment_order self
   then e_src e = NInt (Z.of_nat (length (fragments self)))
        \/ e_src e = NInt (- Z.of_nat (length (fragments self)))
   else is_int (e_src e) = true).

(** The edges of [X'] are edges of [X] or anchors. *)
Definition anchored (self : Assembly) (X X' : MultiDiGraph) : Prop :=
  forall e, has_edge X' e = true -> has_edge X e = true \/ anchor_edge self e.

(** What networkx documents of [all_simple_edge_paths]: a path is a chain
    of edges of the graph that leads from the source to the target. *)
Definition edge_path (G : MultiDiGraph) (source target : node) (p : list edge) : Prop :=
  Forall (fun e => has_edge G e = true) p /\
  e_src <$> head p = Some source /\
  e_tgt <$> last p = Some target /\
  chained p.

(** Every edge of the graph joins integer nodes. *)
Definition int_edges (G : MultiDiGraph) : Prop :=
  forall e, has_edge G e = true -> is_int (e_src e) = true /\ is_int (e_tgt e) = true.

(** *** Results of a computation *)

(** Whenever the computation returns, its result satisfies [Q]. *)
Definition returns {A} (c : M A) (Q : A -> Prop) : Prop :=
  forall s a s', c s = (Some a, s') -> Q a.

(** What makes a path simple: no node is visited twice. *)
Definition simple_path (source : node) (p : list edge) : Prop :=
  NoDup (source :: (e_tgt <$> p)).

(** *** Reading a circle on the other strand *)



(** *** Running a computation on every element of a list *)

(** [ys] holds, position by position, what [f] returns on the elements of
    [l] when it is run on them one after the other, from the store [s] to
    the store [s']. *)
Fixpoint run_each {A B} (f : A -> M B) (l : list A) (ys : list B) (s s' : store) : Prop :=
  match l, ys with
  | [], [] => s' = s
  | x :: l', y :: ys' => exists s1, f x s = (Some y, s1) /\ run_each f l' ys' s1 s'
  | _, _ => False
  end.

(** A match that lies inside the two sequences it was found in. *)
Definition match_in_range (x y : list ascii) (m : match_t) : Prop :=
  let '(a, b, len) := m in
  0 <= a /\ 0 <= b /\ 0 < len /\
  a + len <= Z.of_nat (length x) /\ b + len <= Z.of_nat (length y).

(** * Properties *)

(** ** Python slices *)

Section PySeqFacts.
Context {A : Type}.
Implicit Types l : list A.

Lemma py_slice_between l (i j : Z) :
  0 <= i -> i <= j -> j <= Z.of_nat (length l) ->
  py_slice (Some i) (Some j) l = take (Z.to_nat (j - i)) (drop (Z.to_nat i) l).
Proof.
  intros Hi Hij Hj. unfold py_slice, py_index; simpl.
  repeat case_decide; try lia.
  rewrite !Z.min_l by lia. reflexivity.
Qed.

Lemma py_slice_from l (i : Z) :
  0 <= i -> py_slice (Some i) None l = drop (Z.to_nat i) l.
Proof.
  intros Hi. unfold py_slice, py_index; simpl.
  repeat case_decide; try lia.
  rewrite (Z.min_l (Z.of_nat (length l))) by lia.
  rewrite take_ge by (rewrite length_drop; lia).
  destruct (decide (i <= Z.of_nat (length l))).
  - by rewrite Z.min_l by lia.
  - rewrite Z.min_r by lia. rewrite !drop_ge by lia. reflexivity.
Qed.

Lemma py_slice_upto l (j : Z) :
  0 <= j -> py_slice None (Some j) l = take (Z.to_nat j) l.
Proof.
  intros Hj. unfold py_slice, py_index; simpl.
  repeat case_decide; try lia.
  rewrite (Z.min_l 0) by lia. simpl. rewrite drop_0.
  destruct (decide (j <= Z.of_nat (length l))).
  - rewrite Z.min_l by lia. f_equal. lia.
  - rewrite Z.min_r by lia. rewrite !take_ge by lia. reflexivity.
Qed.


Lemma py_slice_tail (x : A) l : py_slice (Some 1) None (x :: l) = l.
Proof. rewrite py_slice_from by lia. reflexivity. Qed.

Lemma py_slice_tail_nil : py_slice (Some 1) None (@nil A) = [].
Proof. reflexivity. Qed.

Lemma py_slice_head (x : A) l : py_slice None (Some 1) (x :: l) = [x].
Proof. rewrite py_slice_upto by lia. simpl. by rewrite take_0. Qed.

Lemma zip_next_cons (x : A) l : zip_next (x :: l) = zip (x :: l) l.
Proof. unfold zip_next. by rewrite py_slice_tail. Qed.

Lemma zip_cyclic_cons (x : A) l : zip_cyclic (x :: l) = zip (x :: l) (l ++ [x]).
Proof. unfold zip_cyclic. by rewrite py_slice_tail, py_slice_head. Qed.
End PySeqFacts.

(** ** is_sublist is the contiguous-infix test *)

Section IsSublistFacts.
Context {A : Type} `{EqDecision A}.
Implicit Types l sub : list A.

Lemma is_sublist_spec sub l :
  is_sublist sub l = true <-> exists pre post, l = pre ++ sub ++ post.
Proof.
  unfold is_sublist, py_range. rewrite existsb_exists. split.
  - intros (i & Hin & Heq). apply bool_decide_eq_true in Heq.
    apply list_elem_of_In, list_elem_of_fmap in Hin as (k & -> & Hk).
    apply list_elem_of_In, in_seq in Hk.
    rewrite py_slice_between in Heq by lia.
    exists (take k l), (drop (length sub) (drop k l)).
    replace (Z.to_nat (Z.of_nat k + Z.of_nat (length sub) - Z.of_nat k))
      with (length sub) in Heq by lia.
    rewrite Nat2Z.id in Heq.
    rewrite <- Heq at 1. by rewrite take_drop, take_drop.
  - intros (pre & post & ->).
    exists (Z.of_nat (length pre)). split.
    + apply list_elem_of_In, list_elem_of_fmap. exists (length pre). split; [done|].
      apply list_elem_of_In, in_seq. rewrite !length_app. lia.
    + apply bool_decide_eq_true.
      rewrite py_slice_between by (rewrite ?length_app; lia).
      replace (Z.to_nat (Z.of_nat (length pre) + Z.of_nat (length sub) - Z.of_nat (length pre)))
        with (length sub) by lia.
      rewrite Nat2Z.id, drop_app_length. by rewrite take_app_length.
Qed.

Lemma is_sublist_refl l : is_sublist l l = true.
Proof. apply is_sublist_spec. exists [], []. by rewrite app_nil_r. Qed.

Lemma is_sublist_length sub l :
  is_sublist sub l = true -> (length sub <= length l)%nat.
Proof.
  intros (pre & post & ->)%is_sublist_spec. rewrite !length_app. lia.
Qed.

Lemma is_sublist_same_length sub l :
  is_sublist sub l = true -> length sub = length l -> sub = l.
Proof.
  intros (pre & post & ->)%is_sublist_spec Hlen. rewrite !length_app in Hlen.
  destruct pre; [|simpl in Hlen; lia].
  destruct post; [|simpl in Hlen; lia].
  simpl. by rewrite app_nil_r.
Qed.
End IsSublistFacts.

(** ** remove_subassemblies *)


Section SortFacts.
Context {A : Type}.
Implicit Types (a : list A) (l : list (list A)).

Lemma insert_by_len_perm a l : insert_by_len a l ≡ₚ a :: l.
Proof.
  induction l as [|b l IH]; simpl; [done|].
  case_decide; [done|]. rewrite IH. apply Permutation_swap.
Qed.

Lemma sorted_by_len_desc_perm l : sorted_by_len_desc l ≡ₚ l.
Proof.
  induction l as [|a l IH]; simpl; [done|].
  rewrite insert_by_len_perm. by rewrite IH.
Qed.

Lemma insert_by_len_sorted a l :
  StronglySorted longer l -> StronglySorted longer (insert_by_len a l).
Proof.
  induction l as [|b l IH]; simpl; intros Hs.
  - repeat constructor.
  - apply StronglySorted_inv in Hs as [Hs Hb].
    case_decide as Hlen.
    + constructor; [by constructor|].
      constructor; [exact Hlen|].
      eapply Forall_impl; [exact Hb|]. unfold longer. intros; lia.
    + constructor; [by apply IH|].
      rewrite insert_by_len_perm. constructor; [unfold longer; lia|done].
Qed.

Lemma sorted_by_len_desc_sorted l : StronglySorted longer (sorted_by_len_desc l).
Proof.
  induction l as [|a l IH]; simpl; [constructor|]. by apply insert_by_len_sorted.
Qed.
End SortFacts.

Lemma StronglySorted_snoc {A} (R : A -> A -> Prop) (l : list A) (x : A) :
  StronglySorted R l -> Forall (fun a => R a x) l -> StronglySorted R (l ++ [x]).
Proof.
  induction 1 as [|a l Hs IH Ha]; simpl; intros Hx.
  - repeat constructor.
  - apply Forall_cons in Hx as [Hax Hx].
    constructor; [by apply IH|].
    apply Forall_app. split; [done|by constructor].
Qed.

Lemma StronglySorted_lookup {A} (R : A -> A -> Prop) (l : list A) (i j : nat) (a b : A) :
  StronglySorted R l -> (i < j)%nat -> l !! i = Some a -> l !! j = Some b -> R a b.
Proof.
  intros Hs. revert i j. induction Hs as [|x l Hs IH Hx]; intros i j Hij Hi Hj; [done|].
  destruct j as [|j]; [lia|]. simpl in Hj.
  destruct i as [|i]; simpl in Hi.
  - injection Hi as ->. eapply Forall_forall in Hx; [exact Hx|]. by eapply list_elem_of_lookup_2.
  - eapply (IH i j); [lia|done..].
Qed.

Lemma keep_step_fold (l : list assembly) :
  remove_subassemblies l = foldl keep_step [] (sorted_by_len_desc l).
Proof. reflexivity. Qed.

Lemma existsb_false_Forall {A} (p : A -> bool) (l : list A) :
  existsb p l = false -> Forall (fun a => p a = false) l.
Proof.
  induction l as [|a l IH]; simpl; [constructor|].
  intros [Ha Hl]%orb_false_iff. constructor; auto.
Qed.

Lemma keep_loop_sorted (rest acc : list assembly) :
  StronglySorted kept_after acc ->
  StronglySorted longer rest ->
  Forall (fun a => Forall (longer a) rest) acc ->
  StronglySorted kept_after (foldl keep_step acc rest).
Proof.
  revert acc. induction rest as [|x rest IH]; intros acc Hacc Hrest Hall; simpl; [done|].
  apply StronglySorted_inv in Hrest as [Hrest Hx].
  assert (Hall' : Forall (fun a => Forall (longer a) rest) acc).
  { eapply Forall_impl; [exact Hall|]. intros a Ha. by apply Forall_cons in Ha as [_ ?]. }
  unfold keep_step at 2. destruct (existsb (is_sublist x) acc) eqn:Hex.
  - by apply IH.
  - apply IH; [|done|].
    + apply StronglySorted_snoc; [done|].
      apply existsb_false_Forall in Hex.
      apply Forall_forall. intros a Ha. split.
      * eapply Forall_forall in Hall; [|exact Ha]. by apply Forall_cons in Hall as [? _].
      * eapply Forall_forall in Hex; [exact Hex|exact Ha].
    + apply Forall_app. split; [done|]. by constructor.
Qed.

Lemma keep_loop_elem (rest acc : list assembly) (a : assembly) :
  a ∈ foldl keep_step acc rest -> a ∈ acc \/ a ∈ rest.
Proof.
  revert acc. induction rest as [|x rest IH]; intros acc; simpl; [by left|].
  intros [Hin|Hin]%IH.
  - unfold keep_step in Hin. destruct (existsb _ _).
    + by left.
    + apply elem_of_app in Hin as [?|?%list_elem_of_singleton]; [by left|].
      subst. right. by left.
  - right. by right.
Qed.

Lemma keep_loop_mono (rest acc : list assembly) (a : assembly) :
  a ∈ acc -> a ∈ foldl keep_step acc rest.
Proof.
  revert acc. induction rest as [|x rest IH]; intros acc Ha; simpl; [done|].
  apply IH. unfold keep_step. destruct (existsb _ _); [done|].
  apply elem_of_app. by left.
Qed.

Lemma keep_loop_covers (rest acc : list assembly) (a : assembly) :
  a ∈ rest -> exists b, b ∈ foldl keep_step acc rest /\ is_sublist a b = true.
Proof.
  revert acc. induction rest as [|x rest IH]; intros acc Ha; [by apply elem_of_nil in Ha|].
  simpl. apply elem_of_cons in Ha as [->|Ha]; [|by apply IH].
  unfold keep_step at 2. destruct (existsb (is_sublist x) acc) eqn:Hex.
  - apply existsb_exists in Hex as (b & Hb & Hsub).
    exists b. split; [|done]. apply keep_loop_mono. by apply list_elem_of_In.
  - exists x. split; [|apply is_sublist_refl].
    apply keep_loop_mono. apply elem_of_app. right. by left.
Qed.

Lemma remove_subassemblies_subset (l : list assembly) (a : assembly) :
  a ∈ remove_subassemblies l -> a ∈ l.
Proof.
  rewrite keep_step_fold. intros [Hin|Hin]%keep_loop_elem.
  - by apply elem_of_nil in Hin.
  - by rewrite sorted_by_len_desc_perm in Hin.
Qed.

Lemma remove_subassemblies_covers (l : list assembly) (a : assembly) :
  a ∈ l -> exists b, b ∈ remove_subassemblies l /\ is_sublist a b = true.
Proof.
  intros Ha. rewrite keep_step_fold. apply keep_loop_covers.
  by rewrite sorted_by_len_desc_perm.
Qed.

Lemma remove_subassemblies_sorted (l : list assembly) :
  StronglySorted kept_after (remove_subassemblies l).
Proof.
  rewrite keep_step_fold. apply keep_loop_sorted.
  - constructor.
  - apply sorted_by_len_desc_sorted.
  - constructor.
Qed.

Lemma remove_subassemblies_independent (l : list assembly) (i j : nat) (a b : assembly) :
  i <> j ->
  remove_subassemblies l !! i = Some a ->
  remove_subassemblies l !! j = Some b ->
  is_sublist a b = false.
Proof.
  intros Hij Hi Hj. pose proof (remove_subassemblies_sorted l) as Hs.
  destruct (decide (i < j)%nat) as [Hlt|Hge].
  - destruct (StronglySorted_lookup _ _ _ _ _ _ Hs Hlt Hi Hj) as [Hlen Hba].
    destruct (is_sublist a b) eqn:Hab; [|done].
    pose proof (is_sublist_length _ _ Hab) as Hle.
    assert (a = b) as -> by (apply is_sublist_same_length; [done|unfold longer in Hlen; lia]).
    by rewrite is_sublist_refl in Hba.
  - assert (Hlt : (j < i)%nat) by lia.
    by destruct (StronglySorted_lookup _ _ _ _ _ _ Hs Hlt Hj Hi) as [_ Hba].
Qed.

Lemma remove_subassemblies_NoDup (l : list assembly) : NoDup (remove_subassemblies l).
Proof.
  apply NoDup_alt. intros i j a Hi Hj.
  destruct (decide (i = j)) as [|Hne]; [done|].
  pose proof (remove_subassemblies_independent l i j a a Hne Hi Hj) as Hf.
  by rewrite is_sublist_refl in Hf.
Qed.

(** ** validate_assembly *)


Lemma elem_of_zip_next (a : assembly) (e1 e2 : edge) :
  (e1, e2) ∈ zip_next a <-> consecutive false a e1 e2.
Proof.
  unfold consecutive. destruct a as [|x l].
  - split; [by intros ?%elem_of_nil|]. by intros (i & ? & _).
  - rewrite zip_next_cons. rewrite list_elem_of_lookup. split.
    + intros (i & Hi). apply lookup_zip_with_Some in Hi as (y1 & y2 & [= -> ->] & H1 & H2).
      exists i. by split.
    + intros (i & H1 & H2). exists i. apply lookup_zip_with_Some.
      exists e1, e2. by repeat split.
Qed.

Lemma lookup_rotate_snoc (x : edge) (l : list edge) (i : nat) :
  (i < S (length l))%nat ->
  (l ++ [x]) !! i = (x :: l) !! (S i `mod` S (length l))%nat.
Proof.
  intros Hi. destruct (decide (i < length l)%nat) as [Hlt|Hge].
  - rewrite Nat.mod_small by lia. simpl. by apply lookup_app_l.
  - assert (i = length l) as -> by lia.
    rewrite Nat.Div0.mod_same. simpl.
    rewrite lookup_app_r by lia. by rewrite Nat.sub_diag.
Qed.

Lemma elem_of_zip_cyclic (a : assembly) (e1 e2 : edge) :
  (e1, e2) ∈ zip_cyclic a <-> consecutive true a e1 e2.
Proof.
  unfold consecutive. destruct a as [|x l].
  - split; [by intros ?%elem_of_nil|]. by intros (i & ? & _).
  - rewrite zip_cyclic_cons. rewrite list_elem_of_lookup. split.
    + intros (i & Hi). apply lookup_zip_with_Some in Hi as (y1 & y2 & [= -> ->] & H1 & H2).
      exists i. split; [done|]. cbn [length].
      rewrite <- lookup_rotate_snoc; [done|]. apply lookup_lt_Some in H1. simpl in H1. lia.
    + intros (i & H1 & H2). exists i. apply lookup_zip_with_Some.
      exists e1, e2. split; [done|]. split; [done|]. cbn [length] in H2.
      rewrite lookup_rotate_snoc; [done|]. apply lookup_lt_Some in H1. simpl in H1. lia.
Qed.

Lemma elem_of_edge_pairs (circ : bool) (a : assembly) (e1 e2 : edge) :
  (e1, e2) ∈ (if circ then zip_cyclic a else zip_next a) <-> consecutive circ a e1 e2.
Proof. destruct circ; [apply elem_of_zip_cyclic|apply elem_of_zip_next]. Qed.

Lemma consecutive_in (circ : bool) (a : assembly) (e1 e2 : edge) :
  consecutive circ a e1 e2 -> e1 ∈ a /\ e2 ∈ a.
Proof.
  intros (i & H1 & H2). split; by eapply list_elem_of_lookup_2.
Qed.

Lemma check_edge_pairs_spec (G : MultiDiGraph) (pairs : list (edge * edge)) :
  Forall (fun p => is_Some (edge_locations G p.1) /\ is_Some (edge_locations G p.2)) pairs ->
  exists b, check_edge_pairs G pairs = Some b /\
            (b = true <-> Forall (fun p => ordering_ok G p.1 p.2) pairs).
Proof.
  induction 1 as [|[e1 e2] pairs [[l Hl] [r Hr]] Hall (b & Hb & IH)]; simpl in *.
  - exists true. split; [done|]. split; [constructor|done].
  - rewrite Hl, Hr. simpl. case_decide as Hcmp.
    + exists false. split; [done|]. split; [done|].
      intros [(l' & r' & Hl' & Hr' & Hlt) _]%Forall_cons. simpl in *.
      rewrite Hl in Hl'. rewrite Hr in Hr'. injection Hl' as <-. injection Hr' as <-. lia.
    + exists b. split; [done|]. rewrite IH. split.
      * intros Hf. constructor; [|done]. exists l, r. simpl. repeat split; [done..|lia].
      * by intros [_ ?]%Forall_cons.
Qed.

Lemma is_circular_Some (a : assembly) :
  a <> [] -> exists circ, is_circular a = Some circ.
Proof. destruct a; [done|]. intros _. by eexists. Qed.

(** What [validate_assembly] computes on a candidate whose edges are in the
    graph. *)
Lemma validate_on_spec (G : MultiDiGraph) (self : Assembly) (a : assembly) (circ : bool) :
  is_circular a = Some circ ->
  in_graph G a ->
  exists b, validate_on G self a = Some b /\
            (b = true <->
             count_ok self circ a /\
             forall e1 e2, consecutive circ a e1 e2 -> ordering_ok G e1 e2).
Proof.
  intros Hc Hin. unfold validate_on.
  destruct a as [|e0 a']; [done|].
  case_decide as Hlen; [simpl in Hlen; lia|].
  rewrite Hc. simpl.
  destruct (use_all_fragments self && _) eqn:Hcount.
  - exists false. split; [done|]. split; [done|]. intros [Hok _].
    apply andb_true_iff in Hcount as [Hu Hne]. apply bool_decide_eq_true in Hne.
    specialize (Hok Hu). simpl in Hok. simpl in Hne. lia.
  - destruct (check_edge_pairs_spec G (if circ then zip_cyclic (e0 :: a') else zip_next (e0 :: a')))
      as (b & Hb & Hspec).
    { apply Forall_forall. intros [e1 e2] Hp. simpl.
      apply elem_of_edge_pairs, consecutive_in in Hp as [H1 H2].
      split; eapply Forall_forall in Hin; eauto. }
    exists b. split; [done|]. rewrite Hspec. rewrite Forall_forall. split.
    + intros Hall. split.
      * intros Hu. rewrite Hu in Hcount. simpl in Hcount.
        apply bool_decide_eq_false in Hcount. simpl in *. lia.
      * intros e1 e2 Hp. by apply (Hall (e1, e2)), elem_of_edge_pairs.
    + intros [_ Hall] [e1 e2] Hp. simpl. by apply Hall, elem_of_edge_pairs.
Qed.

Lemma validate_on_true_inv (G : MultiDiGraph) (self : Assembly) (a : assembly) :
  validate_on G self a = Some true ->
  exists circ, is_circular a = Some circ /\ count_ok self circ a /\
    check_edge_pairs G (if circ then zip_cyclic a else zip_next a) = Some true.
Proof.
  unfold validate_on. case_decide; [done|].
  destruct (is_circular a) as [circ|]; [|done]. simpl.
  destruct (use_all_fragments self && _) eqn:Hcount; [done|].
  intros Hchk. exists circ. split; [done|]. split; [|done].
  intros Hu. rewrite Hu in Hcount. simpl in Hcount.
  apply bool_decide_eq_false in Hcount. lia.
Qed.

(** ** Running store computations *)

Lemma bind_run {A B} (c : M A) (f : A -> M B) (s : store) :
  (c ≫= f) s = match c s with
               | (Some a, s') => f a s'
               | (None, s') => (None, s')
               end.
Proof. reflexivity. Qed.

Lemma validate_assembly_run (self : Assembly) (a : assembly) (s : store) (G : MultiDiGraph) :
  st_graphs s !! self_G self = Some G ->
  validate_assembly self a s = (validate_on G self a, s).
Proof.
  intros HG. unfold validate_assembly. rewrite bind_run. unfold get_graph. by rewrite HG.
Qed.

Lemma filterM_pure {A} (p : A -> M bool) (q : A -> option bool) (s : store) (l : list A) :
  (forall x, p x s = (q x, s)) -> filterM p l s = (filter_opt q l, s).
Proof.
  intros Hp. induction l as [|x l IH]; simpl; [done|].
  rewrite bind_run, Hp. destruct (q x) as [b|]; simpl; [|done].
  rewrite bind_run, IH. by destruct (filter_opt q l).
Qed.

Lemma filter_opt_Some {A} (p : A -> option bool) (l r : list A) :
  filter_opt p l = Some r ->
  Forall (fun x => is_Some (p x)) l /\ forall x, x ∈ r <-> x ∈ l /\ p x = Some true.
Proof.
  revert r. induction l as [|y l IH]; simpl; intros r Hr.
  - injection Hr as <-. split; [constructor|]. intros x. split; [by intros ?%elem_of_nil|].
    by intros [?%elem_of_nil _].
  - destruct (p y) as [b|] eqn:Hy; simpl in Hr; [|done].
    destruct (filter_opt p l) as [r'|]; simpl in Hr; [|done].
    injection Hr as <-. destruct (IH r' eq_refl) as [Hall Hiff].
    split; [constructor; [by rewrite Hy|done]|].
    intros x. destruct b.
    + rewrite !elem_of_cons, Hiff. split.
      * intros [->|[? ?]]; auto.
      * intros [[->|?] ?]; auto.
    + rewrite elem_of_cons, Hiff. split.
      * intros [? ?]; auto.
      * intros [[->|?] ?]; [congruence|auto].
Qed.

Lemma filter_opt_total {A} (p : A -> option bool) (l : list A) :
  Forall (fun x => is_Some (p x)) l -> is_Some (filter_opt p l).
Proof.
  induction 1 as [|x l [b Hx] _ [r IH]]; simpl; [by eexists|].
  rewrite Hx, IH. simpl. by eexists.
Qed.

(** *** The linear search only writes to its own copy of the graph *)

Lemma touches_last_ret {A} (g : gref) (a : A) : touches_last g (mret a).
Proof. intros gs fs X _. by exists (Some a), X. Qed.

Lemma touches_last_liftO {A} (g : gref) (o : option A) : touches_last g (liftO o).
Proof. intros gs fs X _. by exists o, X. Qed.

Lemma touches_last_get_graph (g g' : gref) : touches_last g (get_graph g').
Proof. intros gs fs X _. by eexists _, X. Qed.

Lemma touches_last_update_graph (g : gref) (f : MultiDiGraph -> MultiDiGraph) :
  touches_last g (update_graph g f).
Proof.
  intros gs fs X ->. exists (Some ()), (f X). unfold update_graph. simpl.
  rewrite lookup_app_r by lia. rewrite Nat.sub_diag. simpl.
  do 2 f_equal. rewrite insert_app_r_alt by lia. by rewrite Nat.sub_diag.
Qed.

Lemma touches_last_bind {A B} (g : gref) (c : M A) (f : A -> M B) :
  touches_last g c -> (forall a, touches_last g (f a)) -> touches_last g (c ≫= f).
Proof.
  intros Hc Hf gs fs X Hg. rewrite bind_run.
  destruct (Hc gs fs X Hg) as (r & X' & ->). destruct r as [a|].
  - apply Hf, Hg.
  - by exists None, X'.
Qed.

Lemma touches_last_for_each {A} (g : gref) (l : list A) (body : A -> M unit) :
  (forall x, touches_last g (body x)) -> touches_last g (for_each l body).
Proof.
  intros Hb. induction l as [|x l IH]; simpl.
  - apply touches_last_ret.
  - apply touches_last_bind; [apply Hb|]. intros _. apply IH.
Qed.

Lemma touches_last_add_anchors (self : Assembly) (g : gref) :
  touches_last g (add_anchors self g).
Proof.
  unfold add_anchors.
  repeat first
    [ apply touches_last_update_graph
    | apply touches_last_get_graph
    | apply touches_last_liftO
    | apply touches_last_ret
    | apply touches_last_for_each; intros ?
    | apply touches_last_bind; [|intros ?]
    | match goal with |- touches_last _ (if ?b then _ else _) => destruct b end ].
Qed.

(** The result of [get_linear_assemblies], read off its run. *)
Lemma get_linear_assemblies_run
    (all_simple_edge_paths : MultiDiGraph -> node -> node -> list (list edge))
    (self : Assembly) (s s' : store) (l : list assembly) :
  get_linear_assemblies all_simple_edge_paths self s = (Some l, s') ->
  exists G Gc cands,
    st_graphs s !! self_G self = Some G /\
    s' = Store (st_graphs s ++ [Gc]) (st_feats s) /\
    filter_opt (validate_on G self)
      (py_slice (Some 1) (Some (-1))
         <$> all_simple_edge_paths Gc (NStr "begin") (NStr "end")) = Some cands /\
    l = remove_subassemblies cands.
Proof.
  unfold get_linear_assemblies. rewrite bind_run. unfold get_graph at 1. simpl.
  destruct (st_graphs s !! self_G self) as [G|] eqn:HG; [|done].
  rewrite bind_run. unfold new_graph at 1. simpl. rewrite bind_run.
  destruct (touches_last_add_anchors self (length (st_graphs s)) (st_graphs s) (st_feats s) G eq_refl)
    as (r & Gc & ->).
  destruct r as [[]|]; [|done].
  rewrite bind_run. unfold get_graph at 1. simpl.
  rewrite lookup_app_r by lia. rewrite Nat.sub_diag. simpl.
  rewrite bind_run.
  erewrite filterM_pure; last first.
  { intros a. apply validate_assembly_run. simpl.
    rewrite lookup_app_l; [done|]. by eapply lookup_lt_Some. }
  destruct (filter_opt _ _) as [cands|] eqn:Hc; [|done].
  intros [= <- <-]. by exists G, Gc, cands.
Qed.

Lemma mapM_pure {A B} (f : A -> M B) (q : A -> option B) (s : store) (l : list A) :
  (forall x, f x s = (q x, s)) -> mapM f l s = (mapM q l, s).
Proof.
  intros Hf. induction l as [|x l IH]; simpl; [done|].
  rewrite bind_run, Hf. destruct (q x) as [b|]; simpl; [|done].
  rewrite bind_run, IH. by destruct (mapM q l).
Qed.

Lemma cycle2circular_assemblies_run (self : Assembly) (cycle : list node) (s : store)
    (G : MultiDiGraph) :
  st_graphs s !! self_G self = Some G ->
  cycle2circular_assemblies self cycle s = (cycle2circular_on G cycle, s).
Proof.
  intros HG. unfold cycle2circular_assemblies. rewrite bind_run. unfold get_graph. by rewrite HG.
Qed.

(** The result of [get_circular_assemblies], read off its run. *)
Lemma get_circular_assemblies_run (simple_cycles : MultiDiGraph -> list (list node))
    (self : Assembly) (s s' : store) (l : list assembly) :
  get_circular_assemblies simple_cycles self s = (Some l, s') ->
  exists G sorted_cycles kept assemblies,
    st_graphs s !! self_G self = Some G /\ s' = s /\
    mapM circular_permutation_min_abs (simple_cycles G) = Some sorted_cycles /\
    filter_opt first_positive sorted_cycles = Some kept /\
    mapM (cycle2circular_on G) kept = Some assemblies /\
    filter_opt (validate_on G self) (concat assemblies) = Some l.
Proof.
  unfold get_circular_assemblies. rewrite bind_run. unfold get_graph at 1. simpl.
  destruct (st_graphs s !! self_G self) as [G|] eqn:HG; [|done].
  rewrite bind_run. unfold liftO at 1.
  destruct (mapM circular_permutation_min_abs _) as [sorted_cycles|] eqn:Hs; [|done].
  rewrite bind_run. rewrite (filterM_pure _ first_positive s) by (intros x; reflexivity).
  destruct (filter_opt first_positive _) as [kept|] eqn:Hk; [|done].
  rewrite bind_run.
  erewrite (mapM_pure _ (cycle2circular_on G));
    [|intros x; by apply cycle2circular_assemblies_run].
  destruct (mapM (cycle2circular_on G) kept) as [assemblies|] eqn:Ha; [|done].
  erewrite filterM_pure; [|intros a; by apply validate_assembly_run].
  destruct (filter_opt _ (concat assemblies)) as [r|] eqn:Hr; [|done].
  intros [= <- <-]. by exists G, sorted_cycles, kept, assemblies.
Qed.

(** ** The enumerated assemblies *)

(** C2: on a candidate whose edges are in the graph, [validate_assembly]
    returns a boolean; it is [False] as soon as some pair of consecutive
    edges (the last edge being followed by the first in a circular
    candidate) has the end of the last part of the first edge's location on
    the shared fragment not strictly before the end of the first part of the
    second edge's location on it, and it is [True] when every pair is in
    order and the fragment count passes. *)
Theorem C2_validate_assembly_ordering
    (self : Assembly) (a : assembly) (s : store) (G : MultiDiGraph) (circ : bool) :
  st_graphs s !! self_G self = Some G ->
  is_circular a = Some circ ->
  in_graph G a ->
  exists b, validate_assembly self a s = (Some b, s) /\
    ((exists e1 e2, consecutive circ a e1 e2 /\ ~ ordering_ok G e1 e2) -> b = false) /\
    (count_ok self circ a ->
     (forall e1 e2, consecutive circ a e1 e2 -> ordering_ok G e1 e2) -> b = true).
Proof.
  intros HG Hc Hin. rewrite (validate_assembly_run _ _ _ _ HG).
  destruct (validate_on_spec G self a circ Hc Hin) as (b & -> & Hb).
  exists b. split; [done|]. split.
  - intros (e1 & e2 & Hp & Hbad). destruct b; [|done].
    destruct Hb as [Hb _]. destruct (Hb eq_refl) as [_ Hall]. by destruct Hbad; apply Hall.
  - intros Hcount Hall. by apply Hb.
Qed.

Lemma C2_witness :
  st_graphs Reference.example_store !! self_G Reference.example_self
    = Some Reference.example_graph /\
  is_circular Reference.example_circular = Some true /\
  in_graph Reference.example_graph Reference.example_circular /\
  exists b, validate_assembly Reference.example_self Reference.example_circular
              Reference.example_store = (Some b, Reference.example_store) /\
    ((exists e1 e2, consecutive true Reference.example_circular e1 e2 /\
                    ~ ordering_ok Reference.example_graph e1 e2) -> b = false) /\
    (count_ok Reference.example_self true Reference.example_circular ->
     (forall e1 e2, consecutive true Reference.example_circular e1 e2 ->
                    ordering_ok Reference.example_graph e1 e2) -> b = true).
Proof.
  assert (H1 : st_graphs Reference.example_store !! self_G Reference.example_self
               = Some Reference.example_graph) by reflexivity.
  assert (H2 : is_circular Reference.example_circular = Some true) by reflexivity.
  assert (H3 : in_graph Reference.example_graph Reference.example_circular).
  { repeat constructor; vm_compute; by eexists. }
  exact (conj H1 (conj H2 (conj H3
           (C2_validate_assembly_ordering _ _ _ _ _ H1 H2 H3)))).
Defined.

(** C3: every assembly returned by [get_linear_assemblies] or
    [get_circular_assemblies] passes [validate_assembly], and no assembly of
    the linear result is a contiguous sub-sequence of the assembly at another
    position of the same result. *)
Theorem C3_returned_assemblies_valid_and_maximal
    (all_simple_edge_paths : MultiDiGraph -> node -> node -> list (list edge))
    (simple_cycles : MultiDiGraph -> list (list node))
    (self : Assembly) (s : store) :
  (forall l s',
      get_linear_assemblies all_simple_edge_paths self s = (Some l, s') ->
      (forall a, a ∈ l -> validate_assembly self a s' = (Some true, s')) /\
      (forall (i j : nat) a b, i <> j -> l !! i = Some a -> l !! j = Some b ->
                       ~ exists pre post, b = pre ++ a ++ post)) /\
  (forall l s',
      get_circular_assemblies simple_cycles self s = (Some l, s') ->
      forall a, a ∈ l -> validate_assembly self a s' = (Some true, s')).
Proof.
  split.
  - intros l s' Hrun.
    apply get_linear_assemblies_run in Hrun as (G & Gc & cands & HG & -> & Hc & ->).
    apply filter_opt_Some in Hc as [_ Hc]. split.
    + intros a Ha%remove_subassemblies_subset. apply Hc in Ha as [_ Ha].
      rewrite (validate_assembly_run _ _ _ G); [by rewrite Ha|].
      simpl. rewrite lookup_app_l; [done|]. by eapply lookup_lt_Some.
    + intros i j a b Hij Hi Hj Hsub%is_sublist_spec.
      by rewrite (remove_subassemblies_independent cands i j a b Hij Hi Hj) in Hsub.
  - intros l s' Hrun.
    apply get_circular_assemblies_run in Hrun
      as (G & sorted_cycles & kept & assemblies & HG & -> & _ & _ & _ & Hl).
    apply filter_opt_Some in Hl as [_ Hl].
    intros a Ha. apply Hl in Ha as [_ Ha].
    by rewrite (validate_assembly_run _ _ _ G), Ha.
Qed.

Lemma C3_witness :
  (forall a, a ∈ Reference.example_linear_result.1 ->
     validate_assembly Reference.example_self a Reference.example_linear_result.2
       = (Some true, Reference.example_linear_result.2)) /\
  (forall a, a ∈ Reference.example_circular_result.1 ->
     validate_assembly Reference.example_self a Reference.example_circular_result.2
       = (Some true, Reference.example_circular_result.2)).
Proof.
  destruct (C3_returned_assemblies_valid_and_maximal
              Reference.all_simple_edge_paths Reference.simple_cycles
              Reference.example_self Reference.example_store) as [Hl Hc].
  split.
  - exact (proj1 (Hl Reference.example_linear_result.1 Reference.example_linear_result.2
                     eq_refl)).
  - exact (Hc Reference.example_circular_result.1 Reference.example_circular_result.2
              eq_refl).
Defined.

(** C10: the assemblies returned by [get_linear_assemblies] are pairwise
    distinct, because [is_sublist] holds for a list compared with itself. *)
Theorem C10_linear_assemblies_distinct
    (all_simple_edge_paths : MultiDiGraph -> node -> node -> list (list edge))
    (self : Assembly) (s s' : store) (l : list assembly) :
  get_linear_assemblies all_simple_edge_paths self s = (Some l, s') ->
  NoDup l /\ forall a : assembly, is_sublist a a = true.
Proof.
  intros Hrun.
  apply get_linear_assemblies_run in Hrun as (G & Gc & cands & _ & _ & _ & ->).
  split; [apply remove_subassemblies_NoDup|apply is_sublist_refl].
Qed.

Lemma C10_witness :
  get_linear_assemblies Reference.all_simple_edge_paths Reference.example_self
    Reference.example_store
  = (Some Reference.example_linear_result.1, Reference.example_linear_result.2) /\
  NoDup Reference.example_linear_result.1.
Proof.
  assert (H : get_linear_assemblies Reference.all_simple_edge_paths Reference.example_self
                Reference.example_store
              = (Some Reference.example_linear_result.1, Reference.example_linear_result.2))
    by (vm_compute; reflexivity).
  exact (conj H (proj1 (C10_linear_assemblies_distinct _ _ _ _ _ H))).
Defined.

(** C9 (as stated) fails: a candidate naming an edge that is not in the graph
    makes [validate_assembly] raise a key error. *)
Lemma C9_counterexample :
  (validate_assembly Reference.example_self
     [(NInt 1, NInt 2, KStr "1[0:5](+):2[0:5](+)"); Reference.edge_23]
     Reference.example_store).1 = None.
Proof. vm_compute. reflexivity. Qed.

(** C9 (amended): [validate_assembly] returns a boolean, leaving the store
    alone, for every candidate whose edges all belong to the graph, and
    [remove_subassemblies] returns a sub-list of the candidates it is given. *)
Theorem C9_filters_do_not_raise
    (self : Assembly) (s : store) (G : MultiDiGraph) :
  st_graphs s !! self_G self = Some G ->
  (forall a, in_graph G a -> exists b, validate_assembly self a s = (Some b, s)) /\
  (forall l a, a ∈ remove_subassemblies l -> a ∈ l).
Proof.
  intros HG. split.
  - intros a Hin. rewrite (validate_assembly_run _ _ _ _ HG).
    destruct a as [|e0 a'] eqn:Ha; [by exists false|]. rewrite <- Ha in *.
    destruct (is_circular_Some a) as [circ Hc]; [by rewrite Ha|].
    destruct (validate_on_spec G self a circ Hc Hin) as (b & -> & _). by exists b.
  - apply remove_subassemblies_subset.
Qed.

Lemma C9_witness :
  st_graphs Reference.example_store !! self_G Reference.example_self
    = Some Reference.example_graph /\
  in_graph Reference.example_graph Reference.example_circular /\
  (exists b, validate_assembly Reference.example_self Reference.example_circular
               Reference.example_store
             = (Some b, Reference.example_store)) /\
  (forall a, a ∈ remove_subassemblies [Reference.example_circular; Reference.example_linear] ->
             a ∈ [Reference.example_circular; Reference.example_linear]).
Proof.
  assert (H : st_graphs Reference.example_store !! self_G Reference.example_self
              = Some Reference.example_graph) by reflexivity.
  assert (Hin : in_graph Reference.example_graph Reference.example_circular)
    by (repeat constructor; vm_compute; by eexists).
  split; [exact H|]. split; [exact Hin|]. split.
  - exact (proj1 (C9_filters_do_not_raise _ _ _ H) Reference.example_circular Hin).
  - exact (proj2 (C9_filters_do_not_raise _ _ _ H)
             [Reference.example_circular; Reference.example_linear]).
Defined.

(** ** The graph builder *)

Section AssocFacts.
Context {K V : Type} `{EqDecision K}.
Implicit Types (k : K) (l : list (K * V)).

Lemma assoc_app k l1 l2 :
  assoc k (l1 ++ l2) = match assoc k l1 with
                       | Some v => Some v
                       | None => assoc k l2
                       end.
Proof.
  induction l1 as [|[k' v] l1 IH]; simpl; [done|]. by case_decide.
Qed.

Lemma assoc_None k l : assoc k l = None <-> k ∉ l.*1.
Proof.
  induction l as [|[k' v] l IH]; simpl.
  - split; [intros _ ?%elem_of_nil; done|done].
  - case_decide as Hk.
    + subst. split; [done|]. intros Hn. destruct Hn. by left.
    + rewrite IH. rewrite not_elem_of_cons. naive_solver.
Qed.

Lemma assoc_update k k0 (f : V -> V) l :
  assoc k ((fun x : K * V => if decide (x.1 = k0) then (x.1, f x.2) else x) <$> l)
  = if decide (k = k0) then f <$> assoc k l else assoc k l.
Proof.
  induction l as [|[k' v] l IH].
  - simpl. by case_decide.
  - rewrite fmap_cons. cbn [fst snd].
    destruct (decide (k' = k0)) as [->|Hne]; cbn [assoc].
    + destruct (decide (k0 = k)) as [->|Hne'].
      * by rewrite decide_True.
      * rewrite IH. by rewrite decide_False.
    + destruct (decide (k' = k)) as [->|Hne'].
      * by rewrite decide_False.
      * exact IH.
Qed.
End AssocFacts.

Lemma g_edges_add_node (n : node) (G : MultiDiGraph) : g_edges (add_node n G) = g_edges G.
Proof. unfold add_node. by destruct (has_node G n). Qed.

Lemma has_edge_assoc (G : MultiDiGraph) (e : edge) :
  has_edge G e = false <-> assoc e (g_edges G) = None.
Proof.
  unfold has_edge. rewrite bool_decide_eq_false. symmetry. apply assoc_None.
Qed.

Lemma has_edge_add_node (n : node) (G : MultiDiGraph) (e : edge) :
  has_edge (add_node n G) e = has_edge G e.
Proof. unfold has_edge. by rewrite g_edges_add_node. Qed.

(** The attribute table after [add_edge] with a ['locations'] attribute. *)
Lemma assoc_add_edge (u v : node) (k : ekey) (l : location * location)
    (G : MultiDiGraph) (e : edge) :
  assoc e (g_edges (add_edge u v k (Some l) G))
  = if decide (e = (u, v, k)) then Some (Some l) else assoc e (g_edges G).
Proof.
  unfold add_edge. rewrite !has_edge_add_node.
  destruct (has_edge G (u, v, k)) eqn:Hin; simpl; rewrite !g_edges_add_node.
  - rewrite (assoc_update e (u, v, k) (fun _ => Some l)).
    case_decide as He; [|done]. subst.
    destruct (assoc _ _) eqn:Ha; [done|].
    apply has_edge_assoc in Ha. congruence.
  - apply has_edge_assoc in Hin. rewrite assoc_app. simpl.
    destruct (decide (e = (u, v, k))) as [->|Hne].
    + rewrite Hin. by rewrite decide_True.
    + rewrite decide_False by done. by destruct (assoc e (g_edges G)).
Qed.

Lemma edge_locations_add_edge (u v : node) (k : ekey) (l : location * location)
    (G : MultiDiGraph) (e : edge) :
  edge_locations (add_edge u v k (Some l) G) e
  = if decide (e = (u, v, k)) then Some l else edge_locations G e.
Proof. unfold edge_locations. rewrite assoc_add_edge. by case_decide. Qed.

Lemma has_edge_add_edge (u v : node) (k : ekey) (l : location * location)
    (G : MultiDiGraph) (e : edge) :
  has_edge (add_edge u v k (Some l) G) e
  = if decide (e = (u, v, k)) then true else has_edge G e.
Proof.
  pose proof (assoc_add_edge u v k l G e) as Ha.
  destruct (has_edge (add_edge u v k (Some l) G) e) eqn:H1.
  - case_decide; [done|]. destruct (has_edge G e) eqn:H2; [done|].
    apply has_edge_assoc in H2. rewrite H2 in Ha. apply has_edge_assoc in Ha. congruence.
  - apply has_edge_assoc in H1. rewrite H1 in Ha. case_decide; [done|].
    symmetry. by apply has_edge_assoc.
Qed.

Lemma length_edges_add_edge (u v : node) (k : ekey) (a : edge_attr) (G : MultiDiGraph) :
  length (g_edges (add_edge u v k a G))
  = if has_edge G (u, v, k) then length (g_edges G) else S (length (g_edges G)).
Proof.
  unfold add_edge. rewrite !has_edge_add_node.
  destruct (has_edge G (u, v, k)); simpl; rewrite !g_edges_add_node.
  - by rewrite length_fmap.
  - rewrite length_app. simpl. lia.
Qed.

(** An in-range location is left as it is by the wrap with shift 0. *)
Lemma shift_location_in_range (x length lim : Z) :
  0 <= x -> 0 < length -> x + length <= lim ->
  shift_location (SimpleLocation x (x + length) 1) 0 lim
  = Some (SimpleLocation x (x + length) 1).
Proof.
  intros Hx Hl Hlim. unfold shift_location. rewrite decide_False by lia.
  unfold SimpleLocation, loc_strand, parts, shift_wrap_part; simpl.
  rewrite !Z.add_0_r. rewrite (Z.mod_small x lim) by lia.
  destruct (decide (x + length = lim)) as [Heq|Hne].
  - rewrite Heq, Z.mod_same by lia.
    destruct (decide (0 = 0)); [|done]. by rewrite decide_True by lia.
  - rewrite (Z.mod_small (x + length) lim) by lia.
    destruct (decide (x + length = 0)); [lia|]. by rewrite decide_True by lia.
Qed.

Lemma loc_len_SimpleLocation (s e strand : Z) : loc_len (SimpleLocation s e strand) = e - s.
Proof. unfold loc_len, part_len. simpl. lia. Qed.

Lemma loc_len_flip (l : location) (n : Z) : loc_len (flip l n) = loc_len l.
Proof.
  unfold loc_len, parts. destruct l as [p ps]. cbn [flip loc_first loc_rest].
  rewrite <- fmap_cons. generalize (p :: ps). intros qs.
  induction qs as [|q qs IH]; [done|].
  rewrite fmap_cons. cbn [foldr]. rewrite IH. unfold part_len. simpl. lia.
Qed.

(** C1: for a match [(posA, posB, len)] inside both sequences and nodes
    [L], [R] with [L <> R] and [L <> -R] (as the builder calls it),
    [add_edges_from_match] records four distinct edges: (L, R) with
    [locL, locR], (R, L) with [locR, locL], (-L, -R) with the flipped
    locations and (-R, -L) with the flipped pair reversed, where
    locL = [posA, posA+len) and locR = [posB, posB+len); nothing else in the
    graph changes, and on each of the four edges both locations have the
    length of the match. *)
Theorem C1_add_edges_from_match
    (posA posB len L R : Z) (first secnd : Dseqrecord) (G : MultiDiGraph) :
  0 <= posA -> 0 <= posB -> 0 < len ->
  posA + len <= rec_len first -> posB + len <= rec_len secnd ->
  L <> R -> L <> - R ->
  let locL := SimpleLocation posA (posA + len) 1 in
  let locR := SimpleLocation posB (posB + len) 1 in
  let flipL := flip locL (rec_len first) in
  let flipR := flip locR (rec_len secnd) in
  let e1 := (NInt L, NInt R, edge_key_str L R (locL, locR)) in
  let e2 := (NInt R, NInt L, edge_key_str R L (locR, locL)) in
  let e3 := (NInt (- L), NInt (- R), edge_key_str (- L) (- R) (flipL, flipR)) in
  let e4 := (NInt (- R), NInt (- L), edge_key_str (- R) (- L) (flipR, flipL)) in
  exists G',
    add_edges_from_match (posA, posB, len) L R first secnd G = Some G' /\
    NoDup [e1; e2; e3; e4] /\
    edge_locations G' e1 = Some (locL, locR) /\
    edge_locations G' e2 = Some (locR, locL) /\
    edge_locations G' e3 = Some (flipL, flipR) /\
    edge_locations G' e4 = Some (flipR, flipL) /\
    (forall e, has_edge G' e = true <-> has_edge G e = true \/ e ∈ [e1; e2; e3; e4]) /\
    (forall e, e ∉ [e1; e2; e3; e4] -> edge_locations G' e = edge_locations G e) /\
    (Forall (fun e => has_edge G e = false) [e1; e2; e3; e4] ->
     length (g_edges G') = (4 + length (g_edges G))%nat) /\
    Forall (fun e => exists l, edge_locations G' e = Some l /\
                               loc_len l.1 = len /\ loc_len l.2 = len)
           [e1; e2; e3; e4].
Proof.
  intros HA HB Hlen HAn HBn HLR HLR' locL locR flipL flipR e1 e2 e3 e4.
  unfold add_edges_from_match, match_combinations.
  rewrite !shift_location_in_range by lia. cbn [mbind option_bind foldl add_match_edge fst snd].
  fold locL locR flipL flipR. fold e1 e2 e3 e4.
  set (G1 := add_edge (NInt L) (NInt R) _ (Some (locL, locR)) G).
  set (G2 := add_edge (NInt R) (NInt L) _ (Some (locR, locL)) G1).
  set (G3 := add_edge (NInt (- L)) (NInt (- R)) _ (Some (flipL, flipR)) G2).
  set (G4 := add_edge (NInt (- R)) (NInt (- L)) _ (Some (flipR, flipL)) G3).
  assert (H12 : e1 <> e2) by (intros [= ? ?]; lia).
  assert (H13 : e1 <> e3) by (intros [= ? ?]; lia).
  assert (H14 : e1 <> e4) by (intros [= ? ?]; lia).
  assert (H23 : e2 <> e3) by (intros [= ? ?]; lia).
  assert (H24 : e2 <> e4) by (intros [= ? ?]; lia).
  assert (H34 : e3 <> e4) by (intros [= ? ?]; lia).
  assert (Hloc : forall e, edge_locations G4 e =
            if decide (e = e4) then Some (flipR, flipL)
            else if decide (e = e3) then Some (flipL, flipR)
            else if decide (e = e2) then Some (locR, locL)
            else if decide (e = e1) then Some (locL, locR)
            else edge_locations G e).
  { intros e. unfold G4, G3, G2, G1. by rewrite !edge_locations_add_edge. }
  assert (Hhas : forall e, has_edge G4 e =
            if decide (e = e4) then true
            else if decide (e = e3) then true
            else if decide (e = e2) then true
            else if decide (e = e1) then true
            else has_edge G e).
  { intros e. unfold G4, G3, G2, G1. by rewrite !has_edge_add_edge. }
  assert (L1 : edge_locations G4 e1 = Some (locL, locR)).
  { rewrite Hloc. by rewrite !decide_False, decide_True by done. }
  assert (L2 : edge_locations G4 e2 = Some (locR, locL)).
  { rewrite Hloc. by rewrite !decide_False, decide_True by done. }
  assert (L3 : edge_locations G4 e3 = Some (flipL, flipR)).
  { rewrite Hloc. by rewrite !decide_False, decide_True by done. }
  assert (L4 : edge_locations G4 e4 = Some (flipR, flipL)).
  { rewrite Hloc. by rewrite decide_True by done. }
  assert (HlenL : loc_len locL = len) by (unfold locL; rewrite loc_len_SimpleLocation; lia).
  assert (HlenR : loc_len locR = len) by (unfold locR; rewrite loc_len_SimpleLocation; lia).
  exists G4. split; [done|]. split.
  { repeat constructor; rewrite ?elem_of_cons, ?elem_of_nil; naive_solver. }
  do 4 (split; [done|]). split; [|split; [|split]].
  - intros e. rewrite Hhas. rewrite !elem_of_cons, elem_of_nil.
    repeat case_decide; naive_solver.
  - intros e Hn. rewrite !elem_of_cons, elem_of_nil in Hn. rewrite Hloc.
    repeat case_decide; naive_solver.
  - intros Hfresh.
    apply Forall_cons in Hfresh as [F1 Hfresh]. apply Forall_cons in Hfresh as [F2 Hfresh].
    apply Forall_cons in Hfresh as [F3 Hfresh]. apply Forall_cons in Hfresh as [F4 _].
    unfold G4. rewrite length_edges_add_edge. fold e4.
    assert (has_edge G3 e4 = false) as ->.
    { unfold G3, G2, G1. rewrite !has_edge_add_edge. by rewrite !decide_False by done. }
    unfold G3. rewrite length_edges_add_edge. fold e3.
    assert (has_edge G2 e3 = false) as ->.
    { unfold G2, G1. rewrite !has_edge_add_edge. by rewrite !decide_False by done. }
    unfold G2. rewrite length_edges_add_edge. fold e2.
    assert (has_edge G1 e2 = false) as ->.
    { unfold G1. rewrite !has_edge_add_edge. by rewrite !decide_False by done. }
    unfold G1. rewrite length_edges_add_edge. fold e1. by rewrite F1.
  - repeat constructor; eexists; (split; [eassumption|]); simpl;
      unfold flipL, flipR; rewrite ?loc_len_flip; done.
Qed.

Lemma C1_witness :
  let first := Reference.dseqrecord "AacgatCAtgctcc" in
  let secnd := Reference.dseqrecord "TtgctccTAAattctgc" in
  exists G',
    add_edges_from_match (8, 1, 6) 1 2 first secnd empty_graph = Some G' /\
    edge_locations G' (NInt (-1), NInt (-2), KStr "-1[0:6](-):-2[10:16](-)")
    = Some (SimpleLocation 0 6 (-1), SimpleLocation 10 16 (-1)) /\
    length (g_edges G') = 4%nat.
Proof.
  intros first secnd.
  destruct (C1_add_edges_from_match 8 1 6 1 2 first secnd empty_graph)
    as (G' & Hrun & _ & _ & _ & H3 & _ & _ & _ & Hcount & _);
    [vm_compute; congruence ..| lia | lia |].
  exists G'. split; [exact Hrun|]. split; [exact H3|].
  apply Hcount. repeat constructor.
Defined.

(** ** Circular assemblies *)

Lemma argmin_from_spec (keys pre : list Z) (b : nat) (m : Z) :
  pre !! b = Some m -> Forall (fun x => m <= x) pre ->
  exists v, (pre ++ keys) !! argmin_from keys (length pre) b m = Some v /\
            Forall (fun x => v <= x) (pre ++ keys).
Proof.
  revert pre b m. induction keys as [|k keys IH]; intros pre b m Hb Hmin; simpl.
  - rewrite app_nil_r. by exists m.
  - replace (S (length pre)) with (length (pre ++ [k])) by (rewrite length_app; simpl; lia).
    rewrite (cons_middle k pre keys), app_assoc.
    case_decide as Hk.
    + apply IH.
      * rewrite lookup_app_r by lia. by rewrite Nat.sub_diag.
      * apply Forall_app. split; [|by repeat constructor].
        eapply Forall_impl; [exact Hmin|]. intros x Hx; simpl in *; lia.
    + apply IH.
      * by apply lookup_app_l_Some.
      * apply Forall_app. split; [done|]. repeat constructor. lia.
Qed.

Lemma argmin_spec (keys : list Z) (i : nat) :
  argmin keys = Some i ->
  exists v, keys !! i = Some v /\ Forall (fun x => v <= x) keys.
Proof.
  destruct keys as [|k keys]; simpl; [done|]. intros [= <-].
  apply (argmin_from_spec keys [k] 0 k); [done|]. by repeat constructor.
Qed.

Lemma argmin_from_stable (keys : list Z) (i b : nat) (m : Z) :
  Forall (fun x => m <= x) keys -> argmin_from keys i b m = b.
Proof.
  revert i. induction keys as [|k keys IH]; intros i Hmin; simpl; [done|].
  apply Forall_cons in Hmin as [Hk Hmin]. rewrite decide_False by lia. by apply IH.
Qed.

(** [lst] rotated so that a node of least absolute value comes first. *)
Lemma circular_permutation_min_abs_spec (lst r : list node) :
  circular_permutation_min_abs lst = Some r ->
  exists (i : nat) n0 v,
    lst !! i = Some n0 /\ node_abs n0 = Some v /\
    r = drop i lst ++ take i lst /\
    Forall (fun n => exists w, node_abs n = Some w /\ v <= w) lst.
Proof.
  unfold circular_permutation_min_abs.
  destruct (mapM node_abs lst) as [ks|] eqn:Hks; simpl; [|done].
  destruct (argmin ks) as [i|] eqn:Hi; simpl; [|done]. intros [= <-].
  apply mapM_Some in Hks. apply argmin_spec in Hi as (v & Hv & Hmin).
  destruct (Forall2_lookup_r _ _ _ _ _ Hks Hv) as (n0 & Hn0 & Habs).
  exists i, n0, v. repeat split; [done..| |].
  - rewrite py_slice_from, py_slice_upto by lia. by rewrite Nat2Z.id.
  - clear -Hks Hmin. induction Hks as [|n k lst ks Hn _ IH]; [constructor|].
    apply Forall_cons in Hmin as [Hk Hmin]. constructor; [by exists k|by apply IH].
Qed.

(** A list that starts with a node of least absolute value is its own
    canonical rotation. *)
Lemma circular_permutation_min_abs_fixed (n0 : node) (r : list node) (v : Z) :
  node_abs n0 = Some v ->
  Forall (fun n => exists w, node_abs n = Some w /\ v <= w) r ->
  circular_permutation_min_abs (n0 :: r) = Some (n0 :: r).
Proof.
  intros Hn0 Hr. unfold circular_permutation_min_abs.
  assert (exists ws, mapM node_abs r = Some ws /\ Forall (fun x => v <= x) ws) as (ws & Hws & Hmin).
  { induction Hr as [|n r (w & Hw & Hle) _ (ws & Hws & Hmin)].
    - by exists [].
    - exists (w :: ws). split; [|by constructor].
      apply mapM_Some. constructor; [done|]. by apply mapM_Some. }
  assert (mapM node_abs (n0 :: r) = Some (v :: ws)) as ->.
  { apply mapM_Some. constructor; [done|]. by apply mapM_Some. }
  simpl. rewrite (argmin_from_stable ws 1 0 v Hmin). simpl.
  rewrite py_slice_from, py_slice_upto by lia. simpl. by rewrite app_nil_r.
Qed.

Lemma elem_of_product {A} (ls : list (list A)) (xs : list A) :
  xs ∈ product ls <-> Forall2 (fun x l => x ∈ l) xs ls.
Proof.
  revert xs. induction ls as [|l ls IH]; intros xs; simpl.
  - rewrite list_elem_of_singleton. split; [intros ->; constructor|by intros ->%Forall2_nil_inv_r].
  - rewrite list_elem_of_bind. split.
    + intros (x & Hin & Hx). apply list_elem_of_bind in Hin as (rest & Hin & Hrest).
      apply list_elem_of_singleton in Hin as ->. constructor; [done|]. by apply IH.
    + intros Hall. apply Forall2_cons_inv_r in Hall as (x & rest & Hx & Hrest & ->).
      exists x. split; [|done]. apply list_elem_of_bind. exists rest.
      split; [by apply list_elem_of_singleton|]. by apply IH.
Qed.

(** An assembly made from a cycle follows the cycle edge by edge. *)
Lemma cycle2circular_on_elem (G : MultiDiGraph) (cycle : list node)
    (assemblies : list assembly) (a : assembly) :
  cycle2circular_on G cycle = Some assemblies -> a ∈ assemblies ->
  Forall2 (fun e (uv : node * node) => e_src e = uv.1 /\ e_tgt e = uv.2) a (zip_cyclic cycle).
Proof.
  unfold cycle2circular_on.
  destruct (mapM _ (zip_cyclic cycle)) as [combine|] eqn:Hc; simpl; [|done].
  intros [= <-] Ha. apply elem_of_product in Ha. apply mapM_Some in Hc.
  revert a Ha. induction Hc as [|uv es uvs combine Hes _ IH]; intros a Ha.
  - apply Forall2_nil_inv_r in Ha as ->. constructor.
  - apply Forall2_cons_inv_r in Ha as (e & a' & He & Ha' & ->).
    constructor; [|by apply IH].
    destruct (adj G uv.1 uv.2) as [ks|]; simpl in Hes; [|done].
    injection Hes as <-. apply list_elem_of_fmap in He as (k & -> & _). done.
Qed.

Lemma cycle_assembly_nodes (cycle : list node) (a : assembly) :
  Forall2 (fun e (uv : node * node) => e_src e = uv.1 /\ e_tgt e = uv.2) a (zip_cyclic cycle) ->
  e_src <$> a = cycle /\
  e_tgt <$> a = py_slice (Some 1) None cycle ++ py_slice None (Some 1) cycle.
Proof.
  intros Hall.
  assert (e_src <$> a = (zip_cyclic cycle).*1 /\ e_tgt <$> a = (zip_cyclic cycle).*2) as [-> ->].
  { induction Hall as [|e uv a uvs [H1 H2] _ [IH1 IH2]]; [done|].
    rewrite !fmap_cons. by rewrite H1, H2, IH1, IH2. }
  unfold zip_cyclic. destruct cycle as [|n0 c]; [done|].
  rewrite py_slice_tail, py_slice_head.
  split.
  - apply fst_zip. rewrite length_app; simpl; lia.
  - apply snd_zip. rewrite length_app; simpl; lia.
Qed.

Lemma last_cons_py_last {A} (x : A) (l : list A) : last (x :: l) = Some (py_last x l).
Proof. rewrite last_cons. unfold py_last. by destruct (last l). Qed.

Lemma Forall2_elem_of_r {A B} (P : A -> B -> Prop) (l : list A) (k : list B) (y : B) :
  Forall2 P l k -> y ∈ k -> exists x, x ∈ l /\ P x y.
Proof.
  intros Hall (i & Hi)%list_elem_of_lookup.
  destruct (Forall2_lookup_r _ _ _ _ _ Hall Hi) as (x & Hx & HP).
  exists x. split; [by eapply list_elem_of_lookup_2|done].
Qed.

(** The node cycle behind a returned circular assembly: it starts with a
    positive node of least absolute value, and the assembly follows it. *)
Lemma circular_result_cycle (simple_cycles : MultiDiGraph -> list (list node))
    (self : Assembly) (s s' : store) (l : list assembly) (a : assembly) :
  get_circular_assemblies simple_cycles self s = (Some l, s') -> a ∈ l ->
  exists (z : Z) (r : list node),
    0 < z /\
    Forall (fun n => exists w, node_abs n = Some w /\ Z.abs z <= w) (NInt z :: r) /\
    e_src <$> a = NInt z :: r /\
    e_tgt <$> a = r ++ [NInt z].
Proof.
  intros Hrun Ha.
  apply get_circular_assemblies_run in Hrun
    as (G & sorted_cycles & kept & assemblies & _ & _ & Hsorted & Hkept & Hasm & Hl).
  apply filter_opt_Some in Hl as [_ Hl]. apply Hl in Ha as [Ha _].
  apply list_elem_of_In, in_concat in Ha as (asms & Hasms%list_elem_of_In & Ha%list_elem_of_In).
  apply mapM_Some in Hasm.
  destruct (Forall2_elem_of_r _ _ _ _ Hasm Hasms) as (cyc & Hcyc & Hon).
  apply filter_opt_Some in Hkept as [_ Hkept]. apply Hkept in Hcyc as [Hcyc Hpos].
  apply mapM_Some in Hsorted.
  destruct (Forall2_elem_of_r _ _ _ _ Hsorted Hcyc) as (c0 & _ & Hperm).
  apply circular_permutation_min_abs_spec in Hperm as (i & n0 & v & Hi & Hv & -> & Hmin).
  rewrite (drop_S _ _ _ Hi) in *. simpl in Hpos.
  destruct n0 as [z|]; [|done]. simpl in Hpos, Hv.
  injection Hpos as Hz%bool_decide_eq_true. injection Hv as <-.
  exists z, (drop (S i) c0 ++ take i c0). split; [lia|]. split.
  - apply (Forall_cons _ (NInt z)). split.
    + eapply Forall_forall in Hmin; [exact Hmin|]. by eapply list_elem_of_lookup_2.
    + apply Forall_app. split; [by apply Forall_drop|by apply Forall_take].
  - pose proof (cycle2circular_on_elem _ _ _ _ Hon Ha) as Hall.
    apply cycle_assembly_nodes in Hall as [Hsrc Htgt].
    rewrite <- app_comm_cons in Hsrc, Htgt.
    split; [done|]. rewrite Htgt. by rewrite py_slice_tail, py_slice_head.
Qed.







(** ** Frame rules: what a computation leaves untouched *)

Lemma store_prefix_refl (s : store) : store_prefix s s.
Proof. by split. Qed.

Lemma store_prefix_lookup_graph (s0 s : store) (g : gref) (G : MultiDiGraph) :
  store_prefix s0 s -> st_graphs s0 !! g = Some G -> st_graphs s !! g = Some G.
Proof. intros [Hg _] Hl. by eapply prefix_lookup_Some. Qed.

Lemma store_prefix_lookup_feature (s0 s : store) (r : fref) (f : SeqFeature) :
  store_prefix s0 s -> st_feats s0 !! r = Some f -> st_feats s !! r = Some f.
Proof. intros [_ Hf] Hl. by eapply prefix_lookup_Some. Qed.

Lemma prefix_of_snoc {A} (l0 l : list A) (x : A) : l0 `prefix_of` l -> l0 `prefix_of` l ++ [x].
Proof. intros [k ->]. exists (k ++ [x]). by rewrite app_assoc. Qed.

Lemma prefix_of_insert_fresh {A} (l0 l : list A) (i : nat) (x : A) :
  l0 `prefix_of` l -> (length l0 <= i)%nat -> l0 `prefix_of` <[i:=x]> l.
Proof.
  intros [k ->] Hi. exists (<[i - length l0 := x]> k)%nat.
  by rewrite insert_app_r_alt.
Qed.

Section FrameRules.
Context (s0 : store).

Lemma frames_ret {A} (a : A) (Q : A -> Prop) : Q a -> frames s0 (mret a) Q.
Proof. intros HQ s Hs. split; [done|]. by intros ? [= <-]. Qed.

Lemma frames_liftO {A} (o : option A) (Q : A -> Prop) :
  (forall a, o = Some a -> Q a) -> frames s0 (liftO o) Q.
Proof. intros HQ s Hs. by split. Qed.

Lemma frames_weaken {A} (c : M A) (Q R : A -> Prop) :
  frames s0 c Q -> (forall a, Q a -> R a) -> frames s0 c R.
Proof. intros Hc HQR s Hs. destruct (Hc s Hs) as [H1 H2]. split; [done|]. auto. Qed.

Lemma frames_bind {A B} (c : M A) (f : A -> M B) (Q : A -> Prop) (R : B -> Prop) :
  frames s0 c Q -> (forall a, Q a -> frames s0 (f a) R) -> frames s0 (c ≫= f) R.
Proof.
  intros Hc Hf s Hs. rewrite bind_run. destruct (Hc s Hs) as [H1 H2].
  destruct (c s) as [[a|] s1]; simpl in *.
  - apply (Hf a); auto.
  - by split.
Qed.

Lemma frames_get_graph (g : gref) :
  frames s0 (get_graph g)
    (fun G => forall G0, st_graphs s0 !! g = Some G0 -> G = G0).
Proof.
  intros s Hs. split; [done|]. simpl. intros G HG G0 HG0.
  rewrite (store_prefix_lookup_graph _ _ _ _ Hs HG0) in HG. congruence.
Qed.

Lemma frames_new_graph (G : MultiDiGraph) : frames s0 (new_graph G) (fresh_graph s0).
Proof.
  intros s [Hg Hf]. simpl. split.
  - split; [by apply prefix_of_snoc|done].
  - intros g [= <-]. by apply prefix_length.
Qed.

Lemma frames_update_graph (g : gref) (f : MultiDiGraph -> MultiDiGraph) :
  fresh_graph s0 g -> frames s0 (update_graph g f) (fun _ => True).
Proof.
  intros Hfresh s [Hg Hf]. unfold update_graph.
  destruct (st_graphs s !! g) as [G|]; simpl; [|by split].
  split; [|done]. split; [by apply prefix_of_insert_fresh|done].
Qed.

Lemma frames_get_feature (r : fref) :
  frames s0 (get_feature r)
    (fun f => forall f0, st_feats s0 !! r = Some f0 -> f = f0).
Proof.
  intros s Hs. split; [done|]. simpl. intros f Hf f0 Hf0.
  rewrite (store_prefix_lookup_feature _ _ _ _ Hs Hf0) in Hf. congruence.
Qed.

Lemma frames_new_feature (f : SeqFeature) : frames s0 (new_feature f) (fresh_feature s0).
Proof.
  intros s [Hg Hf]. simpl. split.
  - split; [done|by apply prefix_of_snoc].
  - intros r [= <-]. by apply prefix_length.
Qed.

Lemma frames_set_location (r : fref) (loc : location) :
  fresh_feature s0 r -> frames s0 (set_location r loc) (fun _ => True).
Proof.
  intros Hfresh s [Hg Hf]. unfold set_location.
  destruct (st_feats s !! r) as [f|]; simpl; [|by split].
  split; [|done]. split; [done|by apply prefix_of_insert_fresh].
Qed.

Lemma frames_mapM {A B} (f : A -> M B) (l : list A) (Q : B -> Prop) :
  (forall x, x ∈ l -> frames s0 (f x) Q) -> frames s0 (mapM f l) (Forall Q).
Proof.
  induction l as [|x l IH]; intros Hf; simpl.
  - by apply frames_ret.
  - eapply frames_bind; [apply Hf; by left|]. intros y Hy.
    eapply frames_bind; [apply IH; intros; apply Hf; by right|]. intros ys Hys.
    apply frames_ret. by constructor.
Qed.

Lemma frames_for_each {A} (l : list A) (body : A -> M unit) :
  (forall x, x ∈ l -> frames s0 (body x) (fun _ => True)) ->
  frames s0 (for_each l body) (fun _ => True).
Proof.
  induction l as [|x l IH]; intros Hb; simpl.
  - by apply frames_ret.
  - eapply frames_bind; [apply Hb; by left|]. intros _ _.
    apply IH. intros; apply Hb; by right.
Qed.

Lemma frames_filterM {A} (p : A -> M bool) (l : list A) :
  (forall x, frames s0 (p x) (fun _ => True)) ->
  frames s0 (filterM p l) (fun _ => True).
Proof.
  intros Hp. induction l as [|x l IH]; simpl.
  - by apply frames_ret.
  - eapply frames_bind; [apply Hp|]. intros b _.
    eapply frames_bind; [apply IH|]. intros r _. by apply frames_ret.
Qed.

Lemma frames_foldlM {A B} (f : A -> B -> M A) (a : A) (l : list B) (I : A -> Prop) :
  I a -> (forall a x, I a -> frames s0 (f a x) I) -> frames s0 (foldlM f a l) I.
Proof.
  intros Ha Hf. revert a Ha. induction l as [|x l IH]; intros a Ha; simpl.
  - by apply frames_ret.
  - eapply frames_bind; [by apply Hf|]. intros a' Ha'. by apply IH.
Qed.

Lemma frames_validate_assembly (self : Assembly) (a : assembly) :
  frames s0 (validate_assembly self a) (fun _ => True).
Proof.
  unfold validate_assembly. eapply frames_bind; [apply frames_get_graph|].
  intros G _. by apply frames_liftO.
Qed.

Lemma frames_add_anchors (self : Assembly) (g : gref) :
  fresh_graph s0 g -> frames s0 (add_anchors self g) (fun _ => True).
Proof.
  intros Hg. unfold add_anchors.
  eapply frames_bind; [by apply frames_update_graph|]. intros _ _.
  eapply frames_bind; [by apply frames_update_graph|]. intros _ _.
  destruct (use_fragment_order self).
  - do 3 (eapply frames_bind; [by apply frames_update_graph|]; intros _ _).
    by apply frames_update_graph.
  - eapply frames_bind; [apply frames_get_graph|]. intros Gc _.
    apply frames_for_each. intros node _.
    eapply (frames_bind _ _ (fun _ => True)).
    { simpl. by apply frames_liftO. }
    intros pos _.
    eapply (frames_bind _ _ (fun _ => True)).
    { destruct pos; [by apply frames_update_graph|by apply frames_ret]. }
    intros _ _. by apply frames_update_graph.
Qed.

Lemma frames_get_linear_assemblies
    (all_simple_edge_paths : MultiDiGraph -> node -> node -> list (list edge))
    (self : Assembly) :
  frames s0 (get_linear_assemblies all_simple_edge_paths self) (fun _ => True).
Proof.
  unfold get_linear_assemblies.
  eapply frames_bind; [apply frames_get_graph|]. intros G0 _.
  eapply frames_bind; [apply frames_new_graph|]. intros g Hg.
  eapply frames_bind; [by apply frames_add_anchors|]. intros _ _.
  eapply frames_bind; [apply frames_get_graph|]. intros Gc _.
  eapply frames_bind; [apply frames_filterM; intros; apply frames_validate_assembly|].
  intros cands _. by apply frames_ret.
Qed.

Lemma frames_get_circular_assemblies (simple_cycles : MultiDiGraph -> list (list node))
    (self : Assembly) :
  frames s0 (get_circular_assemblies simple_cycles self) (fun _ => True).
Proof.
  unfold get_circular_assemblies.
  eapply frames_bind; [apply frames_get_graph|]. intros G _.
  eapply (frames_bind _ _ (fun _ => True)); [by apply frames_liftO|]. intros sorted_cycles _.
  eapply frames_bind.
  { apply frames_filterM. intros x. by apply frames_liftO. }
  intros kept _.
  eapply (frames_bind _ _ (fun _ => True)).
  { eapply frames_weaken.
    - apply (frames_mapM _ _ (fun _ => True)). intros cyc _.
      unfold cycle2circular_assemblies.
      eapply frames_bind; [apply frames_get_graph|]. intros G' _. by apply frames_liftO.
    - done. }
  intros assemblies _.
  apply frames_filterM. intros; apply frames_validate_assembly.
Qed.

Lemma frames_feature_shift (offset : Z) (r : fref) :
  frames s0 (feature_shift offset r) (fresh_feature s0).
Proof.
  unfold feature_shift. eapply frames_bind; [apply frames_get_feature|].
  intros f _. apply frames_new_feature.
Qed.

Lemma frames_record_slice (r : Dseqrecord) (start stop : option Z) :
  frames s0 (record_slice r start stop) (fresh_record s0).
Proof.
  unfold record_slice.
  eapply (frames_bind _ _ (fun _ => True)).
  { eapply frames_weaken.
    - apply (frames_mapM _ _ (fun _ => True)). intros x _.
      eapply frames_bind; [apply frames_get_feature|]. intros f _. by apply frames_ret.
    - done. }
  intros fs _.
  eapply frames_bind.
  { apply (frames_mapM _ _ (fresh_feature s0)). intros xf _. apply frames_feature_shift. }
  intros fs' Hfs'. by apply frames_ret.
Qed.

Lemma frames_get_assembly_subfragments (self : Assembly) (reprs : list subfragment_repr) :
  frames s0 (get_assembly_subfragments self reprs) (Forall (fresh_record s0)).
Proof.
  unfold get_assembly_subfragments. apply frames_mapM.
  intros [[node start_location] end_location] _. unfold get_subfragment.
  eapply frames_bind; [apply frames_get_graph|]. intros G _.
  eapply (frames_bind _ _ (fun _ => True)); [by apply frames_liftO|]. intros r _.
  apply frames_record_slice.
Qed.

Lemma frames_join_fragment (out : Dseqrecord) (fo : Dseqrecord * Z) :
  fresh_record s0 out -> frames s0 (join_fragment out fo) (fresh_record s0).
Proof.
  intros Hout. destruct fo as [fragment overlap]. unfold join_fragment.
  eapply frames_bind.
  { apply (frames_mapM _ _ (fresh_feature s0)). intros x _. apply frames_feature_shift. }
  intros new_features Hnew. apply frames_ret.
  unfold fresh_record. simpl. by apply Forall_app.
Qed.

Lemma frames_wrap_feature (len_out : Z) (r : fref) :
  fresh_feature s0 r -> frames s0 (wrap_feature len_out r) (fun _ => True).
Proof.
  intros Hr. unfold wrap_feature.
  eapply frames_bind; [apply frames_get_feature|]. intros f _.
  case_decide; [|by apply frames_ret].
  eapply (frames_bind _ _ (fun _ => True)); [by apply frames_liftO|].
  intros loc _. by apply frames_set_location.
Qed.

(** [assemble] writes to new feature objects only, and its result is made
    of new feature objects. *)
Lemma frames_assemble (self : Assembly) (a : assembly) :
  frames s0 (assemble self a) (fresh_record s0).
Proof.
  unfold assemble.
  eapply (frames_bind _ _ (fun _ => True)).
  { unfold edge_representation2subfragment_representation.
    eapply frames_bind; [apply frames_get_graph|]. intros G _. by apply frames_liftO. }
  intros reprs _.
  eapply frames_bind; [apply frames_get_graph|]. intros G _.
  eapply (frames_bind _ _ (fun _ => True)); [by apply frames_liftO|]. intros overlaps _.
  eapply frames_bind; [apply frames_get_assembly_subfragments|]. intros subfragments Hsub.
  eapply (frames_bind _ _ (fresh_record s0)).
  { apply frames_liftO. intros r Hr. eapply Forall_forall in Hsub; [exact Hsub|].
    by apply head_Some_elem_of. }
  intros first_sub Hfirst.
  eapply frames_bind.
  { apply (frames_foldlM _ _ _ (fresh_record s0)); [done|].
    intros out fo Hout. by apply frames_join_fragment. }
  intros out Hout.
  eapply (frames_bind _ _ (fun _ => True)); [by apply frames_liftO|]. intros first_repr _.
  destruct (first_repr.1.2); [|by apply frames_ret].
  eapply (frames_bind _ _ (fun _ => True)); [by apply frames_liftO|]. intros overlap _.
  eapply frames_bind.
  { apply frames_for_each. intros r Hr. apply frames_wrap_feature.
    simpl in Hr. eapply Forall_forall in Hout; [exact Hout|exact Hr]. }
  intros _ _. by apply frames_ret.
Qed.
End FrameRules.

(** C7: whatever sequence of [get_linear_assemblies],
    [get_circular_assemblies] and [assemble] calls is run (also when a call
    raises), the graph stored in the Assembly and every feature object that
    existed before - those of the input fragments included - are unchanged;
    the linear search writes to its copy only, and a record returned by
    [assemble] consists of feature objects created by that call. *)
Theorem C7_calls_leave_graph_and_fragments_unchanged
    (all_simple_edge_paths : MultiDiGraph -> node -> node -> list (list edge))
    (simple_cycles : MultiDiGraph -> list (list node))
    (self : Assembly) (calls : list call) (s : store) :
  let s' := (run_calls all_simple_edge_paths simple_cycles self calls s).2 in
  (forall G, st_graphs s !! self_G self = Some G -> st_graphs s' !! self_G self = Some G) /\
  (forall r f, st_feats s !! r = Some f -> st_feats s' !! r = Some f) /\
  (forall a out, (assemble self a s).1 = Some out ->
                 Forall (fun r => st_feats s !! r = None) (features out)).
Proof.
  intros s'.
  assert (Hframe : frames s (run_calls all_simple_edge_paths simple_cycles self calls)
                     (fun _ => True)).
  { unfold run_calls. apply frames_for_each. intros [| |a] _; simpl.
    - eapply frames_bind; [apply frames_get_linear_assemblies|]. intros; by apply frames_ret.
    - eapply frames_bind; [apply frames_get_circular_assemblies|]. intros; by apply frames_ret.
    - eapply frames_bind; [apply frames_assemble|]. intros; by apply frames_ret. }
  destruct (Hframe s (store_prefix_refl s)) as [Hpre _]. fold s' in Hpre.
  split; [|split].
  - intros G HG. by eapply store_prefix_lookup_graph.
  - intros r f Hf. by eapply store_prefix_lookup_feature.
  - intros a out Hout.
    destruct (frames_assemble s self a s (store_prefix_refl s)) as [_ Hfresh].
    eapply Forall_impl; [exact (Hfresh out Hout)|].
    intros r Hr. by apply lookup_ge_None_2.
Qed.

(** ** Running assemble *)

Lemma extends_refl (s : store) : extends s s.
Proof. exists []. destruct s. simpl. by rewrite app_nil_r. Qed.

Lemma extends_trans (s1 s2 s3 : store) : extends s1 s2 -> extends s2 s3 -> extends s1 s3.
Proof.
  intros [x1 ->] [x2 ->]. exists (x1 ++ x2). simpl. by rewrite app_assoc.
Qed.

Lemma extends_graphs (s s' : store) : extends s s' -> st_graphs s' = st_graphs s.
Proof. by intros [x ->]. Qed.

Lemma extends_length (s s' : store) :
  extends s s' -> (length (st_feats s) <= length (st_feats s'))%nat.
Proof. intros [x ->]. simpl. rewrite length_app. lia. Qed.

Lemma valid_record_extends (s s' : store) (r : Dseqrecord) :
  extends s s' -> valid_record s r -> valid_record s' r.
Proof.
  intros Hext%extends_length Hr. eapply Forall_impl; [exact Hr|]. intros x Hx. simpl in *. lia.
Qed.

Lemma records_valid_extends (G : MultiDiGraph) (s s' : store) :
  extends s s' -> records_valid G s -> records_valid G s'.
Proof. intros Hext Hv n r Hn. eapply valid_record_extends; [done|]. by eapply Hv. Qed.

Lemma get_features_run (xs : list fref) (s : store) :
  Forall (fun x => (x < length (st_feats s))%nat) xs ->
  exists fs, mapM (fun x => f ← get_feature x; mret (x, f)) xs s = (Some fs, s) /\
             fs.*1 = xs.
Proof.
  intros Hv.
  rewrite (mapM_pure _ (fun x => (fun f => (x, f)) <$> st_feats s !! x)); last first.
  { intros x. rewrite bind_run. unfold get_feature. by destruct (st_feats s !! x). }
  destruct (mapM (fun x => (fun f => (x, f)) <$> st_feats s !! x) xs) as [fs|] eqn:Hfs.
  - exists fs. split; [done|]. apply mapM_Some in Hfs.
    induction Hfs as [|x y xs fs Hxy _ IH]; [done|].
    apply Forall_cons in Hv as [_ Hv]. rewrite fmap_cons, IH by done. f_equal.
    destruct (st_feats s !! x); simpl in Hxy; [|done]. by injection Hxy as <-.
  - exfalso. apply mapM_None in Hfs. apply Exists_exists in Hfs as (x & Hx & Hnone).
    eapply Forall_forall in Hv; [|exact Hx].
    apply fmap_None, lookup_ge_None in Hnone. lia.
Qed.

Lemma feature_shift_run (offset : Z) (x : fref) (s : store) :
  (x < length (st_feats s))%nat ->
  exists f, feature_shift offset x s
            = (Some (length (st_feats s)), Store (st_graphs s) (st_feats s ++ [f])).
Proof.
  intros Hx. destruct (lookup_lt_is_Some_2 _ _ Hx) as [f Hf].
  exists (Feature (loc_shift (f_location f) offset) (f_type f)).
  unfold feature_shift. rewrite bind_run. unfold get_feature. by rewrite Hf.
Qed.

Lemma mapM_feature_shift_run {A} (offset : Z) (g : A -> fref) (zs : list A) (s : store) :
  Forall (fun z => (g z < length (st_feats s))%nat) zs ->
  exists ys s', mapM (fun z => feature_shift offset (g z)) zs s = (Some ys, s') /\
                extends s s' /\
                Forall (fun y => (y < length (st_feats s'))%nat) ys.
Proof.
  revert s. induction zs as [|z zs IH]; intros s Hv; simpl.
  - exists [], s. split; [done|]. split; [apply extends_refl|constructor].
  - apply Forall_cons in Hv as [Hz Hv]. rewrite bind_run.
    destruct (feature_shift_run offset (g z) s Hz) as [f ->].
    set (s1 := Store (st_graphs s) (st_feats s ++ [f])).
    assert (Hext1 : extends s s1) by (by exists [f]).
    destruct (IH s1) as (ys & s' & Hrun & Hext & Hys).
    { eapply Forall_impl; [exact Hv|]. intros y Hy. simpl in *. rewrite length_app. lia. }
    rewrite bind_run, Hrun. exists (length (st_feats s) :: ys), s'.
    split; [done|]. split; [by eapply extends_trans|].
    constructor; [|done].
    apply extends_length in Hext. simpl in Hext. rewrite length_app in Hext. simpl in Hext. lia.
Qed.

Lemma record_slice_run (r : Dseqrecord) (start stop : option Z) (s : store) :
  valid_record s r ->
  exists r' s', record_slice r start stop s = (Some r', s') /\
                extends s s' /\ valid_record s' r' /\
                seq r' = py_slice start stop (seq r).
Proof.
  intros Hv. unfold record_slice. rewrite bind_run.
  destruct (get_features_run (features r) s Hv) as (fs & -> & Hfs).
  rewrite bind_run.
  match goal with |- context [mapM _ ?k s] => set (kept := k) end.
  destruct (mapM_feature_shift_run
              (- py_index (rec_len r) (default 0 start))
              (fun xf : fref * SeqFeature => xf.1) kept s)
    as (ys & s' & Hrun & Hext & Hys).
  { apply Forall_forall. intros xf Hin. unfold kept in Hin.
    apply list_elem_of_filter in Hin as [_ Hin].
    eapply Forall_forall in Hv; [exact Hv|]. rewrite <- Hfs.
    apply list_elem_of_fmap. by exists xf. }
  rewrite Hrun. by exists (Record_ (py_slice start stop (seq r)) ys false), s'.
Qed.

Lemma mapM_run {A B} (f : A -> M B) (P : A -> B -> Prop) (V : B -> store -> Prop)
    (I : store -> Prop) (l : list A) (s : store) :
  (forall x s1, x ∈ l -> I s1 ->
     exists y s2, f x s1 = (Some y, s2) /\ extends s1 s2 /\ P x y /\ V y s2) ->
  (forall y s1 s2, extends s1 s2 -> V y s1 -> V y s2) ->
  (forall s1 s2, extends s1 s2 -> I s1 -> I s2) ->
  I s ->
  exists ys s', mapM f l s = (Some ys, s') /\ extends s s' /\ I s' /\
                Forall2 P l ys /\ Forall (fun y => V y s') ys.
Proof.
  intros Hf HV HI. revert s. induction l as [|x l IH]; intros s Hs; simpl.
  - exists [], s. split; [done|]. split; [apply extends_refl|]. by repeat split.
  - destruct (Hf x s) as (y & s1 & Hrun & Hext1 & HP & HVy); [by left|done|].
    destruct IH with (s := s1) as (ys & s' & Hrest & Hext & HIs' & HPs & HVs).
    { intros z s2 Hz. apply Hf. by right. }
    { by eapply HI. }
    rewrite bind_run, Hrun, bind_run, Hrest.
    exists (y :: ys), s'. split; [done|]. split; [by eapply extends_trans|].
    split; [done|]. split; [by constructor|]. constructor; [by eapply HV|done].
Qed.

Lemma foldlM_run {A B} (f : A -> B -> M A) (g : A -> B -> A -> Prop)
    (V : A -> store -> Prop) (W : B -> store -> Prop) (l : list B) (a : A) (s : store) :
  (forall a x s1, V a s1 -> W x s1 ->
     exists a' s2, f a x s1 = (Some a', s2) /\ extends s1 s2 /\ g a x a' /\ V a' s2) ->
  (forall x s1 s2, extends s1 s2 -> W x s1 -> W x s2) ->
  V a s -> Forall (fun x => W x s) l ->
  exists a' s', foldlM f a l s = (Some a', s') /\ extends s s' /\ V a' s' /\
                (fix chain (a : A) (l : list B) : Prop :=
                   match l with
                   | [] => a' = a
                   | x :: l' => exists a1, g a x a1 /\ chain a1 l'
                   end) a l.
Proof.
  intros Hf HW. revert a s. induction l as [|x l IH]; intros a s Ha Hl; simpl.
  - exists a, s. split; [done|]. split; [apply extends_refl|]. by split.
  - apply Forall_cons in Hl as [Hx Hl].
    destruct (Hf a x s Ha Hx) as (a1 & s1 & Hrun & Hext1 & Hg & Ha1).
    destruct (IH a1 s1 Ha1) as (a' & s' & Hrest & Hext & Ha' & Hchain).
    { eapply Forall_impl; [exact Hl|]. intros y Hy. by eapply HW. }
    rewrite bind_run, Hrun, Hrest. exists a', s'.
    split; [done|]. split; [by eapply extends_trans|]. split; [done|]. by exists a1.
Qed.

Lemma Forall2_elem_of_l {A B} (P : A -> B -> Prop) (l : list A) (k : list B) (x : A) :
  Forall2 P l k -> x ∈ l -> exists y, y ∈ k /\ P x y.
Proof.
  intros Hall (i & Hi)%list_elem_of_lookup.
  destruct (Forall2_lookup_l _ _ _ _ _ Hall Hi) as (y & Hy & HP).
  exists y. split; [by eapply list_elem_of_lookup_2|done].
Qed.

Lemma get_subfragment_run (self : Assembly) (G : MultiDiGraph) (r : subfragment_repr)
    (sq : list ascii) (s : store) :
  st_graphs s !! self_G self = Some G ->
  records_valid G s ->
  subfragment_seq G r = Some sq ->
  exists sub s', get_subfragment self r s = (Some sub, s') /\
                 extends s s' /\ seq sub = sq /\ valid_record s' sub.
Proof.
  intros HG Hvalid Hsq. destruct r as [[node start_location] end_location].
  unfold subfragment_seq, subfragment_bounds in Hsq. simpl in Hsq.
  destruct node as [n|]; simpl in Hsq; [|done].
  destruct (node_seq G n) as [rec|] eqn:Hrec; simpl in Hsq; [|done].
  injection Hsq as <-.
  assert (Hrv : valid_record s rec) by (by eapply Hvalid).
  unfold get_subfragment. rewrite bind_run. unfold get_graph at 1. rewrite HG.
  rewrite bind_run. unfold liftO at 1. simpl. rewrite Hrec.
  destruct (record_slice_run rec
              (Some match start_location with
                    | Some l => p_start (first_part l)
                    | None => 0
                    end)
              ((fun l => p_end (last_part l)) <$> end_location) s Hrv)
    as (r' & s' & Hslice & Hext & Hv & Hseq).
  exists r', s'. by rewrite Hslice.
Qed.

Lemma get_assembly_subfragments_run (self : Assembly) (G : MultiDiGraph)
    (reprs : list subfragment_repr) (sqs : list (list ascii)) (s : store) :
  st_graphs s !! self_G self = Some G ->
  records_valid G s ->
  mapM (subfragment_seq G) reprs = Some sqs ->
  exists subs s', get_assembly_subfragments self reprs s = (Some subs, s') /\
                  extends s s' /\ Forall (valid_record s') subs /\ seq <$> subs = sqs.
Proof.
  intros HG Hvalid Hsq. apply mapM_Some in Hsq.
  destruct (mapM_run (get_subfragment self)
              (fun r sub => subfragment_seq G r = Some (seq sub))
              (fun sub s1 => valid_record s1 sub)
              (fun s1 => st_graphs s1 !! self_G self = Some G /\ records_valid G s1)
              reprs s)
    as (subs & s' & Hrun & Hext & _ & HP & HV).
  - intros r s1 Hr [HG1 Hv1].
    destruct (Forall2_elem_of_l _ _ _ r Hsq Hr) as (sq & _ & Hsq1).
    destruct (get_subfragment_run self G r sq s1 HG1 Hv1 Hsq1)
      as (sub & s2 & Hrun & Hext & Hseq & Hv).
    exists sub, s2. by rewrite Hseq.
  - intros y s1 s2 Hext. by apply valid_record_extends.
  - intros s1 s2 Hext [HG1 Hv1]. split.
    + by rewrite (extends_graphs _ _ Hext).
    + by eapply records_valid_extends.
  - done.
  - exists subs, s'. split; [done|]. split; [done|]. split; [done|].
    clear -Hsq HP. revert sqs Hsq. induction HP as [|r sub reprs subs Hr _ IH]; intros sqs Hsq.
    + by apply Forall2_nil_inv_l in Hsq as ->.
    + apply Forall2_cons_inv_l in Hsq as (sq & sqs' & Hsq & Hsqs & ->).
      rewrite fmap_cons. f_equal; [congruence|by apply IH].
Qed.

Lemma mapM_feature_shift_refs_run (offset : Z) (xs : list fref) (s : store) :
  Forall (fun x => (x < length (st_feats s))%nat) xs ->
  exists ys s', mapM (feature_shift offset) xs s = (Some ys, s') /\
                extends s s' /\
                Forall (fun y => (y < length (st_feats s'))%nat) ys.
Proof. intros Hv. exact (mapM_feature_shift_run offset (fun x : nat => x) xs s Hv). Qed.

Lemma join_fragment_run (out : Dseqrecord) (fo : Dseqrecord * Z) (s : store) :
  valid_record s out -> valid_record s fo.1 ->
  exists out' s', join_fragment out fo s = (Some out', s') /\ extends s s' /\
                  seq out' = seq out ++ py_slice (Some fo.2) None (seq fo.1) /\
                  valid_record s' out'.
Proof.
  intros Hout Hfrag. destruct fo as [fragment overlap]. simpl in *.
  unfold join_fragment. rewrite bind_run.
  destruct (mapM_feature_shift_refs_run (rec_len out - overlap)
              (features fragment) s Hfrag) as (ys & s' & Hrun & Hext & Hys).
  rewrite Hrun. eexists _, s'. split; [done|]. split; [done|]. split; [done|].
  unfold valid_record. simpl. apply Forall_app. split; [|done].
  by apply (valid_record_extends s s' out).
Qed.

Lemma py_slice_fmap {A B} (f : A -> B) (start stop : option Z) (l : list A) :
  py_slice start stop (f <$> l) = f <$> py_slice start stop l.
Proof. unfold py_slice. by rewrite length_fmap, fmap_take, fmap_drop. Qed.

Lemma zip_fmap_seq (xs : list Dseqrecord) (ys : list Z) :
  (fun fo : Dseqrecord * Z => (seq fo.1, fo.2)) <$> zip xs ys = zip (seq <$> xs) ys.
Proof.
  revert ys. induction xs as [|x xs IH]; intros [|y ys]; simpl; [done..|].
  by rewrite IH.
Qed.

Lemma foldlM_join_fragment_run (l : list (Dseqrecord * Z)) (out : Dseqrecord) (s : store) :
  valid_record s out -> Forall (fun fo => valid_record s fo.1) l ->
  exists out' s', foldlM join_fragment out l s = (Some out', s') /\ extends s s' /\
                  valid_record s' out' /\
                  seq out' = joined_seq (seq out) ((fun fo => (seq fo.1, fo.2)) <$> l).
Proof.
  intros Hout Hl.
  destruct (foldlM_run join_fragment
              (fun out fo out' => seq out' = seq out ++ py_slice (Some fo.2) None (seq fo.1))
              (fun out s1 => valid_record s1 out)
              (fun fo s1 => valid_record s1 fo.1) l out s)
    as (out' & s' & Hrun & Hext & Hv & Hchain); [| |done|done|].
  - intros a x s1 Ha Hx. destruct (join_fragment_run a x s1 Ha Hx) as (a' & s2 & ? & ? & ? & ?).
    by exists a', s2.
  - intros x s1 s2 Hext. by apply valid_record_extends.
  - exists out', s'. split; [done|]. split; [done|]. split; [done|].
    clear -Hchain. revert out Hchain. induction l as [|fo l IH]; intros out Hchain.
    + by subst.
    + destruct Hchain as (a1 & Ha1 & Hchain). apply IH in Hchain. rewrite Hchain.
      rewrite fmap_cons. unfold joined_seq. simpl. by rewrite Ha1.
Qed.

Lemma shift_location_is_Some (l : location) (shift lim : Z) :
  lim <> 0 -> is_Some (shift_location l shift lim).
Proof.
  intros Hlim. unfold shift_location. rewrite decide_False by done.
  unfold parts. rewrite bind_cons.
  assert (exists p ps, shift_wrap_part (loc_strand l) shift lim (loc_first l) = p :: ps)
    as (p & ps & ->).
  { unfold shift_wrap_part. repeat case_decide; eauto. }
  simpl. by eexists.
Qed.

Lemma wrap_feature_run (lim : Z) (r : fref) (s : store) :
  lim <> 0 -> (r < length (st_feats s))%nat ->
  exists s', wrap_feature lim r s = (Some (), s') /\
             st_graphs s' = st_graphs s /\ length (st_feats s') = length (st_feats s).
Proof.
  intros Hlim Hr. destruct (lookup_lt_is_Some_2 _ _ Hr) as [f Hf].
  unfold wrap_feature. rewrite bind_run. unfold get_feature at 1. rewrite Hf.
  case_decide; [|by exists s].
  destruct (shift_location_is_Some (f_location f) 0 lim Hlim) as [loc Hloc].
  rewrite bind_run. unfold liftO. rewrite Hloc. unfold set_location. rewrite Hf.
  eexists. split; [done|]. simpl. split; [done|]. by rewrite length_insert.
Qed.

Lemma for_each_wrap_feature_run (lim : Z) (rs : list fref) (s : store) :
  lim <> 0 -> Forall (fun r => (r < length (st_feats s))%nat) rs ->
  exists s', for_each rs (wrap_feature lim) s = (Some (), s') /\
             st_graphs s' = st_graphs s /\ length (st_feats s') = length (st_feats s).
Proof.
  intros Hlim. revert s. induction rs as [|r rs IH]; intros s Hrs; simpl.
  - by exists s.
  - apply Forall_cons in Hrs as [Hr Hrs].
    destruct (wrap_feature_run lim r s Hlim Hr) as (s1 & Hrun & Hg1 & Hl1).
    destruct (IH s1) as (s' & Hrest & Hg & Hl). { by rewrite Hl1. }
    rewrite bind_run, Hrun, Hrest. exists s'. split; [done|]. split; congruence.
Qed.

(** [assemble] returns, and the sequence of its result is [assemble_seq],
    whenever the latter is defined and not empty and the records of the
    graph hold live feature references. *)
Lemma assemble_run (self : Assembly) (a : assembly) (s : store) (G : MultiDiGraph)
    (sq : list ascii) :
  st_graphs s !! self_G self = Some G ->
  records_valid G s ->
  assemble_seq G a = Some sq -> sq <> [] ->
  exists out s', assemble self a s = (Some out, s') /\ seq out = sq.
Proof.
  intros HG Hvalid Hsq Hne. unfold assemble_seq in Hsq.
  destruct (edge_representation2subfragment_on G a) as [reprs|] eqn:Hreprs;
    simpl in Hsq; [|done].
  destruct (edge_overlaps G a) as [overlaps|] eqn:Hov; simpl in Hsq; [|done].
  destruct (mapM (subfragment_seq G) reprs) as [sqs|] eqn:Hsqs; simpl in Hsq; [|done].
  destruct (head sqs) as [first_sq|] eqn:Hfirst; simpl in Hsq; [|done].
  destruct (head reprs) as [first_repr|] eqn:Hfr; simpl in Hsq; [|done].
  unfold assemble. rewrite bind_run.
  unfold edge_representation2subfragment_representation. rewrite bind_run.
  unfold get_graph at 1. rewrite HG. unfold liftO. rewrite Hreprs.
  rewrite bind_run. unfold get_graph at 1. rewrite HG.
  rewrite bind_run. unfold liftO. unfold edge_overlaps in Hov. rewrite Hov.
  rewrite bind_run.
  destruct (get_assembly_subfragments_run self G reprs sqs s HG Hvalid Hsqs)
    as (subs & s1 & -> & Hext1 & Hv1 & Hseqs).
  rewrite bind_run. unfold liftO.
  destruct subs as [|first_sub subs]; [by subst sqs|]. simpl.
  rewrite <- Hseqs in Hfirst. simpl in Hfirst. injection Hfirst as <-.
  rewrite bind_run. rewrite py_slice_tail.
  apply Forall_cons in Hv1 as [Hvf Hvs].
  destruct (foldlM_join_fragment_run (zip subs overlaps) first_sub s1 Hvf)
    as (out & s2 & -> & Hext2 & Hvout & Hout).
  { apply Forall_forall. intros [x y] Hin. simpl.
    eapply Forall_forall in Hvs; [exact Hvs|]. by eapply elem_of_zip_l. }
  rewrite bind_run. unfold liftO. rewrite Hfr.
  rewrite <- Hseqs in Hsq. rewrite fmap_cons, py_slice_tail in Hsq.
  rewrite zip_fmap_seq in Hout. rewrite <- Hout in Hsq.
  destruct (first_repr.1.2).
  - destruct (last overlaps) as [overlap|] eqn:Hlast; simpl in Hsq; [|done].
    injection Hsq as Hsq. rewrite bind_run. unfold liftO.
    rewrite bind_run.
    destruct (for_each_wrap_feature_run
                (rec_len (Record_ (py_slice None (Some (- overlap)) (seq out))
                                  (features out) true))
                (features out) s2) as (s3 & -> & _ & _).
    + unfold rec_len. simpl. rewrite Hsq. destruct sq; [done|]. simpl. lia.
    + done.
    + eexists _, s3. split; [done|]. by simpl.
  - injection Hsq as Hsq. by exists out, s2.
Qed.

(** ** The length of the assembled sequence *)




Lemma mapM_compose {A B C} (f : A -> option B) (g : B -> option C) (l : list A)
    (ys : list B) :
  mapM f l = Some ys -> mapM g ys = mapM (fun x => y ← f x; g y) l.
Proof.
  revert ys. induction l as [|x l IH]; intros ys Hys.
  - by injection Hys as <-.
  - apply mapM_Some in Hys. apply Forall2_cons_inv_l in Hys as (y & ys' & Hy & Hys' & ->).
    apply mapM_Some in Hys'. simpl. rewrite Hy. simpl. by rewrite (IH ys').
Qed.

(** The locations of a well-formed edge, opened up. *)
Lemma edge_wf_inv (G : MultiDiGraph) (e : edge) :
  edge_wf G e ->
  exists p q ru rv,
    edge_locations G e = Some (Location p [], Location q []) /\
    node_seq G (e_src e) = Some ru /\ node_seq G (e_tgt e) = Some rv /\
    0 <= p_start p /\ p_start p < p_end p /\ p_end p <= rec_len ru /\
    0 <= p_start q /\ p_start q < p_end q /\ p_end q <= rec_len rv.
Proof.
  intros ([[p ps] [q qs]] & ru & rv & Hl & Hu & Hv & (Hps & ? & ? & ?) & (Hqs & ? & ? & ?)).
  simpl in *. subst ps qs. by exists p, q, ru, rv.
Qed.









Lemma check_edge_pairs_true (G : MultiDiGraph) (pairs : list (edge * edge)) :
  check_edge_pairs G pairs = Some true -> Forall (fun p => ordering_ok G p.1 p.2) pairs.
Proof.
  induction pairs as [|[e1 e2] pairs IH]; simpl; intros Hchk; [constructor|].
  destruct (edge_locations G e1) as [l|] eqn:Hl; simpl in Hchk; [|done].
  destruct (edge_locations G e2) as [r|] eqn:Hr; simpl in Hchk; [|done].
  case_decide as Hcmp; [done|]. constructor; [|by apply IH].
  exists l, r. simpl. repeat split; [done..|lia].
Qed.

Lemma validate_on_ordering (G : MultiDiGraph) (self : Assembly) (a : assembly) (circ : bool) :
  validate_on G self a = Some true -> is_circular a = Some circ ->
  forall e1 e2, consecutive circ a e1 e2 -> ordering_ok G e1 e2.
Proof.
  intros (circ' & Hc' & _ & Hchk)%validate_on_true_inv Hc e1 e2 Hp.
  rewrite Hc in Hc'. injection Hc' as <-.
  apply check_edge_pairs_true in Hchk.
  apply elem_of_edge_pairs in Hp. eapply Forall_forall in Hchk; [|exact Hp]. done.
Qed.


Lemma consecutive_wrap (e0 : edge) (a : assembly) :
  consecutive true (e0 :: a) (py_last e0 a) e0.
Proof.
  exists (length a). split.
  - pose proof (last_cons_py_last e0 a) as Hlast. by rewrite last_lookup in Hlast.
  - cbn [length]. by rewrite Nat.Div0.mod_same.
Qed.







Lemma py_slice_last {A} (x : A) (l : list A) :
  py_slice (Some (-1)) None (x :: l) = [py_last x l].
Proof.
  unfold py_slice, py_index. cbn [default from_option length]. unfold id.
  repeat case_decide; try lia.
  rewrite Z.max_l by lia. rewrite Z.min_l by lia.
  replace (Z.to_nat (-1 + Z.of_nat (S (length l)))) with (length l) by lia.
  rewrite take_ge by (rewrite length_drop; simpl; lia).
  pose proof (last_cons_py_last x l) as Hlast. rewrite last_lookup in Hlast. simpl in Hlast.
  by rewrite (drop_S _ _ _ Hlast), drop_ge by (simpl; lia).
Qed.

Lemma pair_to_subfragment_start (G : MultiDiGraph) (t1 t2 : temp_item)
    (r : subfragment_repr) :
  pair_to_subfragment G (t1, t2) = Some r ->
  match t1.1.1 with
  | None => r.1.2 = None
  | Some _ => is_Some r.1.2
  end.
Proof.
  destruct t1 as [[u1 v1] k1], t2 as [[u2 v2] k2].
  unfold pair_to_subfragment. cbn [fst snd]. intros Hr.
  destruct u1 as [u1|], v2 as [v2|]; simplify_option_eq; simpl; eauto.
Qed.






Lemma example_records_valid : records_valid Reference.example_graph Reference.example_store.
Proof.
  intros n r Hn. unfold node_seq, Reference.example_graph in Hn. simpl in Hn.
  repeat (case_decide; [injection Hn as <-; constructor|]). done.
Qed.




(** C6: with [use_all_fragments=True] and three input fragments,
    [get_linear_assemblies] returns (so [validate_assembly] accepts) the
    assembly 1 -> 2 -> -1, which has the two edges the count asks for but
    uses fragment 1 twice and fragment 3 not at all. *)
Theorem C6_use_all_fragments_counts_edges :
  use_all_fragments Reference.inverted_self = true /\
  length (fragments Reference.inverted_self) = 3%nat /\
  (exists l, (Reference.get_linear_assemblies Reference.inverted_self
                Reference.inverted_store).1 = Some l /\
             Reference.inverted_assembly ∈ l) /\
  (validate_assembly Reference.inverted_self Reference.inverted_assembly
     Reference.inverted_store).1 = Some true /\
  fragments_used false Reference.inverted_assembly = [NInt 1; NInt 2; NInt (-1)].
Proof.
  split; [done|]. split; [done|]. split.
  - eexists. split; [vm_compute; reflexivity|]. left.
  - split; by vm_compute.
Qed.

(** ** Two runs of assemble *)

Section Simulation.
Context (m d : nat) (gs : list MultiDiGraph).

Lemma ren_lt (r : fref) : (r < m)%nat -> ren m d r = r.
Proof. intros Hr. unfold ren. by rewrite decide_True. Qed.

Lemma ren_ge (r : fref) : (m <= r)%nat -> ren m d r = (r + d)%nat.
Proof. intros Hr. unfold ren. by rewrite decide_False by lia. Qed.

Lemma sim_length (s t : store) :
  sim m d gs s t -> length (st_feats t) = (length (st_feats s) + d)%nat.
Proof.
  intros (_ & _ & Hm & junk & Hj & ->).
  rewrite !length_app, length_take, length_drop. lia.
Qed.

Lemma sim_lookup (s t : store) (r : fref) :
  sim m d gs s t -> st_feats t !! ren m d r = st_feats s !! r.
Proof.
  intros (_ & _ & Hm & junk & Hj & ->).
  destruct (decide (r < m)%nat) as [Hlt|Hge].
  - rewrite ren_lt by done. rewrite lookup_app_l by (rewrite length_take; lia).
    by rewrite lookup_take_lt.
  - rewrite ren_ge by lia.
    rewrite lookup_app_r by (rewrite length_take; lia).
    rewrite lookup_app_r by (rewrite length_take; lia).
    rewrite lookup_drop. f_equal. rewrite length_take. lia.
Qed.

Lemma sim_alloc (s t : store) (f : SeqFeature) :
  sim m d gs s t ->
  sim m d gs (Store (st_graphs s) (st_feats s ++ [f])) (Store (st_graphs t) (st_feats t ++ [f])).
Proof.
  intros (Hs & Ht & Hm & junk & Hj & Hfeats). split; [done|]. split; [done|]. simpl.
  split; [rewrite length_app; lia|]. exists junk. split; [done|].
  rewrite Hfeats. rewrite take_app_le, drop_app_le by lia.
  by rewrite <- !app_assoc.
Qed.

Lemma sim_insert (s t : store) (r : fref) (f : SeqFeature) :
  sim m d gs s t ->
  sim m d gs (Store (st_graphs s) (<[r := f]> (st_feats s)))
             (Store (st_graphs t) (<[ren m d r := f]> (st_feats t))).
Proof.
  intros (Hs & Ht & Hm & junk & Hj & Hfeats). split; [done|]. split; [done|]. simpl.
  split; [by rewrite length_insert|]. exists junk. split; [done|]. rewrite Hfeats.
  destruct (decide (r < m)%nat) as [Hlt|Hge].
  - rewrite ren_lt by done.
    rewrite insert_app_l by (rewrite length_take; lia).
    rewrite take_insert_lt by done. by rewrite drop_insert_lt by lia.
  - rewrite ren_ge by lia.
    rewrite insert_app_r_alt by (rewrite length_take; lia).
    rewrite insert_app_r_alt by (rewrite length_take; lia).
    rewrite take_insert_ge by lia. rewrite drop_insert_ge by lia.
    do 3 f_equal. rewrite length_take. lia.
Qed.

Lemma simulates_ret {A} (rho : A -> A) (a : A) :
  simulates m d gs rho (mret a) (mret (rho a)).
Proof. by intros s t Hst. Qed.

Lemma simulates_liftO {A} (rho : A -> A) (o : option A) :
  simulates m d gs rho (liftO o) (liftO (rho <$> o)).
Proof. by intros s t Hst. Qed.

Lemma simulates_bind {A B} (rhoA : A -> A) (rhoB : B -> B) (c c' : M A) (f f' : A -> M B) :
  simulates m d gs rhoA c c' ->
  (forall a, simulates m d gs rhoB (f a) (f' (rhoA a))) ->
  simulates m d gs rhoB (c ≫= f) (c' ≫= f').
Proof.
  intros Hc Hf s t Hst. rewrite !bind_run. destruct (Hc s t Hst) as [Hsim Hres].
  destruct (c s) as [[a|] s1], (c' t) as [r' t1]; simpl in *; subst r'.
  - by apply Hf.
  - by split.
Qed.

Lemma simulates_get_graph (g : gref) : simulates m d gs id (get_graph g) (get_graph g).
Proof.
  intros s t Hst. split; [done|]. simpl. destruct Hst as (-> & -> & _).
  by destruct (gs !! g).
Qed.

Lemma simulates_get_feature (r : fref) :
  simulates m d gs id (get_feature r) (get_feature (ren m d r)).
Proof.
  intros s t Hst. split; [done|]. simpl. rewrite (sim_lookup s t r Hst).
  by destruct (st_feats s !! r).
Qed.

Lemma simulates_new_feature (f : SeqFeature) :
  simulates m d gs (ren m d) (new_feature f) (new_feature f).
Proof.
  intros s t Hst. split; [by apply sim_alloc|]. simpl.
  rewrite (sim_length s t Hst). destruct Hst as (_ & _ & Hm & _).
  by rewrite ren_ge by lia.
Qed.

Lemma simulates_set_location (r : fref) (loc : location) :
  simulates m d gs id (set_location r loc) (set_location (ren m d r) loc).
Proof.
  intros s t Hst. unfold set_location. rewrite (sim_lookup s t r Hst).
  destruct (st_feats s !! r) as [f|]; simpl; [|by split].
  split; [by apply sim_insert|done].
Qed.

Lemma simulates_mapM {A B} (rhoA : A -> A) (rhoB : B -> B) (f f' : A -> M B) (l : list A) :
  (forall x, simulates m d gs rhoB (f x) (f' (rhoA x))) ->
  simulates m d gs (fmap rhoB) (mapM f l) (mapM f' (rhoA <$> l)).
Proof.
  intros Hf. induction l as [|x l IH]; simpl.
  - by intros s t Hst.
  - eapply simulates_bind; [apply Hf|]. intros y.
    eapply simulates_bind; [apply IH|]. intros ys.
    by intros s t Hst.
Qed.

Lemma simulates_for_each {A} (rhoA : A -> A) (body body' : A -> M unit) (l : list A) :
  (forall x, simulates m d gs id (body x) (body' (rhoA x))) ->
  simulates m d gs id (for_each l body) (for_each (rhoA <$> l) body').
Proof.
  intros Hb. induction l as [|x l IH]; simpl.
  - by intros s t Hst.
  - eapply simulates_bind; [apply Hb|]. intros []. apply IH.
Qed.

Lemma simulates_foldlM {A B} (rhoA : A -> A) (rhoB : B -> B) (f : A -> B -> M A)
    (a : A) (l : list B) :
  (forall a x, simulates m d gs rhoA (f a x) (f (rhoA a) (rhoB x))) ->
  simulates m d gs rhoA (foldlM f a l) (foldlM f (rhoA a) (rhoB <$> l)).
Proof.
  intros Hf. revert a. induction l as [|x l IH]; intros a; simpl.
  - apply simulates_ret.
  - eapply simulates_bind; [apply Hf|]. intros a'. apply IH.
Qed.

Lemma simulates_feature_shift (offset : Z) (r : fref) :
  simulates m d gs (ren m d) (feature_shift offset r) (feature_shift offset (ren m d r)).
Proof.
  unfold feature_shift. eapply simulates_bind; [apply simulates_get_feature|].
  intros f. apply simulates_new_feature.
Qed.
End Simulation.

Section SimulationOps.
Context (m d : nat) (gs : list MultiDiGraph).

Lemma simulates_liftO_id {A} (o : option A) : simulates m d gs id (liftO o) (liftO o).
Proof. intros s t Hst. split; [done|]. by destruct o. Qed.

Lemma simulates_ret_eq {A} (rho : A -> A) (a b : A) :
  b = rho a -> simulates m d gs rho (mret a) (mret b).
Proof. intros ->. apply simulates_ret. Qed.

Lemma simulates_mapM_same {A B} (rhoB : B -> B) (f : A -> M B) (l : list A) :
  (forall x, simulates m d gs rhoB (f x) (f x)) ->
  simulates m d gs (fmap rhoB) (mapM f l) (mapM f l).
Proof.
  intros Hf. induction l as [|x l IH]; simpl.
  - by intros s t Hst.
  - eapply simulates_bind; [apply Hf|]. intros y.
    eapply simulates_bind; [apply IH|]. intros ys.
    by intros s t Hst.
Qed.

Lemma ren_record_closed (r : Dseqrecord) :
  Forall (fun x => (x < m)%nat) (features r) -> ren_record m d r = r.
Proof.
  intros Hr. destruct r as [sq fs c]. unfold ren_record. simpl in *. f_equal.
  induction Hr as [|x fs Hx _ IH]; [done|].
  rewrite fmap_cons, IH. by rewrite ren_lt.
Qed.

Lemma filter_fmap_ren (Q : fref * SeqFeature -> Prop) `{forall xf, Decision (Q xf)}
    (fs : list (fref * SeqFeature)) :
  (forall x f, Q (ren m d x, f) <-> Q (x, f)) ->
  filter Q ((fun xf : fref * SeqFeature => (ren m d xf.1, xf.2)) <$> fs)
  = (fun xf : fref * SeqFeature => (ren m d xf.1, xf.2)) <$> filter Q fs.
Proof.
  intros HQ. induction fs as [|[x f] fs IH]; [done|].
  rewrite fmap_cons. rewrite !filter_cons. simpl. rewrite IH.
  destruct (decide (Q (ren m d x, f))) as [Hy|Hn], (decide (Q (x, f))) as [Hy'|Hn'];
    try done.
  - exfalso. apply Hn'. by apply (proj1 (HQ x f)).
  - exfalso. apply Hn. by apply (proj2 (HQ x f)).
Qed.

Lemma simulates_record_slice (r : Dseqrecord) (start stop : option Z) :
  simulates m d gs (ren_record m d) (record_slice r start stop)
            (record_slice (ren_record m d r) start stop).
Proof.
  unfold record_slice.
  eapply (simulates_bind m d gs (fmap (fun xf : fref * SeqFeature => (ren m d xf.1, xf.2)))).
  { simpl. apply (simulates_mapM m d gs (ren m d)). intros x.
    eapply simulates_bind; [apply simulates_get_feature|]. intros f.
    by apply simulates_ret_eq. }
  intros fs.
  change (rec_len (ren_record m d r)) with (rec_len r).
  rewrite filter_fmap_ren by done.
  eapply (simulates_bind m d gs (fmap (ren m d))).
  { apply (simulates_mapM m d gs (fun xf : fref * SeqFeature => (ren m d xf.1, xf.2))).
    intros xf. apply simulates_feature_shift. }
  intros fs'. by apply simulates_ret_eq.
Qed.

(** The records of the Assembly's graph only hold references to objects
    older than [m]. *)
Context (self : Assembly).
Hypothesis graph_closed :
  forall G n r, gs !! self_G self = Some G -> node_seq G n = Some r ->
                Forall (fun x => (x < m)%nat) (features r).

Lemma simulates_bind_get_graph {B} (rho : B -> B) (g : gref) (f f' : MultiDiGraph -> M B) :
  (forall G, gs !! g = Some G -> simulates m d gs rho (f G) (f' G)) ->
  simulates m d gs rho (get_graph g ≫= f) (get_graph g ≫= f').
Proof.
  intros Hf s t Hst. rewrite !bind_run. unfold get_graph.
  pose proof Hst as (Hs & Ht & _). rewrite Hs, Ht.
  destruct (gs !! g) as [G|] eqn:HG; [|by split].
  by apply Hf.
Qed.

Lemma simulates_bind_liftO {A B} (rho : B -> B) (o : option A) (f f' : A -> M B) :
  (forall a, o = Some a -> simulates m d gs rho (f a) (f' a)) ->
  simulates m d gs rho (liftO o ≫= f) (liftO o ≫= f').
Proof.
  intros Hf s t Hst. rewrite !bind_run. unfold liftO.
  destruct o as [a|]; [|by split]. by apply Hf.
Qed.

Lemma simulates_get_subfragment (r : subfragment_repr) :
  simulates m d gs (ren_record m d) (get_subfragment self r) (get_subfragment self r).
Proof.
  destruct r as [[node start_location] end_location]. unfold get_subfragment.
  apply simulates_bind_get_graph. intros G HG.
  apply simulates_bind_liftO. intros rec Hrec.
  destruct node as [n|]; [|done]. simpl in Hrec.
  rewrite <- (ren_record_closed rec) at 2 by (by eapply graph_closed).
  by apply simulates_record_slice.
Qed.

Lemma simulates_join_fragment (out : Dseqrecord) (fo : Dseqrecord * Z) :
  simulates m d gs (ren_record m d) (join_fragment out fo)
            (join_fragment (ren_record m d out) (ren_record m d fo.1, fo.2)).
Proof.
  destruct fo as [fragment overlap]. unfold join_fragment.
  eapply (simulates_bind m d gs (fmap (ren m d))).
  { simpl. apply (simulates_mapM m d gs (ren m d)). intros x. apply simulates_feature_shift. }
  intros new_features. apply simulates_ret_eq.
  unfold ren_record. simpl. by rewrite fmap_app.
Qed.

Lemma simulates_wrap_feature (lim : Z) (r : fref) :
  simulates m d gs id (wrap_feature lim r) (wrap_feature lim (ren m d r)).
Proof.
  unfold wrap_feature. eapply simulates_bind; [apply simulates_get_feature|].
  intros f. unfold id. case_decide.
  - eapply simulates_bind; [apply simulates_liftO_id|]. intros loc.
    apply simulates_set_location.
  - apply (simulates_ret m d gs id ()).
Qed.

Lemma zip_fmap_ren_record (xs : list Dseqrecord) (ys : list Z) :
  zip (ren_record m d <$> xs) ys
  = (fun fo : Dseqrecord * Z => (ren_record m d fo.1, fo.2)) <$> zip xs ys.
Proof.
  revert ys. induction xs as [|x xs IH]; intros [|y ys]; simpl; [done..|].
  by rewrite IH.
Qed.

(** Run from two stores that hold the same graphs and the same old
    features, [assemble] returns the same record up to the names of the
    feature objects it creates. *)
Lemma simulates_assemble (a : assembly) :
  simulates m d gs (ren_record m d) (assemble self a) (assemble self a).
Proof.
  unfold assemble.
  eapply (simulates_bind m d gs id).
  { unfold edge_representation2subfragment_representation.
    eapply simulates_bind; [apply simulates_get_graph|]. intros G.
    apply simulates_liftO_id. }
  intros reprs. unfold id at 1.
  eapply simulates_bind; [apply simulates_get_graph|]. intros G. unfold id at 1.
  eapply simulates_bind; [apply simulates_liftO_id|]. intros overlaps. unfold id at 1.
  eapply (simulates_bind m d gs (fmap (ren_record m d))).
  { unfold get_assembly_subfragments. apply simulates_mapM_same.
    intros r. apply simulates_get_subfragment. }
  intros subs.
  eapply (simulates_bind m d gs (ren_record m d)).
  { intros s t Hst. split; [done|]. simpl. by destruct subs. }
  intros first_sub. rewrite py_slice_fmap, zip_fmap_ren_record.
  eapply (simulates_bind m d gs (ren_record m d)).
  { apply (simulates_foldlM m d gs (ren_record m d)
             (fun fo : Dseqrecord * Z => (ren_record m d fo.1, fo.2))).
    intros out fo. apply simulates_join_fragment. }
  intros out.
  eapply simulates_bind; [apply simulates_liftO_id|]. intros first_repr. unfold id at 1.
  destruct (first_repr.1.2); [|apply simulates_ret].
  eapply simulates_bind; [apply simulates_liftO_id|]. intros overlap. unfold id at 1.
  eapply (simulates_bind m d gs id).
  { simpl. apply (simulates_for_each m d gs (ren m d)). intros r.
    apply simulates_wrap_feature. }
  intros []. by apply simulates_ret_eq.
Qed.
End SimulationOps.

(** ** Two successive calls of [assemble] *)

(** C8: calling [assemble] a second time on the same Assembly and the same
    assembly, in the store the first call left behind, returns a record
    with the same symbols, the same circularity and an annotation list
    equal to the first one, feature by feature (location and type). The
    records of the Assembly's graph hold references to existing features. *)
Theorem C8_assemble_twice_same_record (self : Assembly) (a : assembly)
    (s s1 : store) (out1 : Dseqrecord) :
  (forall G, st_graphs s !! self_G self = Some G -> records_valid G s) ->
  assemble self a s = (Some out1, s1) ->
  exists out2 s2,
    assemble self a s1 = (Some out2, s2) /\
    seq out2 = seq out1 /\
    circular out2 = circular out1 /\
    annotations s2 out2 = annotations s1 out1.
Proof.
  intros Hvalid Hrun.
  set (m := length (st_feats s)). set (gs := st_graphs s).
  assert (Hclosed : forall G n r, gs !! self_G self = Some G -> node_seq G n = Some r ->
                                  Forall (fun x => (x < m)%nat) (features r)).
  { intros G n r HG Hn. exact (Hvalid G HG n r Hn). }
  assert (Hss : sim m 0 gs s s).
  { split; [done|]. split; [done|]. split; [done|]. exists []. split; [done|].
    subst m. rewrite take_ge, drop_ge by lia. simpl. by rewrite app_nil_r. }
  destruct (simulates_assemble m 0 gs self Hclosed a s s Hss) as [(_ & Hg1 & _) _].
  rewrite Hrun in Hg1. simpl in Hg1.
  destruct (frames_assemble s self a s (store_prefix_refl s)) as [[_ [junk Hjunk]] _].
  rewrite Hrun in Hjunk. simpl in Hjunk.
  assert (Hs1 : sim m (length junk) gs s s1).
  { split; [done|]. split; [done|]. split; [done|]. exists junk. split; [done|].
    rewrite Hjunk. subst m. by rewrite take_ge, drop_ge, app_nil_r by lia. }
  destruct (simulates_assemble m (length junk) gs self Hclosed a s s1 Hs1) as [Hs2 Hout].
  rewrite Hrun in Hs2, Hout. simpl in Hs2, Hout.
  destruct (assemble self a s1) as [o2 s2] eqn:Hrun2. simpl in *. subst o2.
  exists (ren_record m (length junk) out1), s2. repeat split.
  unfold annotations. simpl. rewrite <- list_fmap_compose.
  apply list_fmap_ext. intros i x _. simpl. by apply sim_lookup with gs.
Qed.

Lemma C8_witness :
  exists out2 s2,
    assemble Reference.annotated_self Reference.example_circular
      Reference.annotated_first_run.2 = (Some out2, s2) /\
    seq out2 = seq Reference.annotated_first_run.1 /\
    circular out2 = circular Reference.annotated_first_run.1 /\
    annotations s2 out2 =
      annotations Reference.annotated_first_run.2 Reference.annotated_first_run.1.
Proof.
  apply (C8_assemble_twice_same_record Reference.annotated_self
           Reference.example_circular Reference.annotated_store).
  - intros G HG. injection HG as <-. intros n r Hn.
    unfold node_seq in Hn. simpl in Hn.
    repeat (case_decide; [injection Hn as <-; repeat constructor|]). done.
  - reflexivity.
Defined.

(** * Further properties of the module *)

(** ** is_sublist *)

(** X1: [is_sublist sublist my_list] is true exactly when [sublist] occurs
    in [my_list] as a contiguous run.  The empty list occurs in every list
    (the empty one included) and a list longer than [my_list] never occurs:
    the range of start positions is empty. *)
Theorem X1_is_sublist_contiguous_run {A} `{EqDecision A} (sub l : list A) :
  (is_sublist sub l = true <-> exists pre post, l = pre ++ sub ++ post) /\
  is_sublist [] l = true /\
  ((length l < length sub)%nat -> is_sublist sub l = false).
Proof.
  split; [apply is_sublist_spec|]. split.
  - apply is_sublist_spec. by exists [], l.
  - intros Hlen. destruct (is_sublist sub l) eqn:Hs; [|done].
    apply is_sublist_length in Hs. lia.
Qed.

Lemma X1_witness :
  is_sublist [1; 2] [1; 2; 3] = true /\ is_sublist [1; 2; 3; 4] [1; 3; 2] = false.
Proof.
  split.
  - apply (proj1 (X1_is_sublist_contiguous_run [1; 2] [1; 2; 3])). by exists [], [3].
  - apply (proj2 (proj2 (X1_is_sublist_contiguous_run [1; 2; 3; 4] [1; 3; 2]))). simpl. lia.
Defined.

(** X2: containment as a contiguous run is transitive and antisymmetric:
    with reflexivity, [is_sublist] orders lists. *)
Theorem X2_is_sublist_transitive_antisymmetric {A} `{EqDecision A} (a b c : list A) :
  (is_sublist a b = true -> is_sublist b c = true -> is_sublist a c = true) /\
  (is_sublist a b = true -> is_sublist b a = true -> a = b).
Proof.
  split.
  - intros (p1 & q1 & ->)%is_sublist_spec (p2 & q2 & ->)%is_sublist_spec.
    apply is_sublist_spec. exists (p2 ++ p1), (q1 ++ q2). by rewrite <- !app_assoc.
  - intros Hab Hba. apply is_sublist_same_length; [done|].
    apply is_sublist_length in Hab, Hba. lia.
Qed.

Lemma X2_witness : is_sublist [2] [1; 2; 3] = true.
Proof.
  by apply (proj1 (X2_is_sublist_transitive_antisymmetric [2] [2; 3] [1; 2; 3])).
Defined.

(** ** circular_permutation_min_abs *)

(** [min] returns the first index of a least key: every earlier key is
    strictly greater. *)
Lemma argmin_from_first (keys pre : list Z) (b : nat) (m : Z) :
  pre !! b = Some m -> Forall (fun x => m <= x) pre ->
  (forall j x, (j < b)%nat -> pre !! j = Some x -> m < x) ->
  exists v, (pre ++ keys) !! argmin_from keys (length pre) b m = Some v /\
            forall j x, (j < argmin_from keys (length pre) b m)%nat ->
                        (pre ++ keys) !! j = Some x -> v < x.
Proof.
  revert pre b m. induction keys as [|k keys IH]; intros pre b m Hb Hmin Hfirst; simpl.
  - rewrite app_nil_r. by exists m.
  - replace (S (length pre)) with (length (pre ++ [k])) by (rewrite length_app; simpl; lia).
    rewrite (cons_middle k pre keys), app_assoc.
    case_decide as Hk.
    + apply IH.
      * rewrite lookup_app_r by lia. by rewrite Nat.sub_diag.
      * apply Forall_app. split; [|by repeat constructor].
        eapply Forall_impl; [exact Hmin|]. intros x Hx; simpl in *; lia.
      * intros j x Hj Hx. rewrite lookup_app_l in Hx by done.
        eapply Forall_lookup_1 in Hmin; [|exact Hx]. simpl in Hmin. lia.
    + apply IH.
      * by apply lookup_app_l_Some.
      * apply Forall_app. split; [done|]. repeat constructor. lia.
      * intros j x Hj Hx. apply lookup_lt_Some in Hb.
        rewrite lookup_app_l in Hx by lia. by eapply Hfirst.
Qed.

Lemma argmin_first (keys : list Z) (i : nat) :
  argmin keys = Some i ->
  exists v, keys !! i = Some v /\ forall j x, (j < i)%nat -> keys !! j = Some x -> v < x.
Proof.
  destruct keys as [|k keys]; simpl; [done|]. intros [= <-].
  apply (argmin_from_first keys [k] 0 k); [done|by repeat constructor|].
  intros j x Hj. lia.
Qed.

Lemma mapM_node_abs_ints (zs : list Z) :
  mapM node_abs (NInt <$> zs) = Some (Z.abs <$> zs).
Proof.
  apply mapM_Some. induction zs as [|z zs IH]; constructor; [done|exact IH].
Qed.

(** X3: [circular_permutation_min_abs] rotates the list so that the first
    entry of least absolute value comes first: the result is a rotation
    (hence a permutation) of the input, no entry has a smaller absolute
    value than the new head and every entry that preceded it in the input
    has a strictly greater one.  It raises on the empty list ([min] of an
    empty range) and on a list holding a string node, and returns on every
    non-empty list of integers. *)
Theorem X3_circular_permutation_min_abs_rotation :
  circular_permutation_min_abs [] = None /\
  (forall pre s post, circular_permutation_min_abs (pre ++ NStr s :: post) = None) /\
  (forall z zs, is_Some (circular_permutation_min_abs (NInt <$> z :: zs))) /\
  (forall lst r, circular_permutation_min_abs lst = Some r ->
     exists (i : nat) (z : Z),
       lst !! i = Some (NInt z) /\
       r = drop i lst ++ take i lst /\
       r ≡ₚ lst /\
       (forall j w, lst !! j = Some (NInt w) -> Z.abs z <= Z.abs w) /\
       (forall j w, (j < i)%nat -> lst !! j = Some (NInt w) -> Z.abs z < Z.abs w)).
Proof.
  split; [done|]. split; [|split].
  - intros pre s post. unfold circular_permutation_min_abs.
    destruct (mapM node_abs (pre ++ NStr s :: post)) as [ks|] eqn:Hks; [|done].
    apply mapM_Some in Hks. apply Forall2_app_inv_l in Hks as (k1 & k2 & _ & Hk2 & _).
    by inversion Hk2.
  - intros z zs. unfold circular_permutation_min_abs.
    rewrite mapM_node_abs_ints. by simpl.
  - intros lst r Hr. pose proof Hr as Hspec. unfold circular_permutation_min_abs in Hr.
    destruct (mapM node_abs lst) as [ks|] eqn:Hks; simpl in Hr; [|done].
    destruct (argmin ks) as [i|] eqn:Hi; simpl in Hr; [|done]. injection Hr as <-.
    apply mapM_Some in Hks.
    destruct (argmin_spec _ _ Hi) as (v & Hv & Hmin).
    destruct (argmin_first _ _ Hi) as (v' & Hv' & Hfirst).
    assert (v' = v) as -> by congruence.
    destruct (Forall2_lookup_r _ _ _ _ _ Hks Hv) as (n0 & Hn0 & Habs).
    destruct n0 as [z|]; [|done]. injection Habs as <-.
    exists i, z. split; [done|]. split; [|split; [|split]].
    + rewrite py_slice_from, py_slice_upto by lia. by rewrite Nat2Z.id.
    + rewrite py_slice_from, py_slice_upto by lia. rewrite Nat2Z.id.
      rewrite Permutation_app_comm. by rewrite take_drop.
    + intros j w Hj.
      destruct (Forall2_lookup_l _ _ _ _ _ Hks Hj) as (k & Hk & Hkw).
      injection Hkw as <-. by eapply Forall_lookup_1 in Hmin; [|exact Hk].
    + intros j w Hlt Hj.
      destruct (Forall2_lookup_l _ _ _ _ _ Hks Hj) as (k & Hk & Hkw).
      injection Hkw as <-. by eapply Hfirst.
Qed.

Lemma X3_witness :
  exists (i : nat) (z : Z),
    [NInt 3; NInt (-1); NInt 2; NInt 1] !! i = Some (NInt z) /\
    [NInt (-1); NInt 2; NInt 1; NInt 3]
    = drop i [NInt 3; NInt (-1); NInt 2; NInt 1] ++ take i [NInt 3; NInt (-1); NInt 2; NInt 1] /\
    [NInt (-1); NInt 2; NInt 1; NInt 3] ≡ₚ [NInt 3; NInt (-1); NInt 2; NInt 1] /\
    (forall j w, [NInt 3; NInt (-1); NInt 2; NInt 1] !! j = Some (NInt w) ->
                 Z.abs z <= Z.abs w) /\
    (forall j w, (j < i)%nat -> [NInt 3; NInt (-1); NInt 2; NInt 1] !! j = Some (NInt w) ->
                 Z.abs z < Z.abs w).
Proof.
  apply (proj2 (proj2 (proj2 X3_circular_permutation_min_abs_rotation))). reflexivity.
Defined.

(** ** remove_subassemblies, again *)

Lemma StronglySorted_weaken {A} (R R' : A -> A -> Prop) (l : list A) :
  (forall a b, R a b -> R' a b) -> StronglySorted R l -> StronglySorted R' l.
Proof.
  intros HR. induction 1 as [|a l _ IH Hall]; constructor; [done|].
  eapply Forall_impl; [exact Hall|]. intros b. apply HR.
Qed.

(** Sorting a list that is already sorted, longest first, changes nothing. *)
Lemma sorted_by_len_desc_fixed {A} (l : list (list A)) :
  StronglySorted longer l -> sorted_by_len_desc l = l.
Proof.
  induction 1 as [|a l _ IH Hall]; [done|].
  unfold sorted_by_len_desc in *. simpl. rewrite IH.
  destruct l as [|b l]; [done|]. simpl.
  apply Forall_cons in Hall as [Hb _]. unfold longer in Hb. by rewrite decide_True.
Qed.

(** The filtering loop keeps every element of a list in which no element is
    contained in an earlier one. *)
Lemma keep_loop_fixed (rest acc : list assembly) :
  StronglySorted kept_after (acc ++ rest) -> foldl keep_step acc rest = acc ++ rest.
Proof.
  revert acc. induction rest as [|a rest IH]; intros acc Hs; simpl.
  - by rewrite app_nil_r.
  - assert (existsb (is_sublist a) acc = false) as Hnone.
    { destruct (existsb (is_sublist a) acc) eqn:He; [|done].
      apply existsb_exists in He as (b & Hb & Hab).
      apply list_elem_of_In, list_elem_of_lookup in Hb as [i Hi].
      pose proof (lookup_lt_Some _ _ _ Hi) as Hlt.
      assert (kept_after b a) as [_ Hk]; [|congruence].
      eapply (StronglySorted_lookup _ _ i (length acc)); [exact Hs|done| |].
      - by apply lookup_app_l_Some.
      - by rewrite list_lookup_middle. }
    unfold keep_step at 2. rewrite Hnone.
    rewrite IH; [by rewrite <- app_assoc|]. by rewrite <- app_assoc.
Qed.

(** X4: [remove_subassemblies] loses nothing: every assembly of the input
    is contained, as a contiguous run, in an assembly of the result. *)
Theorem X4_remove_subassemblies_covers_input (l : list assembly) (a : assembly) :
  a ∈ l ->
  exists b pre post, b ∈ remove_subassemblies l /\ b = pre ++ a ++ post.
Proof.
  intros Ha. destruct (remove_subassemblies_covers l a Ha) as (b & Hb & Hab).
  apply is_sublist_spec in Hab as (pre & post & ->). by exists (pre ++ a ++ post), pre, post.
Qed.

Lemma X4_witness :
  exists b pre post,
    b ∈ remove_subassemblies [[Reference.edge_12]; Reference.example_linear] /\
    b = pre ++ [Reference.edge_12] ++ post.
Proof.
  apply (X4_remove_subassemblies_covers_input
           [[Reference.edge_12]; Reference.example_linear] [Reference.edge_12]).
  left.
Defined.

(** X5: the result of [remove_subassemblies] is ordered longest first, and
    an input assembly that no input assembly exceeds in length is always
    kept. *)
Theorem X5_remove_subassemblies_longest_first (l : list assembly) :
  (forall (i j : nat) a b, (i < j)%nat ->
      remove_subassemblies l !! i = Some a -> remove_subassemblies l !! j = Some b ->
      (length b <= length a)%nat) /\
  (forall a, a ∈ l -> (forall b, b ∈ l -> (length b <= length a)%nat) ->
             a ∈ remove_subassemblies l).
Proof.
  split.
  - intros i j a b Hij Ha Hb.
    by destruct (StronglySorted_lookup _ _ i j a b (remove_subassemblies_sorted l) Hij Ha Hb).
  - intros a Ha Hmax. destruct (remove_subassemblies_covers l a Ha) as (b & Hb & Hab).
    assert (a = b) as ->; [|done].
    apply is_sublist_same_length; [done|].
    apply is_sublist_length in Hab.
    specialize (Hmax b (remove_subassemblies_subset _ _ Hb)). lia.
Qed.

Lemma X5_witness :
  Reference.example_linear ∈ remove_subassemblies [[Reference.edge_12]; Reference.example_linear].
Proof.
  apply (proj2 (X5_remove_subassemblies_longest_first
                  [[Reference.edge_12]; Reference.example_linear])).
  - right. left.
  - intros b Hb. apply list_elem_of_In in Hb. simpl in Hb.
    destruct Hb as [<-|[<-|[]]]; simpl; lia.
Defined.

(** X6: [remove_subassemblies] is idempotent: filtering its own result
    returns that result, in the same order. *)
Theorem X6_remove_subassemblies_idempotent (l : list assembly) :
  remove_subassemblies (remove_subassemblies l) = remove_subassemblies l.
Proof.
  pose proof (remove_subassemblies_sorted l) as Hs.
  rewrite keep_step_fold at 1.
  rewrite sorted_by_len_desc_fixed.
  - by apply (keep_loop_fixed _ []).
  - eapply StronglySorted_weaken; [|exact Hs]. by intros a b [Hl _].
Qed.

(** ** validate_assembly, again *)

(** X7: an accepted candidate is never empty, and under
    [use_all_fragments] it has exactly [len(fragments) - 1] edges when it is
    linear and [len(fragments)] edges when it is circular; validation
    leaves the store as it was. *)
Theorem X7_validate_assembly_accepts_by_edge_count
    (self : Assembly) (a : assembly) (s s' : store) :
  validate_assembly self a s = (Some true, s') ->
  s' = s /\ a <> [] /\
  exists circ, is_circular a = Some circ /\
    (use_all_fragments self = true ->
     Z.of_nat (length a)
     = Z.of_nat (length (fragments self)) - 1 + (if circ : bool then 1 else 0)).
Proof.
  unfold validate_assembly. rewrite bind_run. unfold get_graph, liftO.
  destruct (st_graphs s !! self_G self) as [G|] eqn:HG; [|done].
  intros [= Hv <-]. split; [done|].
  destruct (validate_on_true_inv _ _ _ Hv) as (circ & Hcirc & Hcount & _).
  split; [by intros ->|]. exists circ. split; [done|].
  intros Hall. specialize (Hcount Hall). lia.
Qed.

Lemma X7_witness :
  Reference.inverted_store = Reference.inverted_store /\
  Reference.inverted_assembly <> [] /\
  exists circ, is_circular Reference.inverted_assembly = Some circ /\
    (use_all_fragments Reference.inverted_self = true ->
     Z.of_nat (length Reference.inverted_assembly)
     = Z.of_nat (length (fragments Reference.inverted_self)) - 1
       + (if circ : bool then 1 else 0)).
Proof.
  apply (X7_validate_assembly_accepts_by_edge_count
           Reference.inverted_self Reference.inverted_assembly Reference.inverted_store).
  vm_compute. reflexivity.
Defined.

(** X8: a candidate of one edge whose end nodes differ is never looked up in
    the graph: there is no pair of consecutive edges to compare, so it is
    accepted whether or not the graph has such an edge, unless
    [use_all_fragments] is set and the Assembly does not have exactly two
    fragments. *)
Theorem X8_validate_assembly_single_edge_not_looked_up
    (self : Assembly) (u v : node) (k : ekey) (s : store) (G : MultiDiGraph) :
  st_graphs s !! self_G self = Some G ->
  u <> v ->
  validate_assembly self [(u, v, k)] s
  = (Some (if use_all_fragments self
           then bool_decide (length (fragments self) = 2%nat) else true), s).
Proof.
  intros HG Huv. rewrite (validate_assembly_run _ _ _ _ HG). f_equal.
  unfold validate_on. simpl. unfold e_src, e_tgt, py_last. simpl.
  rewrite !(bool_decide_eq_false_2 (u = v)) by done.
  destruct (use_all_fragments self); simpl; [|done].
  destruct (decide (length (fragments self) = 2%nat)) as [Heq|Hne].
  - rewrite (bool_decide_eq_true_2 (length (fragments self) = 2%nat)) by done.
    by rewrite bool_decide_eq_false_2 by lia.
  - rewrite (bool_decide_eq_false_2 (length (fragments self) = 2%nat)) by done.
    by rewrite bool_decide_eq_true_2 by lia.
Qed.

Lemma X8_witness :
  has_edge Reference.example_graph (NInt 1, NInt 2, KStr "no such overlap") = false /\
  validate_assembly Reference.example_self [(NInt 1, NInt 2, KStr "no such overlap")]
    Reference.example_store
  = (Some true, Reference.example_store).
Proof.
  split; [by vm_compute|].
  by apply (X8_validate_assembly_single_edge_not_looked_up Reference.example_self
              (NInt 1) (NInt 2) (KStr "no such overlap") Reference.example_store
              Reference.example_graph).
Defined.

(** ** cycle2circular_assemblies, again *)

Lemma length_product {A} (ls : list (list A)) :
  length (product ls) = foldr Nat.mul 1%nat (length <$> ls).
Proof.
  induction ls as [|l ls IH]; [done|].
  rewrite fmap_cons. cbn [foldr product]. rewrite <- IH. clear IH.
  induction l as [|x l IHl]; [done|].
  cbn [mbind list_bind]. rewrite length_app. cbn [length].
  change (list_bind _ _ (fun x0 => product ls ≫= (fun rest => [x0 :: rest])) l)
    with (l ≫= (fun x0 => product ls ≫= (fun rest => [x0 :: rest]))).
  rewrite IHl.
  assert (forall p : list (list A), length (p ≫= (fun rest => [x :: rest])) = length p) as ->.
  { intros p. induction p as [|y p IHp]; [done|].
    cbn [mbind list_bind]. simpl. f_equal. exact IHp. }
  simpl. lia.
Qed.

Lemma length_zip_cyclic {A} (l : list A) : length (zip_cyclic l) = length l.
Proof.
  destruct l as [|x l]; [done|]. rewrite zip_cyclic_cons.
  rewrite length_zip_with, length_app. cbn [length]. lia.
Qed.

(** X9: [cycle2circular_assemblies] returns, for a cycle whose consecutive
    nodes (the last and the first included) are all joined by edges, one
    assembly for every choice of one edge per step: their number is the
    product of the numbers of parallel edges, and each has one edge per node
    of the cycle.  When some step has no edge the lookup [self.G[u][v]]
    raises.  The store is not touched. *)
Theorem X9_cycle2circular_assemblies_counts_choices
    (self : Assembly) (cycle : list node) (s : store) (G : MultiDiGraph) :
  st_graphs s !! self_G self = Some G ->
  (forall l s', cycle2circular_assemblies self cycle s = (Some l, s') ->
     s' = s /\
     length l = foldr Nat.mul 1%nat
                  ((fun uv : node * node => length (keys_between G uv.1 uv.2))
                     <$> zip_cyclic cycle) /\
     Forall (fun a : assembly => length a = length cycle) l) /\
  ((cycle2circular_assemblies self cycle s).1 = None <->
   exists u v, (u, v) ∈ zip_cyclic cycle /\ keys_between G u v = []).
Proof.
  intros HG. rewrite (cycle2circular_assemblies_run _ _ _ _ HG). simpl.
  unfold cycle2circular_on.
  generalize (zip_cyclic cycle) (length_zip_cyclic cycle). intros pairs Hlen.
  set (f := fun uv : node * node =>
              ks ← adj G uv.1 uv.2; Some ((fun k : ekey => (uv.1, uv.2, k)) <$> (ks : list ekey))).
  assert (Hf : forall uv, f uv = match keys_between G uv.1 uv.2 with
                                 | [] => None
                                 | ks => Some ((fun k : ekey => (uv.1, uv.2, k)) <$> ks)
                                 end).
  { intros uv. unfold f, adj. by destruct (keys_between G uv.1 uv.2). }
  split.
  - intros l s' Hrun. destruct (mapM f pairs) as [combine|] eqn:Hc; [|done].
    simpl in Hrun. injection Hrun as <- <-. split; [done|].
    apply mapM_Some in Hc. split.
    + etrans; [apply length_product|]. f_equal.
      clear Hlen. induction Hc as [|uv c pairs combine Huv _ IH]; [done|].
      rewrite !fmap_cons. f_equal; [|exact IH].
      rewrite Hf in Huv. destruct (keys_between G uv.1 uv.2); [done|].
      injection Huv as <-. simpl. f_equal. apply length_fmap.
    + apply Forall_forall. intros a Ha. apply elem_of_product in Ha.
      apply Forall2_length in Ha. apply Forall2_length in Hc.
      etrans; [exact Ha|]. etrans; [symmetry; exact Hc|]. exact Hlen.
  - destruct (mapM f pairs) as [combine|] eqn:Hc; simpl.
    + split; [done|]. intros (u & v & Huv & Hnone).
      apply mapM_Some in Hc.
      apply list_elem_of_lookup in Huv as [i Hi].
      destruct (Forall2_lookup_l _ _ _ _ _ Hc Hi) as (c & _ & Hfc).
      rewrite Hf in Hfc. simpl in Hfc. by rewrite Hnone in Hfc.
    + split; [|done]. intros _. apply mapM_None, Exists_exists in Hc as (uv & Huv & Hnone).
      exists uv.1, uv.2. destruct uv as [u v]. split; [done|]. simpl.
      rewrite Hf in Hnone. simpl in Hnone. by destruct (keys_between G u v).
Qed.

Lemma X9_witness :
  (forall l s',
     cycle2circular_assemblies Reference.example_self [NInt 1; NInt 2; NInt 3]
       Reference.example_store = (Some l, s') ->
     s' = Reference.example_store /\
     length l = foldr Nat.mul 1%nat
                  ((fun uv : node * node => length (keys_between Reference.example_graph uv.1 uv.2))
                     <$> zip_cyclic [NInt 1; NInt 2; NInt 3]) /\
     Forall (fun a : assembly => length a = length [NInt 1; NInt 2; NInt 3]) l) /\
  ((cycle2circular_assemblies Reference.example_self [NInt 1; NInt 2; NInt 3]
      Reference.example_store).1 = None <->
   exists u v, (u, v) ∈ zip_cyclic [NInt 1; NInt 2; NInt 3] /\
               keys_between Reference.example_graph u v = []).
Proof.
  by apply (X9_cycle2circular_assemblies_counts_choices Reference.example_self
              [NInt 1; NInt 2; NInt 3] Reference.example_store Reference.example_graph).
Defined.

(** ** The graph built by the constructor *)

Lemma has_node_true (G : MultiDiGraph) (n : node) :
  has_node G n = true <-> n ∈ (g_nodes G).*1.
Proof. unfold has_node. apply bool_decide_eq_true. Qed.

Lemma has_edge_true (G : MultiDiGraph) (e : edge) :
  has_edge G e = true <-> e ∈ (g_edges G).*1.
Proof. unfold has_edge. apply bool_decide_eq_true. Qed.

Lemma add_node_known (n : node) (G : MultiDiGraph) :
  has_node G n = true -> add_node n G = G.
Proof. intros Hn. unfold add_node. by rewrite Hn. Qed.

(** [add_edge] between known nodes leaves the node table alone. *)
Lemma g_nodes_add_edge_known (u v : node) (k : ekey) (a : edge_attr) (G : MultiDiGraph) :
  has_node G u = true -> has_node G v = true ->
  g_nodes (add_edge u v k a G) = g_nodes G.
Proof.
  intros Hu Hv. unfold add_edge. rewrite (add_node_known u G Hu), (add_node_known v G Hv).
  by destruct (has_edge G (u, v, k)).
Qed.

Lemma has_edge_add_match_edges (cs : list (Z * Z * (location * location)))
    (G : MultiDiGraph) (e : edge) :
  has_edge (foldl (fun G c => add_match_edge c G) G cs) e = true
  <-> has_edge G e = true \/ e ∈ match_edge <$> cs.
Proof.
  revert G. induction cs as [|[[u v] l] cs IH]; intros G.
  - simpl. rewrite elem_of_nil. tauto.
  - cbn [foldl]. rewrite IH, fmap_cons, elem_of_cons.
    unfold add_match_edge at 1. rewrite has_edge_add_edge.
    change (match_edge (u, v, l)) with (NInt u, NInt v, edge_key_str u v l).
    case_decide; intuition congruence.
Qed.

Lemma edge_locations_add_match_edges (cs : list (Z * Z * (location * location)))
    (G : MultiDiGraph) (e : edge) :
  is_Some (edge_locations G e) \/ e ∈ match_edge <$> cs ->
  is_Some (edge_locations (foldl (fun G c => add_match_edge c G) G cs) e).
Proof.
  revert G. induction cs as [|[[u v] l] cs IH]; intros G.
  - simpl. rewrite elem_of_nil. tauto.
  - cbn [foldl]. rewrite fmap_cons, elem_of_cons.
    change (match_edge (u, v, l)) with (NInt u, NInt v, edge_key_str u v l).
    intros He. apply IH. unfold add_match_edge at 1. rewrite edge_locations_add_edge.
    case_decide; [by left|]. intuition congruence.
Qed.

Lemma g_nodes_add_match_edges (cs : list (Z * Z * (location * location)))
    (G : MultiDiGraph) :
  Forall (fun c => has_node G (NInt c.1.1) = true /\ has_node G (NInt c.1.2) = true) cs ->
  g_nodes (foldl (fun G c => add_match_edge c G) G cs) = g_nodes G.
Proof.
  revert G. induction cs as [|[[u v] l] cs IH]; intros G Hcs; [done|]. cbn [foldl].
  apply Forall_cons in Hcs as [[Hu Hv] Hcs]. simpl in Hu, Hv.
  assert (g_nodes (add_match_edge (u, v, l) G) = g_nodes G) as Hsame.
  { unfold add_match_edge. by apply g_nodes_add_edge_known. }
  rewrite IH; [done|].
  eapply Forall_impl; [exact Hcs|]. intros c. unfold has_node. by rewrite Hsame.
Qed.

(** The combinations of a match are the four signed versions of one pair. *)
Lemma match_combinations_nodes (m : match_t) (L R : Z) (first secnd : Dseqrecord)
    (cs : list (Z * Z * (location * location))) :
  match_combinations m L R first secnd = Some cs ->
  exists l1 l2 l3 l4, cs = [(L, R, l1); (R, L, l2); (- L, - R, l3); (- R, - L, l4)].
Proof.
  unfold match_combinations. destruct m as [[x y] len].
  intros Hcs. simplify_option_eq. by eexists _, _, _, _.
Qed.

Lemma fragment_index_opp (n : nat) (u : Z) : fragment_index n u -> fragment_index n (- u).
Proof. unfold fragment_index. lia. Qed.

Lemma overlap_graph_add_edges_from_match (n : nat) (m : match_t) (L R : Z)
    (first secnd : Dseqrecord) (G G' : MultiDiGraph) :
  overlap_graph n G ->
  fragment_index n L -> fragment_index n R -> Z.abs L <> Z.abs R ->
  add_edges_from_match m L R first secnd G = Some G' ->
  overlap_graph n G'.
Proof.
  intros HG HL HR HLR. unfold add_edges_from_match.
  destruct (match_combinations m L R first secnd) as [cs|] eqn:Hcs; [|done].
  destruct (match_combinations_nodes _ _ _ _ _ _ Hcs) as (l1 & l2 & l3 & l4 & ->).
  clear Hcs. intros HG'. apply Some_inj in HG'.
  set (e1 := (NInt L, NInt R, edge_key_str L R l1)).
  set (e2 := (NInt R, NInt L, edge_key_str R L l2)).
  set (e3 := (NInt (- L), NInt (- R), edge_key_str (- L) (- R) l3)).
  set (e4 := (NInt (- R), NInt (- L), edge_key_str (- R) (- L) l4)).
  assert (Hedge : forall e, has_edge G' e = true
                            <-> has_edge G e = true \/ e ∈ [e1; e2; e3; e4]).
  { intros e. rewrite <- HG'. apply has_edge_add_match_edges. }
  assert (Hlocs : forall e, is_Some (edge_locations G e) \/ e ∈ [e1; e2; e3; e4] ->
                            is_Some (edge_locations G' e)).
  { intros e He. rewrite <- HG'. apply edge_locations_add_match_edges. exact He. }
  clear HG'.
  assert (H1 : has_edge G' e1 = true) by (apply Hedge; right; rewrite !elem_of_cons; tauto).
  assert (H2 : has_edge G' e2 = true) by (apply Hedge; right; rewrite !elem_of_cons; tauto).
  assert (H3 : has_edge G' e3 = true) by (apply Hedge; right; rewrite !elem_of_cons; tauto).
  assert (H4 : has_edge G' e4 = true) by (apply Hedge; right; rewrite !elem_of_cons; tauto).
  pose proof (fragment_index_opp n L HL) as HL'.
  pose proof (fragment_index_opp n R HR) as HR'.
  intros e He. pose proof He as Hin. apply Hedge in Hin as [Hold|Hnew].
  - destruct (HG e Hold) as (u & v & Hu & Hv & Hiu & Hiv & Huv & Hloc & [k Hk] & [k' Hk']).
    exists u, v. split_and!; [done..| | |].
    + apply Hlocs. by left.
    + exists k. apply Hedge. by left.
    + exists k'. apply Hedge. by left.
  - pose proof (Hlocs e (or_intror Hnew)) as Hloc.
    apply list_elem_of_In in Hnew.
    destruct Hnew as [<-|[<-|[<-|[<-|[]]]]].
    + exists L, R. split_and!; [done..| |]; [by eexists|by eexists].
    + exists R, L. split_and!; [done|done|done|done|lia|done| |]; [by eexists|by eexists].
    + exists (- L), (- R). split_and!; [done|done|done|done|lia|done| |]; [by eexists|].
      rewrite !Z.opp_involutive. by eexists.
    + exists (- R), (- L). split_and!; [done|done|done|done|lia|done| |]; [by eexists|].
      rewrite !Z.opp_involutive. by eexists.
Qed.

Lemma g_nodes_add_edges_from_match (m : match_t) (L R : Z)
    (first secnd : Dseqrecord) (G G' : MultiDiGraph) :
  has_node G (NInt L) = true -> has_node G (NInt R) = true ->
  has_node G (NInt (- L)) = true -> has_node G (NInt (- R)) = true ->
  add_edges_from_match m L R first secnd G = Some G' ->
  g_nodes G' = g_nodes G.
Proof.
  intros HL HR HL' HR'. unfold add_edges_from_match.
  destruct (match_combinations m L R first secnd) as [cs|] eqn:Hcs; [|done].
  destruct (match_combinations_nodes _ _ _ _ _ _ Hcs) as (l1 & l2 & l3 & l4 & ->).
  intros HG'. apply Some_inj in HG'. rewrite <- HG'.
  apply g_nodes_add_match_edges. by repeat constructor.
Qed.

(** The loop over the matches of one pair of fragments keeps the nodes and
    the shape of the edges. *)
Lemma add_matches_invariant (n : nat) (matches : list match_t) (L R : Z)
    (first secnd : Dseqrecord) (G G' : MultiDiGraph) :
  has_node G (NInt L) = true -> has_node G (NInt R) = true ->
  has_node G (NInt (- L)) = true -> has_node G (NInt (- R)) = true ->
  fragment_index n L -> fragment_index n R -> Z.abs L <> Z.abs R ->
  overlap_graph n G ->
  add_matches matches L R first secnd G = Some G' ->
  g_nodes G' = g_nodes G /\ overlap_graph n G'.
Proof.
  intros HL HR HL' HR' HiL HiR HLR. unfold add_matches.
  revert G HL HR HL' HR'. induction matches as [|m matches IH]; intros G HL HR HL' HR' HG.
  - simpl. by intros [= <-].
  - cbn [foldl]. change (Some G ≫= _) with (add_edges_from_match m L R first secnd G).
    destruct (add_edges_from_match m L R first secnd G) as [G1|] eqn:HG1.
    + pose proof (g_nodes_add_edges_from_match _ _ _ _ _ _ _ HL HR HL' HR' HG1) as Hn.
      pose proof (overlap_graph_add_edges_from_match _ _ _ _ _ _ _ _ HG HiL HiR HLR HG1) as Ho.
      intros Hrest. destruct (IH G1) as [Hn' Ho']; try done;
        try (unfold has_node; rewrite Hn; done).
      split; [congruence|done].
    + intros Hrest. exfalso. clear -Hrest.
      induction matches as [|m' matches IH']; [done|]. by apply IH'.
Qed.

Lemma mapM_run_length {A B} (f : A -> M B) (l : list A) (s s' : store) (ys : list B) :
  mapM f l s = (Some ys, s') -> length ys = length l.
Proof.
  revert s ys. induction l as [|x l IH]; intros s ys; simpl.
  - by intros [= <- _].
  - rewrite bind_run. destruct (f x s) as [[y|] s1]; [|done].
    rewrite bind_run. destruct (mapM f l s1) as [[k|] s2] eqn:Hk; [|done].
    unfold mret, M_ret. intros [= <- <-]. simpl. f_equal. by eapply IH.
Qed.

(** The node-adding loops of the constructor append one node per record. *)
Lemma foldl_add_node_seq (name : nat -> node) (frags : list Dseqrecord) (k : nat)
    (G0 : MultiDiGraph) :
  (forall i j, name i = name j -> i = j) ->
  (forall i, (k <= i)%nat -> name i ∉ (g_nodes G0).*1) ->
  foldl (fun G '(i, f) => add_node_seq (name i) f G) G0
        (imap (fun i f => ((k + i)%nat, f)) frags)
  = Graph (g_nodes G0 ++ imap (fun i f => (name (k + i)%nat, Some f)) frags) (g_edges G0).
Proof.
  intros Hinj. revert k G0. induction frags as [|f frags IH]; intros k G0 Hfresh.
  - simpl. rewrite app_nil_r. by destruct G0.
  - rewrite !imap_cons. cbn [foldl]. rewrite Nat.add_0_r.
    assert (add_node_seq (name k) f G0
            = Graph (g_nodes G0 ++ [(name k, Some f)]) (g_edges G0)) as ->.
    { unfold add_node_seq, has_node. rewrite bool_decide_eq_false_2; [done|].
      by apply Hfresh. }
    rewrite (imap_ext _ (fun i f => ((S k + i)%nat, f))) by (intros; simpl; f_equal; lia).
    rewrite IH.
    + simpl. rewrite <- app_assoc. simpl. do 3 f_equal.
      apply imap_ext. intros i x _. simpl. do 2 f_equal. lia.
    + intros i Hi. simpl. rewrite fmap_app, elem_of_app. simpl.
      intros [Hin|Hin]; [by apply (Hfresh i); [lia|]|].
      apply list_elem_of_singleton in Hin. apply Hinj in Hin. lia.
Qed.

Lemma fst_imap_pair {A B C} (g : nat -> B) (h : A -> C) (l : list A) (k : nat) :
  (imap (fun i x => (g (k + i)%nat, h x)) l).*1 = g <$> List.seq k (length l).
Proof.
  revert k. induction l as [|x l IH]; intros k; [done|].
  rewrite imap_cons, fmap_cons. cbn [fst length List.seq]. rewrite fmap_cons.
  rewrite Nat.add_0_r. f_equal.
  rewrite <- IH. f_equal. apply imap_ext. intros i y _. simpl. do 2 f_equal. lia.
Qed.

Lemma fragment_nodes_names (frags rcs : list Dseqrecord) :
  (fragment_nodes frags rcs).*1
  = (NInt <$> ((fun i : nat => Z.of_nat i + 1) <$> List.seq 0 (length frags)))
    ++ (NInt <$> ((fun i : nat => - (Z.of_nat i + 1)) <$> List.seq 0 (length rcs))).
Proof.
  unfold fragment_nodes. rewrite fmap_app. f_equal.
  - rewrite <- list_fmap_compose.
    apply (fst_imap_pair (fun i => NInt (Z.of_nat i + 1)) Some frags 0).
  - rewrite <- list_fmap_compose.
    apply (fst_imap_pair (fun i => NInt (- (Z.of_nat i + 1))) Some rcs 0).
Qed.

Lemma mapM_node_int_ints (zs : list Z) : mapM node_int (NInt <$> zs) = Some zs.
Proof.
  apply mapM_Some. induction zs as [|z zs IH]; constructor; [done|exact IH].
Qed.

Lemma filter_all {A} (P : A -> Prop) `{forall x, Decision (P x)} (l : list A) :
  Forall P l -> filter P l = l.
Proof.
  induction 1 as [|x l Hx _ IH]; [done|]. rewrite filter_cons_True by done. by f_equal.
Qed.

Lemma filter_none {A} (P : A -> Prop) `{forall x, Decision (P x)} (l : list A) :
  Forall (fun x => ~ P x) l -> filter P l = [].
Proof.
  induction 1 as [|x l Hx _ IH]; [done|]. by rewrite filter_cons_False.
Qed.

(** [itertools.combinations(l, 2)] pairs an element with a later one. *)
Lemma elem_of_combinations2 {A} (l : list A) (x y : A) :
  (x, y) ∈ combinations2 l ->
  exists i j : nat, (i < j)%nat /\ l !! i = Some x /\ l !! j = Some y.
Proof.
  induction l as [|a l IH]; simpl; [by intros ?%elem_of_nil|].
  rewrite elem_of_app. intros [Hin|Hin].
  - apply list_elem_of_fmap in Hin as (b & [= -> ->] & Hb).
    apply list_elem_of_lookup in Hb as [j Hj]. exists 0%nat, (S j). split; [lia|done].
  - destruct (IH Hin) as (i & j & Hij & Hi & Hj). exists (S i), (S j). split; [lia|done].
Qed.

Section Constructor.
Variable str_upper : list ascii -> list ascii.
Variable reverse_complement : list ascii -> list ascii.
Variable record_reverse_complement : Dseqrecord -> M Dseqrecord.
Variable algorithm : list ascii -> list ascii -> Z -> list match_t.

(** The loop of the constructor over the pairs of fragments keeps the node
    table and the shape of the edges. *)
Lemma init_pairs_invariant (n : nat) (lim : Z) (N : list (node * option Dseqrecord))
    (ps : list (Z * Z)) (G G' : MultiDiGraph) :
  Forall (fun p : Z * Z => 1 <= p.1 <= Z.of_nat n /\ 1 <= p.2 <= Z.of_nat n /\ p.1 <> p.2) ps ->
  (forall z, fragment_index n z -> NInt z ∈ N.*1) ->
  g_nodes G = N -> overlap_graph n G ->
  foldl (fun acc '(index_first, index_secnd) =>
           G ← acc;
           first ← node_seq G (NInt index_first);
           secnd ← node_seq G (NInt index_secnd);
           let matches_fwd :=
             algorithm (str_upper (seq first)) (str_upper (seq secnd)) lim in
           G ← add_matches matches_fwd index_first index_secnd first secnd G;
           let matches_rvs :=
             algorithm (str_upper (seq first))
                       (reverse_complement (str_upper (seq secnd))) lim in
           add_matches matches_rvs index_first (- index_secnd) first secnd G)
        (Some G) ps = Some G' ->
  g_nodes G' = N /\ overlap_graph n G'.
Proof.
  intros Hps HN. revert G. induction ps as [|[x y] ps IH]; intros G HG Ho.
  - simpl. by intros [= <-].
  - apply Forall_cons in Hps as [(Hx & Hy & Hxy) Hps]. simpl in Hx, Hy, Hxy.
    cbn [foldl].
    assert (Hnode : forall z G0, g_nodes G0 = N -> fragment_index n z ->
                                 has_node G0 (NInt z) = true).
    { intros z G0 HG0 Hz. apply has_node_true. rewrite HG0. by apply HN. }
    assert (Hnone : forall qs,
              foldl (fun acc '(index_first, index_secnd) =>
                       G ← acc;
                       first ← node_seq G (NInt index_first);
                       secnd ← node_seq G (NInt index_secnd);
                       let matches_fwd :=
                         algorithm (str_upper (seq first)) (str_upper (seq secnd)) lim in
                       G ← add_matches matches_fwd index_first index_secnd first secnd G;
                       let matches_rvs :=
                         algorithm (str_upper (seq first))
                                   (reverse_complement (str_upper (seq secnd))) lim in
                       add_matches matches_rvs index_first (- index_secnd) first secnd G)
                    None qs = None).
    { intros qs. induction qs as [|[a b] qs IHq]; [done|]. exact IHq. }
    assert (Hix : fragment_index n x) by (unfold fragment_index; lia).
    assert (Hiy : fragment_index n y) by (unfold fragment_index; lia).
    pose proof (fragment_index_opp _ _ Hix) as Hix'.
    pose proof (fragment_index_opp _ _ Hiy) as Hiy'.
    cbn [mbind option_bind].
    destruct (node_seq G (NInt x)) as [first|]; cbn [mbind option_bind];
      [|by rewrite Hnone].
    destruct (node_seq G (NInt y)) as [secnd|]; cbn [mbind option_bind];
      [|by rewrite Hnone].
    destruct (add_matches _ x y first secnd G) as [G1|] eqn:HG1; cbn [mbind option_bind];
      [|by rewrite Hnone].
    destruct (add_matches_invariant n _ _ _ _ _ _ _
                (Hnode x G HG Hix) (Hnode y G HG Hiy)
                (Hnode (- x) G HG Hix') (Hnode (- y) G HG Hiy')
                Hix Hiy ltac:(lia) Ho HG1) as [Hn1 Ho1].
    assert (HG1N : g_nodes G1 = N) by congruence.
    destruct (add_matches _ x (- y) first secnd G1) as [G2|] eqn:HG2;
      [|by rewrite Hnone].
    assert (Hiyy : has_node G1 (NInt (- - y)) = true).
    { rewrite Z.opp_involutive. by apply Hnode. }
    destruct (add_matches_invariant n _ _ _ _ _ _ _
                (Hnode x G1 HG1N Hix) (Hnode (- y) G1 HG1N Hiy')
                (Hnode (- x) G1 HG1N Hix') Hiyy
                Hix Hiy' ltac:(lia) Ho1 HG2) as [Hn2 Ho2].
    apply IH; [done|congruence|done].
Qed.

Lemma Assembly_init_graph (frags : list Dseqrecord) (lim : Z) (ufo uaf : bool)
    (s s' : store) (self : Assembly) :
  Assembly_init str_upper reverse_complement record_reverse_complement
    frags lim algorithm ufo uaf s = (Some self, s') ->
  exists G rcs s1,
    mapM record_reverse_complement frags s = (Some rcs, s1) /\
    length rcs = length frags /\
    s' = Store (st_graphs s1 ++ [G]) (st_feats s1) /\
    self = Assembly_ (length (st_graphs s1)) frags lim ufo uaf /\
    g_nodes G = fragment_nodes frags rcs /\
    overlap_graph (length frags) G.
Proof.
  unfold Assembly_init. rewrite bind_run.
  destruct (mapM record_reverse_complement frags s) as [[rcs|] s1] eqn:Hrcs; [|done].
  pose proof (mapM_run_length _ _ _ _ _ Hrcs) as Hlen.
  pose proof (foldl_add_node_seq (fun i => NInt (Z.of_nat i + 1)) frags 0 empty_graph) as H1.
  cbv beta in H1. simpl (0 + _)%nat in H1.
  pose proof (foldl_add_node_seq (fun i => NInt (- (Z.of_nat i + 1))) rcs 0
                (Graph (imap (fun i f => (NInt (Z.of_nat i + 1), Some f)) frags) [])) as H2.
  cbv beta in H2. simpl (0 + _)%nat in H2.
  rewrite H1, app_nil_l in *.
  - simpl g_nodes. simpl g_edges. rewrite H2.
    + simpl g_nodes. simpl g_edges.
      change (imap _ frags ++ imap _ rcs) with (fragment_nodes frags rcs).
      rewrite bind_run. unfold liftO at 1.
      rewrite fragment_nodes_names, <- fmap_app, mapM_node_int_ints.
      rewrite filter_app, filter_all, filter_none, app_nil_r.
      * rewrite bind_run. unfold liftO at 1.
        match goal with |- context [foldl ?f ?a ?l] => destruct (foldl f a l) as [G|] eqn:HG end;
          [|done].
        rewrite bind_run. unfold new_graph at 1. unfold mret, M_ret.
        intros [= <- <-]. exists G, rcs, s1.
        split; [done|]. split; [done|]. split; [done|]. split; [done|].
        eapply (init_pairs_invariant (length frags) lim (fragment_nodes frags rcs) _
                  (Graph (fragment_nodes frags rcs) []) G); [| |done| |exact HG].
        -- apply Forall_forall. intros [x y] Hxy.
           apply elem_of_combinations2 in Hxy as (i & j & Hij & Hi & Hj).
           apply list_lookup_fmap_Some in Hi as (i' & -> & Hi').
           apply list_lookup_fmap_Some in Hj as (j' & -> & Hj').
           apply lookup_seq in Hi' as [-> Hi'], Hj' as [-> Hj']. simpl. lia.
        -- intros z Hz. rewrite fragment_nodes_names, <- fmap_app.
           apply list_elem_of_fmap. exists z. split; [done|].
           apply elem_of_app. unfold fragment_index in Hz.
           destruct (decide (0 < z)).
           ++ left. apply list_elem_of_fmap. exists (Z.to_nat (z - 1)). split; [lia|].
              apply list_elem_of_In, in_seq. lia.
           ++ right. apply list_elem_of_fmap. exists (Z.to_nat (- z - 1)). split; [lia|].
              apply list_elem_of_In, in_seq. lia.
        -- intros e He. apply has_edge_true in He. simpl in He. by apply elem_of_nil in He.
      * apply Forall_forall. intros x (i & -> & _)%list_elem_of_fmap. lia.
      * apply Forall_forall. intros x (i & -> & _)%list_elem_of_fmap. lia.
    + intros i j [=]. lia.
    + intros i _. simpl.
      intros Hin.
      pose proof (fst_imap_pair (fun i => NInt (Z.of_nat i + 1)) (@Some Dseqrecord) frags 0) as Hf.
      simpl in Hf. rewrite Hf in Hin.
      apply list_elem_of_fmap in Hin as (k & [=] & _). lia.
  - intros i j [=]. lia.
  - intros i _. simpl. apply not_elem_of_nil.
Qed.
End Constructor.

Lemma assoc_imap_name {A V} (name : nat -> node) (v : A -> V) (l : list A) (k i : nat) :
  (forall i j, name i = name j -> i = j) ->
  assoc (name (k + i)%nat) (imap (fun j x => (name (k + j)%nat, v x)) l) = v <$> l !! i.
Proof.
  intros Hinj. revert k i. induction l as [|x l IH]; intros k i; [done|].
  rewrite imap_cons. cbn [assoc]. rewrite Nat.add_0_r.
  destruct i as [|i].
  - rewrite Nat.add_0_r. by rewrite decide_True.
  - rewrite decide_False by (intros ?%Hinj; lia). simpl.
    rewrite <- (IH (S k) i).
    replace (k + S i)%nat with (S k + i)%nat by lia. f_equal.
    apply imap_ext. intros j y _. simpl. do 2 f_equal. lia.
Qed.

Lemma node_seq_fragment_nodes (frags rcs : list Dseqrecord) (E : list (edge * edge_attr))
    (i : nat) :
  (forall f, frags !! i = Some f ->
             node_seq (Graph (fragment_nodes frags rcs) E) (NInt (Z.of_nat i + 1)) = Some f) /\
  (forall r, rcs !! i = Some r ->
             node_seq (Graph (fragment_nodes frags rcs) E) (NInt (- (Z.of_nat i + 1))) = Some r).
Proof.
  unfold node_seq, fragment_nodes. simpl. rewrite !assoc_app.
  pose proof (assoc_imap_name (fun i => NInt (Z.of_nat i + 1)) (@Some Dseqrecord) frags 0 i) as Hp.
  pose proof (assoc_imap_name (fun i => NInt (- (Z.of_nat i + 1))) (@Some Dseqrecord) rcs 0 i) as Hn.
  simpl in Hp, Hn. split.
  - intros f Hf. rewrite Hp by (intros ?? [=]; lia). by rewrite Hf.
  - intros r Hr.
    assert (assoc (NInt (- (Z.of_nat i + 1)))
              (imap (fun i f => (NInt (Z.of_nat i + 1), Some f)) frags) = None) as ->.
    { apply assoc_None.
      pose proof (fst_imap_pair (fun i => NInt (Z.of_nat i + 1)) (@Some Dseqrecord) frags 0) as Hf.
      simpl in Hf. rewrite Hf. intros (k & [=] & _)%list_elem_of_fmap. lia. }
    rewrite Hn by (intros ?? [=]; lia). by rewrite Hr.
Qed.

Section ConstructorFacts.
Variable str_upper : list ascii -> list ascii.
Variable reverse_complement : list ascii -> list ascii.
Variable record_reverse_complement : Dseqrecord -> M Dseqrecord.
Variable algorithm : list ascii -> list ascii -> Z -> list match_t.

(** X10: a constructed Assembly keeps the fragment list and the options it
    was given, and its graph has exactly the nodes 1..n and -1..-n for n
    fragments: node [i+1] carries the fragment at index [i] and node
    [-(i+1)] the reverse complement that was computed for it.  Adding the
    edges adds no node. *)
Theorem X10_constructor_nodes (frags : list Dseqrecord) (lim : Z) (ufo uaf : bool)
    (s s' : store) (self : Assembly) :
  Assembly_init str_upper reverse_complement record_reverse_complement
    frags lim algorithm ufo uaf s = (Some self, s') ->
  fragments self = frags /\ limit self = lim /\
  use_fragment_order self = ufo /\ use_all_fragments self = uaf /\
  exists G rcs,
    st_graphs s' !! self_G self = Some G /\
    (mapM record_reverse_complement frags s).1 = Some rcs /\
    length (g_nodes G) = (2 * length frags)%nat /\
    (forall x, has_node G x = true
               <-> exists z, x = NInt z /\ 1 <= Z.abs z <= Z.of_nat (length frags)) /\
    (forall (i : nat) f, frags !! i = Some f ->
                         node_seq G (NInt (Z.of_nat i + 1)) = Some f) /\
    (forall (i : nat) r, rcs !! i = Some r ->
                         node_seq G (NInt (- (Z.of_nat i + 1))) = Some r).
Proof.
  intros Hinit.
  destruct (Assembly_init_graph _ _ _ _ _ _ _ _ _ _ _ Hinit)
    as (G & rcs & s1 & Hrcs & Hlen & -> & -> & Hnodes & _).
  simpl. split_and!; try done.
  exists G, rcs. split_and!.
  - by rewrite list_lookup_middle.
  - by rewrite Hrcs.
  - rewrite Hnodes. unfold fragment_nodes. rewrite length_app, !length_imap. lia.
  - intros x. rewrite has_node_true, Hnodes, fragment_nodes_names, <- fmap_app.
    rewrite list_elem_of_fmap. rewrite Hlen. split.
    + intros (z & -> & Hz). exists z. split; [done|].
      apply elem_of_app in Hz as [Hz|Hz];
        apply list_elem_of_fmap in Hz as (i & -> & Hi);
        apply list_elem_of_In, in_seq in Hi; lia.
    + intros (z & -> & Hz). exists z. split; [done|]. apply elem_of_app.
      destruct (decide (0 < z)).
      * left. apply list_elem_of_fmap. exists (Z.to_nat (z - 1)). split; [lia|].
        apply list_elem_of_In, in_seq. lia.
      * right. apply list_elem_of_fmap. exists (Z.to_nat (- z - 1)). split; [lia|].
        apply list_elem_of_In, in_seq. lia.
  - intros i f Hf. destruct G as [N E]. simpl in Hnodes. subst N.
    by apply node_seq_fragment_nodes.
  - intros i r Hr. destruct G as [N E]. simpl in Hnodes. subst N.
    by apply node_seq_fragment_nodes.
Qed.

(** X11: in the graph of a constructed Assembly every edge joins two
    different fragments (never a fragment with itself or with its own
    reverse complement), its end nodes are fragment nodes, it carries its
    ['locations'], and it comes with an edge in the opposite direction and
    with an edge between the reverse complements of its end nodes. *)
Theorem X11_constructor_edges (frags : list Dseqrecord) (lim : Z) (ufo uaf : bool)
    (s s' : store) (self : Assembly) :
  Assembly_init str_upper reverse_complement record_reverse_complement
    frags lim algorithm ufo uaf s = (Some self, s') ->
  exists G, st_graphs s' !! self_G self = Some G /\ overlap_graph (length frags) G.
Proof.
  intros Hinit.
  destruct (Assembly_init_graph _ _ _ _ _ _ _ _ _ _ _ Hinit)
    as (G & rcs & s1 & Hrcs & Hlen & -> & -> & _ & Hedges).
  exists G. split; [|done]. simpl. by rewrite list_lookup_middle.
Qed.
End ConstructorFacts.

Lemma X10_witness :
  fragments Reference.example_self = Reference.example_fragments /\
  limit Reference.example_self = 5 /\
  use_fragment_order Reference.example_self = false /\
  use_all_fragments Reference.example_self = false /\
  exists G rcs,
    st_graphs Reference.example_store !! self_G Reference.example_self = Some G /\
    (mapM Reference.record_reverse_complement Reference.example_fragments
       Reference.empty_store).1 = Some rcs /\
    length (g_nodes G) = (2 * length Reference.example_fragments)%nat /\
    (forall x, has_node G x = true
               <-> exists z, x = NInt z /\
                             1 <= Z.abs z <= Z.of_nat (length Reference.example_fragments)) /\
    (forall (i : nat) f, Reference.example_fragments !! i = Some f ->
                         node_seq G (NInt (Z.of_nat i + 1)) = Some f) /\
    (forall (i : nat) r, rcs !! i = Some r ->
                         node_seq G (NInt (- (Z.of_nat i + 1))) = Some r).
Proof.
  apply (X10_constructor_nodes Reference.str_upper Reference.reverse_complement
           Reference.record_reverse_complement Reference.common_sub_strings
           Reference.example_fragments 5 false false Reference.empty_store).
  vm_compute. reflexivity.
Defined.

Lemma X11_witness :
  exists G, st_graphs Reference.example_store !! self_G Reference.example_self = Some G /\
            overlap_graph (length Reference.example_fragments) G.
Proof.
  apply (X11_constructor_edges Reference.str_upper Reference.reverse_complement
           Reference.record_reverse_complement Reference.common_sub_strings
           Reference.example_fragments 5 false false Reference.empty_store).
  vm_compute. reflexivity.
Defined.

(** ** Adding the same match again *)

Lemma has_node_add_node (n x : node) (G : MultiDiGraph) :
  has_node (add_node n G) x = true <-> has_node G x = true \/ x = n.
Proof.
  unfold add_node. destruct (has_node G n) eqn:Hn.
  - split; [by left|]. intros [?| ->]; done.
  - rewrite !has_node_true. simpl. rewrite fmap_app, elem_of_app. simpl.
    by rewrite list_elem_of_singleton.
Qed.

Lemma g_nodes_add_edge (u v : node) (k : ekey) (a : edge_attr) (G : MultiDiGraph) :
  g_nodes (add_edge u v k a G) = g_nodes (add_node v (add_node u G)).
Proof. unfold add_edge. by destruct (has_edge _ _). Qed.

Lemma has_node_add_edge (u v : node) (k : ekey) (a : edge_attr) (G : MultiDiGraph) (x : node) :
  has_node (add_edge u v k a G) x = true <-> has_node G x = true \/ x = u \/ x = v.
Proof.
  unfold has_node at 1. rewrite g_nodes_add_edge.
  change (bool_decide _) with (has_node (add_node v (add_node u G)) x).
  rewrite !has_node_add_node. tauto.
Qed.

(** The entries of the edge table after [add_edge]. *)
Lemma elem_of_edges_add_edge (u v : node) (k : ekey) (l : location * location)
    (G : MultiDiGraph) (x : edge * edge_attr) :
  x ∈ g_edges (add_edge u v k (Some l) G) ->
  (x ∈ g_edges G /\ x.1 <> (u, v, k)) \/ x = ((u, v, k), Some l).
Proof.
  unfold add_edge. rewrite !has_edge_add_node.
  destruct (has_edge G (u, v, k)) eqn:He; simpl; rewrite !g_edges_add_node.
  - intros (y & -> & Hy)%list_elem_of_fmap. case_decide as Hk.
    + right. by rewrite Hk.
    + by left.
  - rewrite elem_of_app, list_elem_of_singleton. intros [Hx| ->]; [left|by right].
    split; [done|]. intros Hk. apply not_true_iff_false in He. apply He.
    apply has_edge_true, list_elem_of_fmap. by exists x.
Qed.

Lemma settled_add_edge (u v : node) (k : ekey) (l : location * location) (G : MultiDiGraph) :
  settled (add_edge u v k (Some l) G) (u, v, k) l.
Proof.
  unfold settled, e_src, e_tgt. simpl. split_and!.
  - apply has_node_add_edge. tauto.
  - apply has_node_add_edge. tauto.
  - apply has_edge_true. rewrite has_edge_add_edge. by rewrite decide_True.
  - intros x Hx Hk. apply elem_of_edges_add_edge in Hx as [[_ Hne]| ->]; [done|done].
Qed.

Lemma settled_add_other_edge (u v : node) (k : ekey) (l l' : location * location)
    (G : MultiDiGraph) (e : edge) :
  e <> (u, v, k) -> settled G e l -> settled (add_edge u v k (Some l') G) e l.
Proof.
  intros Hne (Hs & Ht & He & Hall). unfold settled. split_and!.
  - apply has_node_add_edge. tauto.
  - apply has_node_add_edge. tauto.
  - apply has_edge_true. rewrite has_edge_add_edge. rewrite decide_False by done.
    by apply has_edge_true.
  - intros x Hx Hk. apply elem_of_edges_add_edge in Hx as [[Hx _]| ->]; [by apply Hall|].
    simpl in Hk. congruence.
Qed.

(** Adding an edge that is already there with the same locations changes
    nothing. *)
Lemma add_edge_settled (u v : node) (k : ekey) (l : location * location) (G : MultiDiGraph) :
  settled G (u, v, k) l -> add_edge u v k (Some l) G = G.
Proof.
  intros (Hs & Ht & He & Hall). unfold e_src, e_tgt in Hs, Ht. simpl in Hs, Ht.
  unfold add_edge. rewrite (add_node_known u G Hs), (add_node_known v G Ht).
  apply has_edge_true in He. rewrite He. destruct G as [N E]. simpl in *. f_equal.
  rewrite <- (list_fmap_id E) at 2. apply list_fmap_ext. intros i x Hx. simpl.
  case_decide as Hk; [|done].
  destruct x as [e a]. simpl in *. subst e.
  pose proof (Hall _ (list_elem_of_lookup_2 _ _ _ Hx) eq_refl) as Ha. simpl in Ha.
  by rewrite Ha.
Qed.

Lemma foldl_four {A B} (f : A -> B -> A) (a : A) (b1 b2 b3 b4 : B) :
  foldl f a [b1; b2; b3; b4] = f (f (f (f a b1) b2) b3) b4.
Proof. reflexivity. Qed.

Lemma add_match_edge_eq (u v : Z) (l : location * location) (G : MultiDiGraph) :
  add_match_edge (u, v, l) G = add_edge (NInt u) (NInt v) (edge_key_str u v l) (Some l) G.
Proof. reflexivity. Qed.

(** X12: [add_edges_from_match] is idempotent: recording the same match
    between two different fragments a second time leaves the graph exactly
    as the first call left it; no edge is duplicated. *)
Theorem X12_add_edges_from_match_idempotent (m : match_t) (L R : Z)
    (first secnd : Dseqrecord) (G G1 : MultiDiGraph) :
  L <> R -> L <> - R ->
  add_edges_from_match m L R first secnd G = Some G1 ->
  add_edges_from_match m L R first secnd G1 = Some G1.
Proof.
  intros HLR HLR'. unfold add_edges_from_match.
  destruct (match_combinations m L R first secnd) as [cs|] eqn:Hcs; [|done].
  destruct (match_combinations_nodes _ _ _ _ _ _ Hcs) as (l1 & l2 & l3 & l4 & ->).
  clear Hcs. cbn [mbind option_bind]. rewrite !foldl_four. cbv beta.
  rewrite !add_match_edge_eq.
  intros HG1. apply Some_inj in HG1. f_equal.
  set (k1 := edge_key_str L R l1) in *. set (k2 := edge_key_str R L l2) in *.
  set (k3 := edge_key_str (- L) (- R) l3) in *. set (k4 := edge_key_str (- R) (- L) l4) in *.
  clearbody k1 k2 k3 k4.
  assert (S1 : settled G1 (NInt L, NInt R, k1) l1).
  { rewrite <- HG1. do 3 (apply settled_add_other_edge; [intros [=]; lia|]).
    apply settled_add_edge. }
  assert (S2 : settled G1 (NInt R, NInt L, k2) l2).
  { rewrite <- HG1. do 2 (apply settled_add_other_edge; [intros [=]; lia|]).
    apply settled_add_edge. }
  assert (S3 : settled G1 (NInt (- L), NInt (- R), k3) l3).
  { rewrite <- HG1. apply settled_add_other_edge; [intros [=]; lia|].
    apply settled_add_edge. }
  assert (S4 : settled G1 (NInt (- R), NInt (- L), k4) l4).
  { rewrite <- HG1. apply settled_add_edge. }
  clear HG1.
  etrans; [|exact (add_edge_settled _ _ _ _ _ S4)]. f_equal.
  etrans; [|exact (add_edge_settled _ _ _ _ _ S3)]. f_equal.
  etrans; [|exact (add_edge_settled _ _ _ _ _ S2)]. f_equal.
  exact (add_edge_settled _ _ _ _ _ S1).
Qed.

Lemma X12_witness :
  add_edges_from_match (8, 1, 6) 1 2
    (Reference.dseqrecord "AacgatCAtgctcc") (Reference.dseqrecord "TtgctccTAAattctgc")
    Reference.example_graph = Some Reference.example_graph.
Proof.
  apply (X12_add_edges_from_match_idempotent (8, 1, 6) 1 2 _ _ Reference.example_graph);
    [lia|lia|by vm_compute].
Defined.

(** ** The anchors of the linear search *)

Lemma has_edge_add_edge_any (u v : node) (k : ekey) (a : edge_attr) (G : MultiDiGraph)
    (e : edge) :
  has_edge (add_edge u v k a G) e = true <-> has_edge G e = true \/ e = (u, v, k).
Proof.
  unfold add_edge. rewrite !has_edge_add_node.
  destruct (has_edge G (u, v, k)) eqn:He.
  - rewrite has_edge_true. simpl. rewrite !g_edges_add_node.
    rewrite <- list_fmap_compose.
    rewrite (list_fmap_ext _ fst (g_edges G)) by (intros i x _; simpl; by case_decide).
    rewrite <- has_edge_true. split; [by left|]. by intros [?| ->].
  - rewrite !has_edge_true. simpl. rewrite !g_edges_add_node.
    rewrite fmap_app, elem_of_app. simpl. by rewrite list_elem_of_singleton.
Qed.

Section Evolves.
Context (g : gref) (R : MultiDiGraph -> MultiDiGraph -> Prop).
Hypothesis R_refl : forall X, R X X.
Hypothesis R_trans : forall X Y Z, R X Y -> R Y Z -> R X Z.

Lemma evolves_ret {A} (a : A) : evolves g R (mret a).
Proof. intros gs fs X _. by exists (Some a), X. Qed.

Lemma evolves_liftO {A} (o : option A) : evolves g R (liftO o).
Proof. intros gs fs X _. by exists o, X. Qed.

Lemma evolves_get_graph (g' : gref) : evolves g R (get_graph g').
Proof. intros gs fs X _. by eexists _, X. Qed.

Lemma evolves_update_graph (f : MultiDiGraph -> MultiDiGraph) :
  (forall X, R X (f X)) -> evolves g R (update_graph g f).
Proof.
  intros Hf gs fs X ->. exists (Some ()), (f X). split; [|done].
  unfold update_graph. simpl.
  rewrite lookup_app_r by lia. rewrite Nat.sub_diag. simpl.
  do 2 f_equal. rewrite insert_app_r_alt by lia. by rewrite Nat.sub_diag.
Qed.

Lemma evolves_bind {A B} (c : M A) (f : A -> M B) :
  evolves g R c -> (forall a, evolves g R (f a)) -> evolves g R (c ≫= f).
Proof.
  intros Hc Hf gs fs X Hg. rewrite bind_run.
  destruct (Hc gs fs X Hg) as (r & X' & -> & HR). destruct r as [a|].
  - destruct (Hf a gs fs X' Hg) as (r' & X'' & -> & HR').
    exists r', X''. split; [done|]. by eapply R_trans.
  - by exists None, X'.
Qed.

Lemma evolves_bind_liftO {A B} (o : option A) (f : A -> M B) :
  (forall a, o = Some a -> evolves g R (f a)) -> evolves g R (liftO o ≫= f).
Proof.
  intros Hf gs fs X Hg. rewrite bind_run. unfold liftO. destruct o as [a|].
  - by apply Hf.
  - by exists None, X.
Qed.

Lemma evolves_for_each {A} (l : list A) (body : A -> M unit) :
  (forall x, x ∈ l -> evolves g R (body x)) -> evolves g R (for_each l body).
Proof.
  induction l as [|x l IH]; intros Hb; simpl.
  - apply evolves_ret.
  - apply evolves_bind; [apply Hb; left|]. intros _. apply IH.
    intros y Hy. apply Hb. by right.
Qed.
End Evolves.

Lemma anchored_refl (self : Assembly) (X : MultiDiGraph) : anchored self X X.
Proof. intros e He. by left. Qed.

Lemma anchored_trans (self : Assembly) (X Y Z : MultiDiGraph) :
  anchored self X Y -> anchored self Y Z -> anchored self X Z.
Proof.
  intros HXY HYZ e He. destruct (HYZ e He) as [HY|Ha]; [|by right]. by apply HXY.
Qed.

Lemma anchored_add_node (self : Assembly) (n : node) (X : MultiDiGraph) :
  anchored self X (add_node n X).
Proof. intros e He. left. by rewrite has_edge_add_node in He. Qed.

Lemma anchored_add_edge_nokey (self : Assembly) (u v : node) (X : MultiDiGraph) :
  (forall k, anchor_edge self (u, v, k)) -> anchored self X (add_edge_nokey u v X).
Proof.
  intros Ha e He. unfold add_edge_nokey in He.
  apply has_edge_add_edge_any in He as [He| ->]; [by left|]. right. apply Ha.
Qed.

(** The graph that the linear search enumerates has the edges of the
    Assembly's graph and anchors, nothing else. *)
Lemma add_anchors_anchored (self : Assembly) (g : gref) :
  evolves g (anchored self) (add_anchors self g).
Proof.
  pose proof (anchored_refl self) as Hrefl. pose proof (anchored_trans self) as Htrans.
  unfold add_anchors.
  apply evolves_bind; [done| |intros _].
  { apply evolves_update_graph. apply anchored_add_node. }
  apply evolves_bind; [done| |intros _].
  { apply evolves_update_graph. apply anchored_add_node. }
  destruct (use_fragment_order self) eqn:Hufo.
  - repeat (apply evolves_bind; [done| |intros _]);
      apply evolves_update_graph; intros X; apply anchored_add_edge_nokey; intros k;
      unfold anchor_edge, e_src, e_tgt; rewrite Hufo; simpl; tauto.
  - apply evolves_bind; [done|by apply evolves_get_graph|intros Gc].
    apply evolves_for_each; [done..|]. intros node Hnode.
    apply list_elem_of_filter in Hnode as [Hint _].
    simpl. apply evolves_bind_liftO; [done|]. intros pos Hpos.
    apply evolves_bind; [done| |intros _].
    + destruct pos; [|by apply evolves_ret].
      apply evolves_update_graph. intros X. apply anchored_add_edge_nokey. intros k.
      unfold anchor_edge, e_src, e_tgt. rewrite Hufo. simpl. left. split; [done|].
      destruct node as [z|]; [|done]. injection Hpos as Hz.
      apply bool_decide_eq_true in Hz. exists z. split; [done|lia].
    + apply evolves_update_graph. intros X. apply anchored_add_edge_nokey. intros k.
      unfold anchor_edge, e_src, e_tgt. rewrite Hufo. simpl. by right.
Qed.

(** ** Linear assemblies are paths of the graph *)

Lemma py_slice_inner {A} (x y : A) (q : list A) :
  py_slice (Some 1) (Some (-1)) (x :: q ++ [y]) = q.
Proof.
  unfold py_slice, py_index. cbn [default from_option]. unfold id.
  destruct (decide (1 < 0)); [lia|]. destruct (decide (-1 < 0)); [|lia].
  cbn [length]. rewrite length_app. cbn [length].
  rewrite Z.min_l by lia. rewrite Z.max_l by lia.
  change (Z.to_nat 1) with 1%nat. cbn [drop]. rewrite drop_0.
  rewrite take_app_length'; [done|]. lia.
Qed.

Lemma py_slice_inner_inv {A} (p : list A) :
  py_slice (Some 1) (Some (-1)) p <> [] ->
  exists x y, p = x :: py_slice (Some 1) (Some (-1)) p ++ [y].
Proof.
  destruct p as [|x p]; [done|].
  destruct p as [|z p _] using rev_ind; [done|].
  intros _. exists x, z. by rewrite py_slice_inner.
Qed.

Lemma get_linear_assemblies_anchored
    (all_simple_edge_paths : MultiDiGraph -> node -> node -> list (list edge))
    (self : Assembly) (s s' : store) (l : list assembly) :
  get_linear_assemblies all_simple_edge_paths self s = (Some l, s') ->
  exists G Gc cands,
    st_graphs s !! self_G self = Some G /\
    anchored self G Gc /\
    filter_opt (validate_on G self)
      (py_slice (Some 1) (Some (-1))
         <$> all_simple_edge_paths Gc (NStr "begin") (NStr "end")) = Some cands /\
    l = remove_subassemblies cands.
Proof.
  unfold get_linear_assemblies. rewrite bind_run. unfold get_graph at 1. simpl.
  destruct (st_graphs s !! self_G self) as [G|] eqn:HG; [|done].
  rewrite bind_run. unfold new_graph at 1. simpl. rewrite bind_run.
  destruct (add_anchors_anchored self (length (st_graphs s)) (st_graphs s) (st_feats s) G eq_refl)
    as (r & Gc & -> & Hanch).
  destruct r as [[]|]; [|done].
  rewrite bind_run. unfold get_graph at 1. simpl.
  rewrite lookup_app_r by lia. rewrite Nat.sub_diag. simpl.
  rewrite bind_run.
  erewrite filterM_pure; last first.
  { intros a. apply validate_assembly_run. simpl.
    rewrite lookup_app_l; [done|]. by eapply lookup_lt_Some. }
  destruct (filter_opt _ _) as [cands|] eqn:Hc; [|done].
  intros [= <- <-]. by exists G, Gc, cands.
Qed.

(** No edge of the anchored copy enters ['begin'] or leaves ['end']. *)
Lemma anchored_no_return (self : Assembly) (G Gc : MultiDiGraph) (e : edge) :
  int_edges G -> anchored self G Gc -> has_edge Gc e = true ->
  e_tgt e <> NStr "begin" /\ e_src e <> NStr "end".
Proof.
  intros Hint Hanch He. destruct (Hanch e He) as [HG|[[Hs Ht]|[Ht Hs]]].
  - destruct (Hint e HG) as [H1 H2].
    split; intros Heq; rewrite Heq in *; done.
  - split; [|by rewrite Hs].
    destruct (use_fragment_order self); [destruct Ht as [-> | ->]; done|].
    destruct Ht as (z & -> & _). done.
  - split; [by rewrite Ht|].
    destruct (use_fragment_order self); [destruct Hs as [-> | ->]; done|].
    intros Heq. by rewrite Heq in Hs.
Qed.

Section LinearPaths.
Variable all_simple_edge_paths : MultiDiGraph -> node -> node -> list (list edge).
Hypothesis paths_are_edge_paths :
  forall G source target p,
    p ∈ all_simple_edge_paths G source target -> edge_path G source target p.

Lemma linear_assembly_path (self : Assembly) (s s' : store) (l : list assembly)
    (G : MultiDiGraph) (a : assembly) :
  st_graphs s !! self_G self = Some G ->
  int_edges G ->
  get_linear_assemblies all_simple_edge_paths self s = (Some l, s') ->
  a ∈ l ->
  Forall (fun e => has_edge G e = true) a /\ chained a /\
  exists e0 a', a = e0 :: a' /\
    if use_fragment_order self
    then (e_src e0 = NInt 1 \/ e_src e0 = NInt (-1)) /\
         (e_tgt (py_last e0 a') = NInt (Z.of_nat (length (fragments self)))
          \/ e_tgt (py_last e0 a') = NInt (- Z.of_nat (length (fragments self))))
    else exists z, e_src e0 = NInt z /\ 0 < z.
Proof.
  intros HG Hint Hrun Ha.
  destruct (get_linear_assemblies_anchored _ _ _ _ _ Hrun)
    as (G' & Gc & cands & HG' & Hanch & Hcands & ->).
  assert (G' = G) as -> by congruence.
  apply remove_subassemblies_subset in Ha.
  apply filter_opt_Some in Hcands as [_ Hcands].
  apply Hcands in Ha as [Hp Hvalid].
  apply list_elem_of_fmap in Hp as (p & -> & Hp).
  apply paths_are_edge_paths in Hp as (Hedges & Hhead & Hlast & Hchain).
  destruct (validate_on_true_inv _ _ _ Hvalid) as (circ & Hcirc & _).
  assert (py_slice (Some 1) (Some (-1)) p <> []) as Hne.
  { intros Heq. by rewrite Heq in Hcirc. }
  destruct (py_slice_inner_inv p Hne) as (eb & ee & Hpeq).
  set (a := py_slice (Some 1) (Some (-1)) p) in *. clearbody a. subst p.
  destruct a as [|e0 a']; [done|]. clear Hne Hcirc Hvalid Hcands.
  simpl in Hhead. injection Hhead as Hb.
  rewrite last_cons, last_snoc in Hlast. simpl in Hlast. injection Hlast as He.
  assert (Hret : forall e, e ∈ eb :: (e0 :: a') ++ [ee] ->
                           e_tgt e <> NStr "begin" /\ e_src e <> NStr "end").
  { intros e Hin. eapply anchored_no_return; [done..|].
    by eapply Forall_forall in Hedges. }
  assert (Hlook : forall i e, (e0 :: a') !! i = Some e ->
            exists e' e'', (eb :: (e0 :: a') ++ [ee]) !! i = Some e' /\
                           (eb :: (e0 :: a') ++ [ee]) !! S (S i) = Some e'' /\
                           (eb :: (e0 :: a') ++ [ee]) !! S i = Some e).
  { intros i e Hi. pose proof (lookup_lt_Some _ _ _ Hi) as Hlt.
    destruct (lookup_lt_is_Some_2 (eb :: (e0 :: a') ++ [ee]) i) as [e' He'].
    { simpl. rewrite length_app. simpl in *. lia. }
    destruct (lookup_lt_is_Some_2 (eb :: (e0 :: a') ++ [ee]) (S (S i))) as [e'' He''].
    { simpl. rewrite length_app. simpl in *. lia. }
    exists e', e''. split; [done|]. split; [done|].
    change ((eb :: (e0 :: a') ++ [ee]) !! S i) with (((e0 :: a') ++ [ee]) !! i).
    by apply lookup_app_l_Some. }
  split; [|split].
  - apply Forall_lookup. intros i e Hi.
    destruct (Hlook i e Hi) as (e' & e'' & He' & He'' & Hie).
    assert (has_edge Gc e = true) as HGc.
    { eapply Forall_lookup_1 in Hedges; [exact Hedges|exact Hie]. }
    destruct (Hanch e HGc) as [HGe|[[Hs _]|[Ht _]]]; [done| |].
    + exfalso. destruct (Hret e') as [Hno _]; [by eapply list_elem_of_lookup_2|].
      apply Hno. rewrite <- Hs. apply Hchain. by exists i.
    + exfalso. destruct (Hret e'') as [_ Hno]; [by eapply list_elem_of_lookup_2|].
      apply Hno. rewrite <- Ht. symmetry. apply Hchain. by exists (S i).
  - intros e1 e2 (i & H1 & H2). apply Hchain. exists (S i).
    pose proof (lookup_lt_Some _ _ _ H2) as Hlt. split.
    + change ((eb :: (e0 :: a') ++ [ee]) !! S i) with (((e0 :: a') ++ [ee]) !! i).
      by apply lookup_app_l_Some.
    + change ((eb :: (e0 :: a') ++ [ee]) !! S (S i)) with (((e0 :: a') ++ [ee]) !! S i).
      by apply lookup_app_l_Some.
  - exists e0, a'. split; [done|].
    assert (Hstart : e_tgt eb = e_src e0) by (apply Hchain; by exists 0%nat).
    assert (Hend : e_tgt (py_last e0 a') = e_src ee).
    { apply Hchain. exists (length (e0 :: a')). split.
      - change ((eb :: (e0 :: a') ++ [ee]) !! length (e0 :: a'))
          with (((e0 :: a') ++ [ee]) !! length a').
        apply lookup_app_l_Some. rewrite <- (last_cons_py_last e0 a'), last_lookup. done.
      - change ((eb :: (e0 :: a') ++ [ee]) !! S (length (e0 :: a')))
          with (((e0 :: a') ++ [ee]) !! length (e0 :: a')).
        by rewrite list_lookup_middle. }
    assert (has_edge Gc eb = true) as HGb.
    { eapply Forall_forall in Hedges; [exact Hedges|left]. }
    assert (has_edge Gc ee = true) as HGe.
    { eapply Forall_forall in Hedges; [exact Hedges|].
      right. apply elem_of_app. right. left. }
    assert (Hab : anchor_edge self eb /\ e_tgt eb <> NStr "end").
    { split.
      - destruct (Hanch eb HGb) as [HGeb|?]; [|done].
        destruct (Hint eb HGeb) as [Hi _]. by rewrite Hb in Hi.
      - rewrite Hstart. apply (Hret e0). right. left. }
    assert (Hae : anchor_edge self ee /\ e_src ee <> NStr "begin").
    { split.
      - destruct (Hanch ee HGe) as [HGee|?]; [|done].
        destruct (Hint ee HGee) as [_ Hi]. by rewrite He in Hi.
      - rewrite <- Hend. apply (Hret (py_last e0 a')).
        right. apply elem_of_app. left.
        apply (list_elem_of_lookup_2 _ (length a')).
        rewrite <- (last_cons_py_last e0 a'), last_lookup. done. }
    destruct Hab as [[[_ Hbt]|[Hbt _]] Hbn]; [|done].
    destruct Hae as [[[Hes _]|[_ Hes]] Hen]; [done|].
    rewrite <- Hstart, Hend.
    destruct (use_fragment_order self); [by split|done].
Qed.
End LinearPaths.

Lemma overlap_graph_int_edges (n : nat) (G : MultiDiGraph) : overlap_graph n G -> int_edges G.
Proof.
  intros HG e He. destruct (HG e He) as (u & v & -> & -> & _). done.
Qed.

Lemma chained_cons (e : edge) (p : list edge) :
  (forall e1, head p = Some e1 -> e_tgt e = e_src e1) -> chained p -> chained (e :: p).
Proof.
  intros Hhead Hp e1 e2 (i & H1 & H2). destruct i as [|i].
  - injection H1 as <-. apply Hhead. by rewrite head_lookup.
  - apply Hp. by exists i.
Qed.

(** The reference enumerator only returns chains of edges of the graph that
    lead from the source to the target. *)
Lemma Reference_paths_from_sound (fuel : nat) (G : MultiDiGraph) (visited : list node)
    (u target : node) (p : list edge) :
  p ∈ Reference.paths_from fuel G visited u target ->
  Forall (fun e => has_edge G e = true) p /\
  e_src <$> head p = Some u /\ e_tgt <$> last p = Some target /\ chained p.
Proof.
  revert visited u p. induction fuel as [|fuel IH]; intros visited u p; simpl.
  - by intros ?%elem_of_nil.
  - intros (e & Hp & He)%list_elem_of_bind.
    apply list_elem_of_filter in He as [Hsrc He].
    assert (has_edge G e = true) as HGe by by apply has_edge_true.
    destruct (bool_decide (e_tgt e ∈ visited)); [by apply elem_of_nil in Hp|].
    destruct (bool_decide (e_tgt e = target)) eqn:Ht.
    + apply list_elem_of_singleton in Hp as ->. apply bool_decide_eq_true in Ht.
      split; [by repeat constructor|]. simpl. split; [by rewrite Hsrc|].
      split; [by rewrite Ht|]. intros e1 e2 (i & H1 & H2). by destruct i.
    + apply list_elem_of_fmap in Hp as (p' & -> & Hp').
      destruct (IH _ _ _ Hp') as (Hall & Hhead & Hlast & Hchain).
      destruct p' as [|e' p']; [done|]. simpl in Hhead. injection Hhead as Hhead.
      split; [by constructor|]. split; [simpl; by rewrite Hsrc|].
      split; [by rewrite last_cons_cons|].
      apply chained_cons; [|done]. simpl. by intros e1 [= <-].
Qed.

Lemma Reference_paths_sound (G : MultiDiGraph) (source target : node) (p : list edge) :
  p ∈ Reference.all_simple_edge_paths G source target -> edge_path G source target p.
Proof.
  unfold Reference.all_simple_edge_paths.
  destruct (has_node G source && has_node G target); [|by intros ?%elem_of_nil].
  apply Reference_paths_from_sound.
Qed.

Lemma example_int_edges : int_edges Reference.example_graph.
Proof.
  intros e He. apply has_edge_true in He. revert e He. apply Forall_forall.
  vm_compute. repeat constructor.
Qed.

(** X13: given that the path enumerator returns chains of edges of the graph
    it is run on, every linear assembly returned for a graph whose edges
    join fragment nodes is a non-empty path of the Assembly's own graph:
    each of its edges is an edge of [self.G] (never one of the ['begin'] or
    ['end'] edges of the search copy) and each edge starts at the node where
    the previous one ends. *)
Theorem X13_linear_assemblies_are_paths_of_the_graph
    (all_simple_edge_paths : MultiDiGraph -> node -> node -> list (list edge))
    (self : Assembly) (s s' : store) (l : list assembly) (G : MultiDiGraph) (a : assembly) :
  (forall G source target p,
      p ∈ all_simple_edge_paths G source target -> edge_path G source target p) ->
  st_graphs s !! self_G self = Some G ->
  int_edges G ->
  get_linear_assemblies all_simple_edge_paths self s = (Some l, s') ->
  a ∈ l ->
  a <> [] /\
  Forall (fun e => has_edge G e = true) a /\
  (forall e1 e2, consecutive false a e1 e2 -> e_tgt e1 = e_src e2).
Proof.
  intros Hpaths HG Hint Hrun Ha.
  destruct (linear_assembly_path _ Hpaths _ _ _ _ _ _ HG Hint Hrun Ha)
    as (Hedges & Hchain & e0 & a' & -> & _).
  done.
Qed.

Lemma X13_witness :
  Reference.example_linear <> [] /\
  Forall (fun e => has_edge Reference.example_graph e = true) Reference.example_linear /\
  (forall e1 e2, consecutive false Reference.example_linear e1 e2 -> e_tgt e1 = e_src e2).
Proof.
  apply (X13_linear_assemblies_are_paths_of_the_graph Reference.all_simple_edge_paths
           Reference.example_self Reference.example_store
           Reference.example_linear_result.2 Reference.example_linear_result.1
           Reference.example_graph Reference.example_linear).
  - apply Reference_paths_sound.
  - reflexivity.
  - apply example_int_edges.
  - vm_compute. reflexivity.
  - left.
Defined.

(** X14: under the same assumption on the enumerator, the constraints on
    the ends of a linear assembly hold.  Without [use_fragment_order] the
    first fragment is in forward orientation (a positive node); with it,
    the assembly starts at the first fragment and ends at the last one of
    the input list, each in either orientation. *)
Theorem X14_linear_assemblies_end_constraints
    (all_simple_edge_paths : MultiDiGraph -> node -> node -> list (list edge))
    (self : Assembly) (s s' : store) (l : list assembly) (G : MultiDiGraph) (a : assembly) :
  (forall G source target p,
      p ∈ all_simple_edge_paths G source target -> edge_path G source target p) ->
  st_graphs s !! self_G self = Some G ->
  int_edges G ->
  get_linear_assemblies all_simple_edge_paths self s = (Some l, s') ->
  a ∈ l ->
  exists e0 a', a = e0 :: a' /\
    (use_fragment_order self = false -> exists z, e_src e0 = NInt z /\ 0 < z) /\
    (use_fragment_order self = true ->
     (e_src e0 = NInt 1 \/ e_src e0 = NInt (-1)) /\
     (e_tgt (py_last e0 a') = NInt (Z.of_nat (length (fragments self)))
      \/ e_tgt (py_last e0 a') = NInt (- Z.of_nat (length (fragments self))))).
Proof.
  intros Hpaths HG Hint Hrun Ha.
  destruct (linear_assembly_path _ Hpaths _ _ _ _ _ _ HG Hint Hrun Ha)
    as (_ & _ & e0 & a' & -> & Hends).
  exists e0, a'. split; [done|].
  destruct (use_fragment_order self); split; try done.
Qed.

Lemma X14_witness :
  exists e0 a', Reference.example_linear = e0 :: a' /\
    (use_fragment_order Reference.ordered_self = false ->
     exists z, e_src e0 = NInt z /\ 0 < z) /\
    (use_fragment_order Reference.ordered_self = true ->
     (e_src e0 = NInt 1 \/ e_src e0 = NInt (-1)) /\
     (e_tgt (py_last e0 a') = NInt (Z.of_nat (length (fragments Reference.ordered_self)))
      \/ e_tgt (py_last e0 a')
         = NInt (- Z.of_nat (length (fragments Reference.ordered_self))))).
Proof.
  eapply (X14_linear_assemblies_end_constraints Reference.all_simple_edge_paths
            Reference.ordered_self Reference.example_store _ _
            Reference.example_graph Reference.example_linear).
  - apply Reference_paths_sound.
  - reflexivity.
  - apply example_int_edges.
  - vm_compute. reflexivity.
  - left.
Defined.

(** ** Circular assemblies are closed walks of the graph *)

Lemma elem_of_keys_between (G : MultiDiGraph) (u v : node) (k : ekey) :
  k ∈ keys_between G u v -> has_edge G (u, v, k) = true.
Proof.
  unfold keys_between. intros (x & -> & Hx)%list_elem_of_fmap.
  apply list_elem_of_filter in Hx as [[Hu Hv] Hx].
  apply has_edge_true, list_elem_of_fmap. exists x. split; [|done].
  destruct x as [[[u' v'] k'] a]. unfold e_src, e_tgt, e_key in *. simpl in *. by subst.
Qed.

Lemma cycle2circular_on_edges (G : MultiDiGraph) (cycle : list node)
    (assemblies : list assembly) (a : assembly) :
  cycle2circular_on G cycle = Some assemblies -> a ∈ assemblies ->
  Forall (fun e => has_edge G e = true) a.
Proof.
  unfold cycle2circular_on.
  destruct (mapM _ (zip_cyclic cycle)) as [combine|] eqn:Hc; simpl; [|done].
  intros [= <-] Ha. apply elem_of_product in Ha. apply mapM_Some in Hc.
  revert a Ha. induction Hc as [|uv es uvs combine Hes _ IH]; intros a Ha.
  - apply Forall2_nil_inv_r in Ha as ->. constructor.
  - apply Forall2_cons_inv_r in Ha as (e & a' & He & Ha' & ->).
    constructor; [|by apply IH].
    unfold adj in Hes. destruct (keys_between G uv.1 uv.2) as [|k0 ks] eqn:Hks;
      simpl in Hes; [done|].
    injection Hes as <-.
    change (e ∈ (fun k : ekey => (uv.1, uv.2, k)) <$> (k0 :: ks)) in He.
    apply list_elem_of_fmap in He as (k & -> & Hk).
    apply elem_of_keys_between. by rewrite Hks.
Qed.

Lemma lookup_snoc_rotated {A} (x : A) (l : list A) (i : nat) :
  (i < S (length l))%nat ->
  (l ++ [x]) !! i = (x :: l) !! (S i `mod` S (length l))%nat.
Proof.
  intros Hi. destruct (decide (i < length l)%nat) as [Hlt|Hge].
  - rewrite Nat.mod_small by lia. simpl. by apply lookup_app_l.
  - assert (i = length l) as -> by lia.
    rewrite Nat.Div0.mod_same. simpl.
    rewrite lookup_app_r by lia. by rewrite Nat.sub_diag.
Qed.

(** X15: every circular assembly returned is a closed walk of the
    Assembly's graph: each of its edges is an edge of [self.G], each edge
    starts at the node where the previous one ends, and the first edge
    starts where the last one ends. *)
Theorem X15_circular_assemblies_are_closed_walks
    (simple_cycles : MultiDiGraph -> list (list node))
    (self : Assembly) (s s' : store) (l : list assembly) (G : MultiDiGraph) (a : assembly) :
  st_graphs s !! self_G self = Some G ->
  get_circular_assemblies simple_cycles self s = (Some l, s') ->
  a ∈ l ->
  a <> [] /\
  Forall (fun e => has_edge G e = true) a /\
  (forall e1 e2, consecutive true a e1 e2 -> e_tgt e1 = e_src e2).
Proof.
  intros HG Hrun Ha.
  destruct (circular_result_cycle _ _ _ _ _ _ Hrun Ha) as (z & r & _ & _ & Hsrc & Htgt).
  split; [by intros ->|]. split.
  - apply get_circular_assemblies_run in Hrun
      as (G' & sorted_cycles & kept & assemblies & HG' & _ & _ & _ & Hasm & Hl).
    assert (G' = G) as -> by congruence.
    apply filter_opt_Some in Hl as [_ Hl]. apply Hl in Ha as [Ha _].
    apply list_elem_of_In, in_concat in Ha
      as (asms & Hasms%list_elem_of_In & Ha%list_elem_of_In).
    apply mapM_Some in Hasm.
    destruct (Forall2_elem_of_r _ _ _ _ Hasm Hasms) as (cyc & _ & Hon).
    by eapply cycle2circular_on_edges.
  - intros e1 e2 (i & H1 & H2).
    assert (length a = S (length r)) as Hlen.
    { rewrite <- (length_fmap e_src a), Hsrc. done. }
    assert ((e_tgt <$> a) !! i = Some (e_tgt e1)) as Ht.
    { apply list_lookup_fmap_Some. by exists e1. }
    assert ((e_src <$> a) !! (S i `mod` length a)%nat = Some (e_src e2)) as Hs.
    { apply list_lookup_fmap_Some. by exists e2. }
    rewrite Htgt in Ht. rewrite Hsrc, Hlen in Hs.
    rewrite lookup_snoc_rotated in Ht; [congruence|].
    apply lookup_lt_Some in H1. lia.
Qed.

Lemma X15_witness :
  Reference.example_circular <> [] /\
  Forall (fun e => has_edge Reference.example_graph e = true) Reference.example_circular /\
  (forall e1 e2, consecutive true Reference.example_circular e1 e2 -> e_tgt e1 = e_src e2).
Proof.
  eapply (X15_circular_assemblies_are_closed_walks Reference.simple_cycles
            Reference.example_self Reference.example_store _ _
            Reference.example_graph Reference.example_circular).
  - reflexivity.
  - vm_compute. reflexivity.
  - left.
Defined.

(** ** The topology of an assembled record *)

Lemma returns_ret {A} (a : A) (Q : A -> Prop) : Q a -> returns (mret a) Q.
Proof. intros HQ s a' s' [= <- _]. exact HQ. Qed.

Lemma returns_liftO {A} (o : option A) : returns (liftO o) (fun a => o = Some a).
Proof. by intros s a s' [= -> _]. Qed.

Lemma returns_true {A} (c : M A) : returns c (fun _ => True).
Proof. by intros s a s' _. Qed.

Lemma returns_bind {A B} (c : M A) (f : A -> M B) (Q : A -> Prop) (R : B -> Prop) :
  returns c Q -> (forall a, Q a -> returns (f a) R) -> returns (c ≫= f) R.
Proof.
  intros Hc Hf s b s'. rewrite bind_run.
  destruct (c s) as [[a|] s1] eqn:Hcs; [|done].
  intros Hfa. eapply Hf; [|exact Hfa]. by eapply Hc.
Qed.

Lemma returns_mapM {A B} (f : A -> M B) (l : list A) (Q : A -> B -> Prop) :
  (forall x, x ∈ l -> returns (f x) (Q x)) -> returns (mapM f l) (Forall2 Q l).
Proof.
  induction l as [|x l IH]; intros Hf; simpl.
  - apply returns_ret. constructor.
  - eapply returns_bind; [apply Hf; left|]. intros y Hy.
    eapply returns_bind; [apply IH; intros z Hz; apply Hf; by right|]. intros ys Hys.
    apply returns_ret. by constructor.
Qed.

Lemma returns_foldlM {A B} (f : A -> B -> M A) (a : A) (l : list B) (I : A -> Prop) :
  I a -> (forall a x, I a -> returns (f a x) I) -> returns (foldlM f a l) I.
Proof.
  intros Ha Hf. revert a Ha. induction l as [|x l IH]; intros a Ha; simpl.
  - by apply returns_ret.
  - eapply returns_bind; [by apply Hf|]. intros a' Ha'. by apply IH.
Qed.

Lemma returns_record_slice (r : Dseqrecord) (start stop : option Z) :
  returns (record_slice r start stop) (fun r' => circular r' = false).
Proof.
  unfold record_slice.
  eapply returns_bind; [apply returns_true|]. intros fs _.
  eapply returns_bind; [apply returns_true|]. intros fs' _.
  by apply returns_ret.
Qed.

Lemma returns_get_subfragment (self : Assembly) (r : subfragment_repr) :
  returns (get_subfragment self r) (fun r' => circular r' = false).
Proof.
  destruct r as [[node start_location] end_location]. unfold get_subfragment.
  eapply returns_bind; [apply returns_true|]. intros G _.
  eapply returns_bind; [apply returns_true|]. intros sq _.
  apply returns_record_slice.
Qed.

Lemma returns_join_fragment (out : Dseqrecord) (fo : Dseqrecord * Z) :
  returns (join_fragment out fo) (fun r' => circular r' = false).
Proof.
  destruct fo as [fragment overlap]. unfold join_fragment.
  eapply returns_bind; [apply returns_true|]. intros nf _.
  by apply returns_ret.
Qed.

(** The first entry of the fragment representation has a left bound
    exactly when the assembly is circular. *)
Lemma edge_representation_first (G : MultiDiGraph) (a : assembly)
    (reprs : list subfragment_repr) (r : subfragment_repr) :
  edge_representation2subfragment_on G a = Some reprs -> head reprs = Some r ->
  is_circular a = Some (bool_decide (is_Some r.1.2)).
Proof.
  unfold edge_representation2subfragment_on.
  destruct a as [|e0 a]; [done|].
  destruct (is_circular (e0 :: a)) as [circ|] eqn:Hcirc; [|done].
  cbn [mbind option_bind head]. rewrite last_cons_py_last. cbn [mbind option_bind].
  intros Hmap Hhead. apply mapM_Some in Hmap.
  destruct circ.
  - rewrite py_slice_last in Hmap. rewrite !fmap_cons, fmap_nil in Hmap.
    cbn [app] in Hmap. rewrite zip_next_cons in Hmap. cbn [zip zip_with] in Hmap.
    inversion Hmap as [|t r' ts rs Hr Hrest]; subst. simpl in Hhead. injection Hhead as ->.
    apply pair_to_subfragment_start in Hr. simpl in Hr.
    f_equal. symmetry. by apply bool_decide_eq_true.
  - rewrite fmap_cons in Hmap. cbn [app] in Hmap. rewrite zip_next_cons in Hmap.
    cbn [zip zip_with] in Hmap.
    inversion Hmap as [|t r' ts rs Hr Hrest]; subst. simpl in Hhead. injection Hhead as ->.
    apply pair_to_subfragment_start in Hr. simpl in Hr.
    f_equal. symmetry. apply bool_decide_eq_false. rewrite Hr. by intros [? ?].
Qed.

Lemma returns_assemble (self : Assembly) (a : assembly) :
  returns (assemble self a) (fun out => is_circular a = Some (circular out)).
Proof.
  unfold assemble.
  eapply (returns_bind _ _ (fun reprs => exists G,
            edge_representation2subfragment_on G a = Some reprs)).
  { unfold edge_representation2subfragment_representation.
    eapply returns_bind; [apply returns_true|]. intros G _.
    intros s reprs s' Hr. exists G. by eapply returns_liftO. }
  intros reprs [G0 Hreprs].
  eapply returns_bind; [apply returns_true|]. intros G _.
  eapply returns_bind; [apply returns_true|]. intros overlaps _.
  eapply (returns_bind _ _ (Forall (fun r' => circular r' = false))).
  { unfold get_assembly_subfragments. intros s subs s' Hs.
    pose proof (returns_mapM (get_subfragment self) reprs
                  (fun _ r' => circular r' = false)
                  (fun x _ => returns_get_subfragment self x) s subs s' Hs) as Hall.
    clear -Hall. induction Hall; by constructor. }
  intros subs Hsubs.
  eapply returns_bind; [apply returns_liftO|]. intros first_sub Hfirst.
  eapply (returns_bind _ _ (fun out => circular out = false)).
  { apply returns_foldlM.
    - eapply Forall_forall in Hsubs; [exact Hsubs|]. by apply head_Some_elem_of.
    - intros out fo _. apply returns_join_fragment. }
  intros out Hout.
  eapply returns_bind; [apply returns_liftO|]. intros first_repr Hrepr.
  pose proof (edge_representation_first _ _ _ _ Hreprs Hrepr) as Hcirc.
  destruct (first_repr.1.2) as [loc|].
  - eapply returns_bind; [apply returns_true|]. intros overlap _.
    eapply returns_bind; [apply returns_true|]. intros _ _.
    apply returns_ret. simpl. by rewrite Hcirc.
  - apply returns_ret. by rewrite Hcirc, Hout.
Qed.

(** X16: when [assemble] returns, the assembly was not empty (the empty
    tuple raises an index error) and the record is circular exactly when the
    assembly is: when its first edge starts at the node where its last edge
    ends. *)
Theorem X16_assemble_topology (self : Assembly) (a : assembly) (s s' : store)
    (out : Dseqrecord) :
  assemble self a s = (Some out, s') ->
  a <> [] /\ is_circular a = Some (circular out).
Proof.
  intros Hrun. pose proof (returns_assemble self a s out s' Hrun) as Hcirc.
  split; [|done]. by intros ->.
Qed.

Lemma X16_witness :
  Reference.example_circular <> [] /\
  is_circular Reference.example_circular = Some (circular Reference.annotated_first_run.1).
Proof.
  apply (X16_assemble_topology Reference.annotated_self Reference.example_circular
           Reference.annotated_store Reference.annotated_first_run.2).
  vm_compute. reflexivity.
Defined.

Lemma mapM_run_each {A B} (f : A -> M B) (l : list A) (ys : list B) (s s' : store) :
  mapM f l s = (Some ys, s') -> run_each f l ys s s'.
Proof.
  revert s ys. induction l as [|x l IH]; intros s ys; simpl.
  - by intros [= <- <-].
  - rewrite bind_run. destruct (f x s) as [[y|] s1] eqn:Hf; [|done].
    rewrite bind_run. destruct (mapM f l s1) as [[k|] s2] eqn:Hk; [|done].
    unfold mret, M_ret. intros [= <- <-]. exists s1. split; [done|]. by apply IH.
Qed.

(** X17: [assemble_circular] returns one record per circular assembly that
    [get_circular_assemblies] finds, in the same order: the record at each
    position is the one that [assemble] returns for the assembly at that
    position, the assemblies being assembled one after the other.  Every
    record is circular. *)
Theorem X17_assemble_circular_records
    (simple_cycles : MultiDiGraph -> list (list node))
    (self : Assembly) (s s' : store) (outs : list Dseqrecord) :
  assemble_circular simple_cycles self s = (Some outs, s') ->
  exists l, get_circular_assemblies simple_cycles self s = (Some l, s) /\
            length outs = length l /\
            Forall (fun out => circular out = true) outs /\
            run_each (assemble self) l outs s s' /\
            Forall2 (fun a out => is_circular a = Some true /\
                                  exists s1 s2, assemble self a s1 = (Some out, s2)) l outs.
Proof.
  unfold assemble_circular. rewrite bind_run.
  destruct (get_circular_assemblies simple_cycles self s) as [[l|] s1] eqn:Hl; [|done].
  intros Hmap. pose proof Hl as Hrun.
  apply get_circular_assemblies_run in Hrun as (_ & _ & _ & _ & _ & -> & _).
  exists l. split; [done|].
  pose proof (returns_mapM (assemble self) l
                (fun a out => is_circular a = Some (circular out))
                (fun x _ => returns_assemble self x) s outs s' Hmap) as Hall.
  split; [symmetry; by eapply Forall2_length|].
  assert (Forall (fun a => is_circular a = Some true) l) as Hcirc.
  { apply Forall_forall. intros a Ha.
    destruct (circular_result_cycle _ _ _ _ _ _ Hl Ha) as (z & r & _ & _ & Hsrc & Htgt).
    destruct a as [|e0 a']; [done|]. simpl. f_equal. apply bool_decide_eq_true.
    rewrite fmap_cons in Hsrc. injection Hsrc as Hz Hr.
    assert (last (e_tgt <$> e0 :: a') = Some (NInt z)) as Hlast
      by (rewrite Htgt; apply last_snoc).
    rewrite fmap_last, last_cons_py_last in Hlast. simpl in Hlast. congruence. }
  pose proof (mapM_run_each _ _ _ _ _ Hmap) as Heach.
  split; [|split; [done|]].
  - clear -Hall Hcirc. induction Hall as [|a out l outs Ha _ IH]; [constructor|].
    apply Forall_cons in Hcirc as [Hc Hcirc]. constructor; [congruence|by apply IH].
  - clear -Heach Hcirc. revert s outs Heach.
    induction Hcirc as [|a l Ha _ IH]; intros s outs Heach.
    + destruct outs; [constructor|done].
    + destruct outs as [|out outs]; [done|]. destruct Heach as (s1 & Hrun & Heach).
      constructor; [|by eapply IH]. split; [done|]. by exists s, s1.
Qed.

Lemma X17_witness :
  exists l, Reference.get_circular_assemblies Reference.annotated_self Reference.annotated_store
            = (Some l, Reference.annotated_store) /\
            length [Reference.annotated_first_run.1] = length l /\
            Forall (fun out => circular out = true) [Reference.annotated_first_run.1] /\
            run_each (assemble Reference.annotated_self) l [Reference.annotated_first_run.1]
              Reference.annotated_store Reference.annotated_first_run.2 /\
            Forall2 (fun a out => is_circular a = Some true /\
                                  exists s1 s2, assemble Reference.annotated_self a s1
                                                = (Some out, s2))
                    l [Reference.annotated_first_run.1].
Proof.
  apply (X17_assemble_circular_records Reference.simple_cycles Reference.annotated_self
           Reference.annotated_store Reference.annotated_first_run.2).
  vm_compute. reflexivity.
Defined.

(** ** Joining two fragments *)

Lemma assemble_seq_single (G : MultiDiGraph) (u v : node) (k : ekey)
    (p q : part) (ru rv : Dseqrecord) :
  u <> v ->
  edge_locations G (u, v, k) = Some (Location p [], Location q []) ->
  node_seq G u = Some ru -> node_seq G v = Some rv ->
  0 <= p_start p -> p_start p < p_end p -> p_end p <= rec_len ru ->
  0 <= p_start q -> p_start q < p_end q -> p_end q <= rec_len rv ->
  assemble_seq G [(u, v, k)]
  = Some (take (Z.to_nat (p_end p)) (seq ru) ++ drop (Z.to_nat (p_end q)) (seq rv)).
Proof.
  intros Huv Hloc Hu Hv Hp0 Hp1 Hp2 Hq0 Hq1 Hq2.
  unfold assemble_seq, edge_representation2subfragment_on, edge_overlaps.
  cbn [is_circular mbind option_bind head last]. unfold py_last. cbn [last default from_option].
  unfold id, e_src, e_tgt. cbn [fst snd].
  rewrite bool_decide_eq_false_2 by done. cbn [mbind option_bind].
  rewrite fmap_cons, fmap_nil. cbn [app]. rewrite zip_next_cons. cbn [zip zip_with].
  cbn [mapM]. unfold pair_to_subfragment, temp_locations, edge_to_temp, e_src, e_tgt, e_key.
  cbn [fst snd]. rewrite Hloc. cbn [mbind option_bind mret option_ret fst snd].
  unfold subfragment_seq, subfragment_bounds. cbn [fst snd fmap option_fmap option_map].
  match goal with |- mapM ?f ?l ≫= _ = _ =>
    assert (mapM f l = Some [py_slice (Some 0) (Some (p_end p)) (seq ru);
                             py_slice (Some (p_start q)) None (seq rv)]) as ->
  end.
  { apply mapM_Some. repeat constructor; cbn [fst snd mbind option_bind].
    - by rewrite Hu.
    - by rewrite Hv. }
  cbn [mbind option_bind head fst snd].
  rewrite py_slice_tail. cbn [zip zip_with]. unfold joined_seq. cbn [foldl fst snd].
  unfold loc_len, parts, part_len. cbn [loc_first loc_rest foldr].
  f_equal. f_equal.
  - unfold rec_len in Hp2. rewrite py_slice_between by lia. rewrite drop_0. f_equal. lia.
  - unfold rec_len in Hq2. rewrite (py_slice_from (seq rv)) by lia.
    rewrite py_slice_from by lia. rewrite drop_drop. f_equal. lia.
Qed.

(** X18: joining two fragments along one overlap.  For the assembly made of
    the single edge [(u, v, key)] between different nodes, whose overlap is
    a one-part location inside each fragment, [assemble] returns a linear
    record that reads the fragment at [u] up to the end of the overlap and
    continues with the fragment at [v] after the overlap. *)
Theorem X18_assemble_two_fragments (self : Assembly) (u v : node) (k : ekey)
    (s : store) (G : MultiDiGraph) :
  st_graphs s !! self_G self = Some G ->
  records_valid G s ->
  u <> v ->
  edge_wf G (u, v, k) ->
  exists out s' l ru rv,
    assemble self [(u, v, k)] s = (Some out, s') /\
    edge_locations G (u, v, k) = Some l /\
    node_seq G u = Some ru /\ node_seq G v = Some rv /\
    seq out = take (Z.to_nat (p_end (last_part l.1))) (seq ru)
              ++ drop (Z.to_nat (p_end (last_part l.2))) (seq rv) /\
    circular out = false.
Proof.
  intros HG Hvalid Huv Hwf.
  destruct (edge_wf_inv _ _ Hwf)
    as (p & q & ru & rv & Hloc & Hu & Hv & Hp0 & Hp1 & Hp2 & Hq0 & Hq1 & Hq2).
  unfold e_src, e_tgt in Hu, Hv. simpl in Hu, Hv.
  pose proof (assemble_seq_single G u v k p q ru rv Huv Hloc Hu Hv
                Hp0 Hp1 Hp2 Hq0 Hq1 Hq2) as Hseq.
  destruct (assemble_run self [(u, v, k)] s G _ HG Hvalid Hseq) as (out & s' & Hrun & Hout).
  { intros Hnil. apply (f_equal length) in Hnil. rewrite length_app, length_take in Hnil.
    simpl in Hnil. unfold rec_len in Hp2. lia. }
  exists out, s', (Location p [], Location q []), ru, rv.
  split_and!; try done.
  pose proof (returns_assemble self [(u, v, k)] s out s' Hrun) as Hcirc.
  simpl in Hcirc. unfold e_src, e_tgt, py_last in Hcirc. simpl in Hcirc.
  rewrite bool_decide_eq_false_2 in Hcirc by done. congruence.
Qed.

Lemma X18_witness :
  exists out s' l ru rv,
    assemble Reference.example_self [Reference.edge_12] Reference.example_store
    = (Some out, s') /\
    edge_locations Reference.example_graph Reference.edge_12 = Some l /\
    node_seq Reference.example_graph (NInt 1) = Some ru /\
    node_seq Reference.example_graph (NInt 2) = Some rv /\
    seq out = take (Z.to_nat (p_end (last_part l.1))) (seq ru)
              ++ drop (Z.to_nat (p_end (last_part l.2))) (seq rv) /\
    circular out = false.
Proof.
  apply (X18_assemble_two_fragments Reference.example_self (NInt 1) (NInt 2)
           (KStr "1[8:14](+):2[1:7](+)") Reference.example_store Reference.example_graph).
  - reflexivity.
  - apply example_records_valid.
  - done.
  - eexists _, _, _.
    split; [vm_compute; reflexivity|]. split; [vm_compute; reflexivity|].
    split; [vm_compute; reflexivity|].
    split; (split; [reflexivity|]); vm_compute; repeat split; congruence.
Defined.

(** ** From edges to fragments with bounds *)

Lemma pair_to_subfragment_right (G : MultiDiGraph) (x : temp_item) (e : edge)
    (r : subfragment_repr) :
  pair_to_subfragment G (x, edge_to_temp e) = Some r ->
  exists l, edge_locations G e = Some l /\ r.2 = Some l.1.
Proof.
  unfold pair_to_subfragment, edge_to_temp, temp_locations. simpl.
  destruct x as [[u1 v1] k1]. destruct e as [[u v] k]. unfold e_src, e_tgt, e_key. simpl.
  intros Hr. destruct (edge_locations G (u, v, k)) as [l|]; [|by simplify_option_eq].
  exists l. split; [done|]. by simplify_option_eq.
Qed.

Lemma pair_to_subfragment_left (G : MultiDiGraph) (y : temp_item) (e : edge)
    (r : subfragment_repr) :
  pair_to_subfragment G (edge_to_temp e, y) = Some r ->
  exists l, edge_locations G e = Some l /\ r.1.1 = Some (e_tgt e) /\ r.1.2 = Some l.2.
Proof.
  unfold pair_to_subfragment, edge_to_temp, temp_locations. simpl.
  destruct y as [[u2 v2] k2]. destruct e as [[u v] k]. unfold e_src, e_tgt, e_key. simpl.
  intros Hr. destruct (edge_locations G (u, v, k)) as [l|]; [|by simplify_option_eq].
  exists l. split; [done|]. by simplify_option_eq.
Qed.

Lemma pair_to_subfragment_open_left (G : MultiDiGraph) (n : node) (y : temp_item)
    (r : subfragment_repr) :
  pair_to_subfragment G ((None, Some n, None), y) = Some r ->
  r.1.1 = Some n /\ r.1.2 = None.
Proof.
  unfold pair_to_subfragment. simpl. destruct y as [[u2 v2] k2].
  intros Hr. by simplify_option_eq.
Qed.

Lemma pair_to_subfragment_open_right (G : MultiDiGraph) (x : temp_item) (y : option node)
    (r : subfragment_repr) :
  pair_to_subfragment G (x, (y, None, None)) = Some r -> r.2 = None.
Proof.
  unfold pair_to_subfragment. simpl. destruct x as [[u1 v1] k1].
  intros Hr. by simplify_option_eq.
Qed.

(** The list [temp] and what the loop makes of it. *)
Lemma edge_representation_pairs (G : MultiDiGraph) (e0 : edge) (a : assembly) (circ : bool)
    (reprs : list subfragment_repr) :
  is_circular (e0 :: a) = Some circ ->
  edge_representation2subfragment_on G (e0 :: a) = Some reprs ->
  exists t0 ts,
    t0 = (if circ then edge_to_temp (py_last e0 a) else (None, Some (e_src e0), None)) /\
    ts = (edge_to_temp <$> e0 :: a)
         ++ (if circ then [] else [(Some (e_tgt (py_last e0 a)), None, None)]) /\
    length reprs = length ts /\
    forall i x y, (t0 :: ts) !! i = Some x -> ts !! i = Some y ->
                  exists r, reprs !! i = Some r /\ pair_to_subfragment G (x, y) = Some r.
Proof.
  intros Hcirc. unfold edge_representation2subfragment_on. rewrite Hcirc.
  cbn [mbind option_bind head]. rewrite last_cons_py_last. cbn [mbind option_bind].
  intros Hmap. apply mapM_Some in Hmap.
  exists (if circ then edge_to_temp (py_last e0 a) else (None, Some (e_src e0), None)),
         ((edge_to_temp <$> e0 :: a)
          ++ (if circ then [] else [(Some (e_tgt (py_last e0 a)), None, None)])).
  split; [done|]. split; [done|].
  assert (Forall2 (fun tt r => pair_to_subfragment G tt = Some r)
            (zip ((if circ then edge_to_temp (py_last e0 a)
                   else (None, Some (e_src e0), None))
                  :: (edge_to_temp <$> e0 :: a)
                     ++ (if circ then [] else [(Some (e_tgt (py_last e0 a)), None, None)]))
                 ((edge_to_temp <$> e0 :: a)
                  ++ (if circ then [] else [(Some (e_tgt (py_last e0 a)), None, None)])))
            reprs) as Hall.
  { destruct circ.
    - rewrite py_slice_last in Hmap. rewrite (fmap_cons _ (py_last e0 a)), fmap_nil in Hmap.
      cbn [app] in Hmap. rewrite zip_next_cons in Hmap. by rewrite app_nil_r.
    - cbn [app] in Hmap. by rewrite zip_next_cons in Hmap. }
  clear Hmap.
  set (ts := (edge_to_temp <$> e0 :: a)
             ++ (if circ then [] else [(Some (e_tgt (py_last e0 a)), None, None)])) in *.
  clearbody ts. split.
  - apply Forall2_length in Hall. rewrite <- Hall. rewrite length_zip_with.
    cbn [length]. lia.
  - intros i x y Hx Hy.
    destruct (Forall2_lookup_l _ _ _ i (x, y) Hall) as (r & Hr & Hf).
    + apply lookup_zip_with_Some. by exists x, y.
    + by exists r.
Qed.

(** X19: [edge_representation2subfragment_representation] turns the edges
    into one entry per fragment of the product: a linear assembly of [k]
    edges gives [k+1] entries, a circular one [k].  The first location of
    the edge at position [i] is the right bound of entry [i], and its
    target node with its second location as left bound make the next entry
    (for the last edge of a circular assembly, entry 0).  A linear assembly
    starts with the source of its first edge, without left bound, and its
    last entry has no right bound.  The store is not touched. *)
Theorem X19_edge_representation_entries (self : Assembly) (a : assembly)
    (s s' : store) (G : MultiDiGraph) (reprs : list subfragment_repr) :
  st_graphs s !! self_G self = Some G ->
  edge_representation2subfragment_representation self a s = (Some reprs, s') ->
  s' = s /\
  exists circ, is_circular a = Some circ /\
    length reprs = (length a + (if circ : bool then 0 else 1))%nat /\
    (forall (i : nat) e, a !! i = Some e ->
       exists l r r',
         edge_locations G e = Some l /\
         reprs !! i = Some r /\ r.2 = Some l.1 /\
         reprs !! (S i `mod` length reprs)%nat = Some r' /\
         r'.1.1 = Some (e_tgt e) /\ r'.1.2 = Some l.2) /\
    (circ = false ->
       exists e0 r0 rn,
         head a = Some e0 /\ head reprs = Some r0 /\
         r0.1.1 = Some (e_src e0) /\ r0.1.2 = None /\
         last reprs = Some rn /\ rn.2 = None).
Proof.
  intros HG. unfold edge_representation2subfragment_representation.
  rewrite bind_run. unfold get_graph at 1. rewrite HG. unfold liftO.
  intros [= Hon <-]. split; [done|].
  destruct a as [|e0 a]; [done|].
  destruct (is_circular (e0 :: a)) as [circ|] eqn:Hcirc; [|done].
  exists circ. split; [done|].
  destruct (edge_representation_pairs _ _ _ _ _ Hcirc Hon) as (t0 & ts & Ht0 & Hts & Hlen & Hpairs).
  assert (length ts = (length (e0 :: a) + (if circ then 0 else 1))%nat) as Hlts.
  { rewrite Hts, length_app, length_fmap. by destruct circ. }
  assert (forall i e, (e0 :: a) !! i = Some e -> ts !! i = Some (edge_to_temp e)) as Hright.
  { intros i e Hi. rewrite Hts. apply lookup_app_l_Some.
    rewrite list_lookup_fmap. by rewrite Hi. }
  split; [congruence|]. split.
  - intros i e Hi. pose proof (lookup_lt_Some _ _ _ Hi) as Hlt.
    destruct (lookup_lt_is_Some_2 (t0 :: ts) i) as [x Hx]; [simpl; lia|].
    destruct (Hpairs i x _ Hx (Hright i e Hi)) as (r & Hr & Hf).
    apply pair_to_subfragment_right in Hf as (l & Hl & Hr2).
    assert (exists j y, (j = S i `mod` length reprs)%nat /\
                        (t0 :: ts) !! j = Some (edge_to_temp e) /\ ts !! j = Some y)
      as (j & y & -> & Hj & Hy).
    { rewrite Hlen, Hlts. destruct circ.
      - rewrite Nat.add_0_r. destruct (decide (S i < length (e0 :: a))%nat) as [Hs|Hs].
        + rewrite Nat.mod_small by lia.
          destruct (lookup_lt_is_Some_2 ts (S i)) as [y Hy]; [lia|].
          exists (S i), y. split; [done|]. split; [by apply Hright|done].
        + assert (S i = length (e0 :: a)) as -> by lia. rewrite Nat.Div0.mod_same.
          destruct (lookup_lt_is_Some_2 ts 0) as [y Hy]; [simpl in *; lia|].
          exists 0%nat, y. split; [done|]. split; [|done].
          simpl. rewrite Ht0. do 2 f_equal.
          assert (Some (py_last e0 a) = Some e) as [= ->]; [|done].
          rewrite <- last_cons_py_last, last_lookup. rewrite <- Hi. f_equal. simpl in *. lia.
      - rewrite Nat.mod_small by lia.
        destruct (lookup_lt_is_Some_2 ts (S i)) as [y Hy]; [lia|].
        exists (S i), y. split; [done|]. split; [by apply Hright|done]. }
    destruct (Hpairs _ _ _ Hj Hy) as (r' & Hr' & Hf').
    apply pair_to_subfragment_left in Hf' as (l' & Hl' & Hn & Hs).
    assert (l' = l) as -> by congruence.
    by exists l, r, r'.
  - intros ->. subst t0.
    destruct (lookup_lt_is_Some_2 ts 0) as [y Hy]; [simpl in *; lia|].
    destruct (Hpairs 0%nat _ _ eq_refl Hy) as (r0 & Hr0 & Hf0).
    apply pair_to_subfragment_open_left in Hf0 as [Hn0 Hs0].
    assert (ts !! length (e0 :: a) = Some (Some (e_tgt (py_last e0 a)), None, None)) as Hfin.
    { rewrite Hts. rewrite lookup_app_r by (rewrite length_fmap; lia).
      rewrite length_fmap. by rewrite Nat.sub_diag. }
    destruct (lookup_lt_is_Some_2 ((None, Some (e_src e0), None) :: ts) (length (e0 :: a)))
      as [x Hx]; [simpl in *; lia|].
    destruct (Hpairs _ _ _ Hx Hfin) as (rn & Hrn & Hfn).
    apply pair_to_subfragment_open_right in Hfn.
    exists e0, r0, rn. split; [done|]. split; [by rewrite head_lookup|].
    split; [done|]. split; [done|]. split; [|done].
    rewrite last_lookup, Hlen, Hlts. rewrite <- Hrn. f_equal. lia.
Qed.

Lemma X19_witness :
  Reference.example_store = Reference.example_store /\
  exists circ, is_circular Reference.example_linear = Some circ /\
    length [(Some (NInt 1), None, Some (SimpleLocation 8 14 1));
            (Some (NInt 2), Some (SimpleLocation 1 7 1), Some (SimpleLocation 10 17 1));
            (Some (NInt 3), Some (SimpleLocation 1 8 1), None)]
    = (length Reference.example_linear + (if circ : bool then 0 else 1))%nat /\
    (forall (i : nat) e, Reference.example_linear !! i = Some e ->
       exists l r r',
         edge_locations Reference.example_graph e = Some l /\
         [(Some (NInt 1), None, Some (SimpleLocation 8 14 1));
          (Some (NInt 2), Some (SimpleLocation 1 7 1), Some (SimpleLocation 10 17 1));
          (Some (NInt 3), Some (SimpleLocation 1 8 1), None)] !! i = Some r /\
         r.2 = Some l.1 /\
         [(Some (NInt 1), None, Some (SimpleLocation 8 14 1));
          (Some (NInt 2), Some (SimpleLocation 1 7 1), Some (SimpleLocation 10 17 1));
          (Some (NInt 3), Some (SimpleLocation 1 8 1), None)]
           !! (S i `mod` 3)%nat = Some r' /\
         r'.1.1 = Some (e_tgt e) /\ r'.1.2 = Some l.2) /\
    (circ = false ->
       exists e0 r0 rn,
         head Reference.example_linear = Some e0 /\
         head [(Some (NInt 1), None, Some (SimpleLocation 8 14 1));
               (Some (NInt 2), Some (SimpleLocation 1 7 1), Some (SimpleLocation 10 17 1));
               (Some (NInt 3), Some (SimpleLocation 1 8 1), None)] = Some r0 /\
         r0.1.1 = Some (e_src e0) /\ r0.1.2 = None /\
         last [(Some (NInt 1), None, Some (SimpleLocation 8 14 1));
               (Some (NInt 2), Some (SimpleLocation 1 7 1), Some (SimpleLocation 10 17 1));
               (Some (NInt 3), Some (SimpleLocation 1 8 1), None)] = Some rn /\
         rn.2 = None).
Proof.
  apply (X19_edge_representation_entries Reference.example_self Reference.example_linear
           Reference.example_store Reference.example_store Reference.example_graph).
  - reflexivity.
  - vm_compute. reflexivity.
Defined.

(** ** Assemblies that name an edge the graph does not have *)

Lemma edge_representation_absent_edge (G : MultiDiGraph) (a : assembly) (e : edge) :
  e ∈ a -> edge_locations G e = None ->
  edge_representation2subfragment_on G a = None.
Proof.
  intros He Hnone.
  destruct (edge_representation2subfragment_on G a) as [reprs|] eqn:Hon; [|done].
  exfalso. destruct a as [|e0 a]; [by apply elem_of_nil in He|].
  destruct (is_circular (e0 :: a)) as [circ|] eqn:Hcirc; [|done].
  destruct (edge_representation_pairs _ _ _ _ _ Hcirc Hon)
    as (t0 & ts & _ & Hts & _ & Hpairs).
  apply list_elem_of_lookup in He as [i Hi].
  pose proof (lookup_lt_Some _ _ _ Hi) as Hlt.
  assert (ts !! i = Some (edge_to_temp e)) as Hy.
  { rewrite Hts. apply lookup_app_l_Some. rewrite list_lookup_fmap. by rewrite Hi. }
  destruct (lookup_lt_is_Some_2 (t0 :: ts) i) as [x Hx].
  { apply lookup_lt_Some in Hy. simpl. lia. }
  destruct (Hpairs i x _ Hx Hy) as (r & _ & Hf).
  apply pair_to_subfragment_right in Hf as (l & Hl & _). congruence.
Qed.

(** X20: [assemble] raises on an assembly that names an edge which is not
    in the graph (the lookup of its locations fails), and it does so before
    any record or feature object is created: the store is left as it was. *)
Theorem X20_assemble_raises_on_absent_edge (self : Assembly) (a : assembly) (e : edge)
    (s : store) (G : MultiDiGraph) :
  st_graphs s !! self_G self = Some G ->
  e ∈ a ->
  edge_locations G e = None ->
  assemble self a s = (None, s).
Proof.
  intros HG He Hnone. unfold assemble, edge_representation2subfragment_representation.
  rewrite !bind_run. unfold get_graph at 1. rewrite HG. unfold liftO at 1.
  by rewrite (edge_representation_absent_edge G a e He Hnone).
Qed.

Lemma X20_witness :
  assemble Reference.example_self
    [Reference.edge_12; (NInt 2, NInt 3, KStr "no such overlap")] Reference.example_store
  = (None, Reference.example_store).
Proof.
  apply (X20_assemble_raises_on_absent_edge Reference.example_self _
           (NInt 2, NInt 3, KStr "no such overlap") Reference.example_store
           Reference.example_graph).
  - reflexivity.
  - right. left.
  - by vm_compute.
Defined.

(** ** Linear assemblies are simple *)

Lemma Reference_paths_from_simple (fuel : nat) (G : MultiDiGraph) (visited : list node)
    (u target : node) (p : list edge) :
  p ∈ Reference.paths_from fuel G visited u target ->
  NoDup (e_tgt <$> p) /\ Forall (fun e => e_tgt e ∉ visited) p.
Proof.
  revert visited u p. induction fuel as [|fuel IH]; intros visited u p; simpl.
  - by intros ?%elem_of_nil.
  - intros (e & Hp & He)%list_elem_of_bind.
    destruct (bool_decide (e_tgt e ∈ visited)) eqn:Hvis; [by apply elem_of_nil in Hp|].
    apply bool_decide_eq_false in Hvis.
    destruct (bool_decide (e_tgt e = target)) eqn:Ht.
    + apply list_elem_of_singleton in Hp as ->. split; [|by repeat constructor].
      simpl. apply NoDup_singleton.
    + apply list_elem_of_fmap in Hp as (p' & -> & Hp').
      destruct (IH _ _ _ Hp') as (Hnd & Hall). split.
      * rewrite fmap_cons. apply NoDup_cons. split; [|done].
        intros (e' & Heq & He')%list_elem_of_fmap.
        eapply Forall_forall in Hall; [|exact He']. apply Hall. rewrite Heq. left.
      * constructor; [done|]. eapply Forall_impl; [exact Hall|].
        intros e' Hne Hin. apply Hne. by right.
Qed.

Lemma Reference_paths_simple (G : MultiDiGraph) (source target : node) (p : list edge) :
  p ∈ Reference.all_simple_edge_paths G source target -> simple_path source p.
Proof.
  unfold Reference.all_simple_edge_paths.
  destruct (has_node G source && has_node G target); [|by intros ?%elem_of_nil].
  intros Hp. apply Reference_paths_from_simple in Hp as [Hnd Hall].
  unfold simple_path. apply NoDup_cons. split; [|done].
  intros (e & -> & He)%list_elem_of_fmap.
  eapply Forall_forall in Hall; [|exact He]. apply Hall. left.
Qed.

Section SimplePaths.
Variable all_simple_edge_paths : MultiDiGraph -> node -> node -> list (list edge).
Hypothesis paths_are_edge_paths :
  forall G source target p,
    p ∈ all_simple_edge_paths G source target -> edge_path G source target p.
Hypothesis paths_are_simple :
  forall G source target p,
    p ∈ all_simple_edge_paths G source target -> simple_path source p.

Lemma linear_assembly_simple (self : Assembly) (s s' : store) (l : list assembly)
    (a : assembly) :
  get_linear_assemblies all_simple_edge_paths self s = (Some l, s') ->
  a ∈ l ->
  NoDup (fragments_used false a) /\ is_circular a = Some false.
Proof.
  intros Hrun Ha.
  destruct (get_linear_assemblies_run _ _ _ _ _ Hrun)
    as (G & Gc & cands & HG & _ & Hcands & ->).
  apply remove_subassemblies_subset in Ha.
  apply filter_opt_Some in Hcands as [_ Hcands].
  apply Hcands in Ha as [Hp Hvalid].
  apply list_elem_of_fmap in Hp as (p & -> & Hp).
  pose proof (paths_are_simple _ _ _ _ Hp) as Hsimple.
  apply paths_are_edge_paths in Hp as (_ & _ & _ & Hchain).
  destruct (validate_on_true_inv _ _ _ Hvalid) as (circ & Hcirc & _).
  assert (py_slice (Some 1) (Some (-1)) p <> []) as Hne.
  { intros Heq. by rewrite Heq in Hcirc. }
  destruct (py_slice_inner_inv p Hne) as (eb & ee & Hpeq).
  set (a := py_slice (Some 1) (Some (-1)) p) in *. clearbody a. subst p.
  destruct a as [|e0 a']; [done|]. clear Hne Hcirc Hvalid Hcands.
  assert (Hstart : e_tgt eb = e_src e0) by (apply Hchain; by exists 0%nat).
  unfold simple_path in Hsimple.
  rewrite fmap_cons, fmap_app in Hsimple.
  apply NoDup_cons in Hsimple as [_ Hsimple].
  rewrite app_comm_cons in Hsimple. apply NoDup_app in Hsimple as (Hnd & _ & _).
  rewrite Hstart in Hnd.
  assert (NoDup (fragments_used false (e0 :: a'))) as Hused by exact Hnd.
  split; [done|]. simpl. f_equal. apply bool_decide_eq_false. intros Heq.
  apply NoDup_cons in Hnd as [Hnot _]. apply Hnot. rewrite Heq.
  apply list_elem_of_fmap. exists (py_last e0 a'). split; [done|].
  apply (list_elem_of_lookup_2 _ (length a')).
  rewrite <- (last_cons_py_last e0 a'), last_lookup. done.
Qed.
End SimplePaths.

(** X21: given that the path enumerator returns simple chains of edges (no
    node visited twice), no linear assembly returned uses a node twice: the
    source of its first edge and the targets of its edges are pairwise
    different, so it never closes on itself.  (A fragment and its reverse
    complement are different nodes and may both occur.) *)
Theorem X21_linear_assemblies_visit_no_node_twice
    (all_simple_edge_paths : MultiDiGraph -> node -> node -> list (list edge))
    (self : Assembly) (s s' : store) (l : list assembly) (a : assembly) :
  (forall G source target p,
      p ∈ all_simple_edge_paths G source target -> edge_path G source target p) ->
  (forall G source target p,
      p ∈ all_simple_edge_paths G source target -> simple_path source p) ->
  get_linear_assemblies all_simple_edge_paths self s = (Some l, s') ->
  a ∈ l ->
  NoDup (fragments_used false a) /\ is_circular a = Some false.
Proof.
  intros Hpaths Hsimple Hrun Ha. by eapply linear_assembly_simple.
Qed.

Lemma X21_witness :
  NoDup (fragments_used false Reference.inverted_assembly) /\
  is_circular Reference.inverted_assembly = Some false.
Proof.
  eapply (X21_linear_assemblies_visit_no_node_twice Reference.all_simple_edge_paths
            Reference.inverted_self Reference.inverted_store _ _
            Reference.inverted_assembly).
  - apply Reference_paths_sound.
  - apply Reference_paths_simple.
  - vm_compute. reflexivity.
  - left.
Defined.

(** X22: under the same assumptions on the enumerator, [assemble_linear]
    returns one record per assembly that [get_linear_assemblies] finds, in
    the same order: the record at each position is the one that [assemble]
    returns for the assembly at that position, the assemblies being
    assembled one after the other.  Every record is linear. *)
Theorem X22_assemble_linear_records
    (all_simple_edge_paths : MultiDiGraph -> node -> node -> list (list edge))
    (self : Assembly) (s s' : store) (outs : list Dseqrecord) :
  (forall G source target p,
      p ∈ all_simple_edge_paths G source target -> edge_path G source target p) ->
  (forall G source target p,
      p ∈ all_simple_edge_paths G source target -> simple_path source p) ->
  assemble_linear all_simple_edge_paths self s = (Some outs, s') ->
  exists l s1, get_linear_assemblies all_simple_edge_paths self s = (Some l, s1) /\
               length outs = length l /\
               Forall (fun out => circular out = false) outs /\
               run_each (assemble self) l outs s1 s' /\
               Forall2 (fun a out => is_circular a = Some false /\
                                     exists s2 s3, assemble self a s2 = (Some out, s3)) l outs.
Proof.
  intros Hpaths Hsimple. unfold assemble_linear. rewrite bind_run.
  destruct (get_linear_assemblies all_simple_edge_paths self s) as [[l|] s1] eqn:Hl; [|done].
  intros Hmap. exists l, s1. split; [done|].
  pose proof (returns_mapM (assemble self) l
                (fun a out => is_circular a = Some (circular out))
                (fun x _ => returns_assemble self x) s1 outs s' Hmap) as Hall.
  split; [symmetry; by eapply Forall2_length|].
  assert (Forall (fun a => is_circular a = Some false) l) as Hlin.
  { apply Forall_forall. intros a Ha.
    by destruct (linear_assembly_simple _ Hpaths Hsimple _ _ _ _ _ Hl Ha). }
  pose proof (mapM_run_each _ _ _ _ _ Hmap) as Heach.
  split; [|split; [done|]].
  - clear -Hall Hlin. induction Hall as [|a out l outs Ha _ IH]; [constructor|].
    apply Forall_cons in Hlin as [Hc Hlin]. constructor; [congruence|by apply IH].
  - clear -Heach Hlin. revert s1 outs Heach.
    induction Hlin as [|a l Ha _ IH]; intros s1 outs Heach.
    + destruct outs; [constructor|done].
    + destruct outs as [|out outs]; [done|]. destruct Heach as (s2 & Hrun & Heach).
      constructor; [|by eapply IH]. split; [done|]. by exists s1, s2.
Qed.

Lemma X22_witness :
  exists l s1, Reference.get_linear_assemblies Reference.example_self Reference.example_store
               = (Some l, s1) /\
               length Reference.example_assembled.1 = length l /\
               Forall (fun out => circular out = false) Reference.example_assembled.1 /\
               run_each (assemble Reference.example_self) l Reference.example_assembled.1
                 s1 Reference.example_assembled.2 /\
               Forall2 (fun a out => is_circular a = Some false /\
                                     exists s2 s3, assemble Reference.example_self a s2
                                                   = (Some out, s3))
                       l Reference.example_assembled.1.
Proof.
  apply (X22_assemble_linear_records Reference.all_simple_edge_paths
           Reference.example_self Reference.example_store Reference.example_assembled.2).
  - apply Reference_paths_sound.
  - apply Reference_paths_simple.
  - vm_compute. reflexivity.
Defined.

(** ** The constructor returns *)

Lemma add_edges_from_match_total (m : match_t) (L R : Z) (first secnd : Dseqrecord)
    (G : MultiDiGraph) :
  match_in_range (seq first) (seq secnd) m ->
  is_Some (add_edges_from_match m L R first secnd G).
Proof.
  destruct m as [[x y] len]. intros (Hx & Hy & Hlen & Hxn & Hyn).
  unfold add_edges_from_match, match_combinations.
  rewrite !shift_location_in_range by (unfold rec_len; lia).
  cbn [mbind option_bind]. by eexists.
Qed.

Lemma match_in_range_length (x y x' y' : list ascii) (m : match_t) :
  length x = length x' -> length y = length y' ->
  match_in_range x y m -> match_in_range x' y' m.
Proof. destruct m as [[a b] len]. unfold match_in_range. intros <- <-. done. Qed.

Lemma add_matches_total (n : nat) (matches : list match_t) (L R : Z)
    (first secnd : Dseqrecord) (G : MultiDiGraph) :
  Forall (match_in_range (seq first) (seq secnd)) matches ->
  has_node G (NInt L) = true -> has_node G (NInt R) = true ->
  has_node G (NInt (- L)) = true -> has_node G (NInt (- R)) = true ->
  fragment_index n L -> fragment_index n R -> Z.abs L <> Z.abs R ->
  overlap_graph n G ->
  exists G', add_matches matches L R first secnd G = Some G' /\
             g_nodes G' = g_nodes G /\ overlap_graph n G'.
Proof.
  intros Hin HL HR HL' HR' HiL HiR HLR.
  intros Ho.
  assert (is_Some (add_matches matches L R first secnd G)) as [G' HG'].
  { unfold add_matches.
    revert G HL HR HL' HR' Ho. induction Hin as [|m matches Hm _ IH];
      intros G HL HR HL' HR' Ho; [by eexists|].
    cbn [foldl]. change (Some G ≫= _) with (add_edges_from_match m L R first secnd G).
    destruct (add_edges_from_match_total m L R first secnd G Hm) as [G1 HG1].
    rewrite HG1.
    pose proof (g_nodes_add_edges_from_match _ _ _ _ _ _ _ HL HR HL' HR' HG1) as Hn.
    pose proof (overlap_graph_add_edges_from_match _ _ _ _ _ _ _ _ Ho HiL HiR HLR HG1) as Ho1.
    apply IH; try done; unfold has_node; by rewrite Hn. }
  exists G'. split; [done|].
  exact (add_matches_invariant n _ _ _ _ _ _ _ HL HR HL' HR' HiL HiR HLR Ho HG').
Qed.

Section ConstructorReturns.
Variable str_upper : list ascii -> list ascii.
Variable reverse_complement : list ascii -> list ascii.
Variable record_reverse_complement : Dseqrecord -> M Dseqrecord.
Variable algorithm : list ascii -> list ascii -> Z -> list match_t.

Lemma init_pairs_total (lim : Z) (frags rcs : list Dseqrecord)
    (ps : list (Z * Z)) (G : MultiDiGraph) :
  (forall x, length (str_upper x) = length x) ->
  (forall x, length (reverse_complement x) = length x) ->
  (forall x y m, m ∈ algorithm x y lim -> match_in_range x y m) ->
  length rcs = length frags ->
  Forall (fun p : Z * Z => 1 <= p.1 <= Z.of_nat (length frags)
                           /\ 1 <= p.2 <= Z.of_nat (length frags) /\ p.1 <> p.2) ps ->
  g_nodes G = fragment_nodes frags rcs -> overlap_graph (length frags) G ->
  is_Some
    (foldl (fun acc '(index_first, index_secnd) =>
              G ← acc;
              first ← node_seq G (NInt index_first);
              secnd ← node_seq G (NInt index_secnd);
              let matches_fwd :=
                algorithm (str_upper (seq first)) (str_upper (seq secnd)) lim in
              G ← add_matches matches_fwd index_first index_secnd first secnd G;
              let matches_rvs :=
                algorithm (str_upper (seq first))
                          (reverse_complement (str_upper (seq secnd))) lim in
              add_matches matches_rvs index_first (- index_secnd) first secnd G)
           (Some G) ps).
Proof.
  intros Hup Hrc Halg Hlen Hps. revert G. induction ps as [|[x y] ps IH]; intros G HG Ho.
  - by eexists.
  - apply Forall_cons in Hps as [(Hx & Hy & Hxy) Hps]. simpl in Hx, Hy, Hxy.
    cbn [foldl].
    assert (Hnode : forall z G0, g_nodes G0 = fragment_nodes frags rcs ->
                                 fragment_index (length frags) z ->
                                 has_node G0 (NInt z) = true).
    { intros z G0 HG0 Hz. apply has_node_true.
      rewrite HG0, fragment_nodes_names, <- fmap_app, Hlen.
      apply list_elem_of_fmap. exists z. split; [done|].
      apply elem_of_app. unfold fragment_index in Hz.
      destruct (decide (0 < z)).
      - left. apply list_elem_of_fmap. exists (Z.to_nat (z - 1)). split; [lia|].
        apply list_elem_of_In, in_seq. lia.
      - right. apply list_elem_of_fmap. exists (Z.to_nat (- z - 1)). split; [lia|].
        apply list_elem_of_In, in_seq. lia. }
    assert (Hseq : forall z G0, g_nodes G0 = fragment_nodes frags rcs ->
                                1 <= z <= Z.of_nat (length frags) ->
                                exists f, node_seq G0 (NInt z) = Some f).
    { intros z G0 HG0 Hz.
      destruct (lookup_lt_is_Some_2 frags (Z.to_nat (z - 1))) as [f Hf]; [lia|].
      exists f. destruct G0 as [N E]. simpl in HG0. subst N.
      replace z with (Z.of_nat (Z.to_nat (z - 1)) + 1) by lia.
      by apply node_seq_fragment_nodes. }
    assert (Hix : fragment_index (length frags) x) by (unfold fragment_index; lia).
    assert (Hiy : fragment_index (length frags) y) by (unfold fragment_index; lia).
    pose proof (fragment_index_opp _ _ Hix) as Hix'.
    pose proof (fragment_index_opp _ _ Hiy) as Hiy'.
    destruct (Hseq x G HG Hx) as (first & Hfirst).
    destruct (Hseq y G HG Hy) as (secnd & Hsecnd).
    cbn [mbind option_bind]. rewrite Hfirst. cbn [mbind option_bind].
    rewrite Hsecnd. cbn [mbind option_bind].
    assert (Hfwd : Forall (match_in_range (seq first) (seq secnd))
                     (algorithm (str_upper (seq first)) (str_upper (seq secnd)) lim)).
    { apply Forall_forall. intros m Hm. apply Halg in Hm.
      eapply match_in_range_length; [| |exact Hm]; apply Hup. }
    assert (Hrvs : Forall (match_in_range (seq first) (seq secnd))
                     (algorithm (str_upper (seq first))
                                (reverse_complement (str_upper (seq secnd))) lim)).
    { apply Forall_forall. intros m Hm. apply Halg in Hm.
      eapply match_in_range_length; [| |exact Hm]; [apply Hup|].
      by rewrite Hrc, Hup. }
    destruct (add_matches_total (length frags)
                (algorithm (str_upper (seq first)) (str_upper (seq secnd)) lim)
                x y first secnd G Hfwd
                (Hnode x G HG Hix) (Hnode y G HG Hiy)
                (Hnode (- x) G HG Hix') (Hnode (- y) G HG Hiy')
                Hix Hiy ltac:(lia) Ho) as (G1 & -> & Hn1 & Ho1).
    cbn [mbind option_bind].
    assert (HG1 : g_nodes G1 = fragment_nodes frags rcs) by congruence.
    assert (Hiyy : has_node G1 (NInt (- - y)) = true).
    { rewrite Z.opp_involutive. by apply Hnode. }
    destruct (add_matches_total (length frags)
                (algorithm (str_upper (seq first))
                           (reverse_complement (str_upper (seq secnd))) lim)
                x (- y) first secnd G1 Hrvs
                (Hnode x G1 HG1 Hix) (Hnode (- y) G1 HG1 Hiy')
                (Hnode (- x) G1 HG1 Hix') Hiyy
                Hix Hiy' ltac:(lia) Ho1) as (G2 & -> & Hn2 & Ho2).
    apply IH; [done|congruence|done].
Qed.

(** X23: the constructor returns whenever the reverse complement of every
    fragment can be taken and the overlap algorithm reports only matches of
    positive length that lie inside the two sequences it is given (upper
    casing and reverse complementing keep the length of a sequence): no
    lookup in the graph under construction fails, and every location that
    is normalised fits in its fragment. *)
Theorem X23_constructor_returns (frags : list Dseqrecord) (lim : Z) (ufo uaf : bool)
    (s s1 : store) (rcs : list Dseqrecord) :
  (forall x, length (str_upper x) = length x) ->
  (forall x, length (reverse_complement x) = length x) ->
  (forall x y m, m ∈ algorithm x y lim -> match_in_range x y m) ->
  mapM record_reverse_complement frags s = (Some rcs, s1) ->
  exists G,
    Assembly_init str_upper reverse_complement record_reverse_complement
      frags lim algorithm ufo uaf s
    = (Some (Assembly_ (length (st_graphs s1)) frags lim ufo uaf),
       Store (st_graphs s1 ++ [G]) (st_feats s1)).
Proof.
  intros Hup Hrc Halg Hrcs. pose proof (mapM_run_length _ _ _ _ _ Hrcs) as Hlen.
  unfold Assembly_init. rewrite bind_run, Hrcs.
  pose proof (foldl_add_node_seq (fun i => NInt (Z.of_nat i + 1)) frags 0 empty_graph) as H1.
  cbv beta in H1. simpl (0 + _)%nat in H1.
  pose proof (foldl_add_node_seq (fun i => NInt (- (Z.of_nat i + 1))) rcs 0
                (Graph (imap (fun i f => (NInt (Z.of_nat i + 1), Some f)) frags) [])) as H2.
  cbv beta in H2. simpl (0 + _)%nat in H2.
  rewrite H1, app_nil_l in *; [|intros i j [=]; lia|intros i _; simpl; apply not_elem_of_nil].
  simpl g_nodes. simpl g_edges. rewrite H2; [|intros i j [=]; lia|]; last first.
  { intros i _. simpl. intros Hin.
    pose proof (fst_imap_pair (fun i => NInt (Z.of_nat i + 1)) (@Some Dseqrecord) frags 0) as Hf.
    simpl in Hf. rewrite Hf in Hin.
    apply list_elem_of_fmap in Hin as (k & [=] & _). lia. }
  simpl g_nodes. simpl g_edges.
  change (imap _ frags ++ imap _ rcs) with (fragment_nodes frags rcs).
  rewrite bind_run. unfold liftO at 1.
  rewrite fragment_nodes_names, <- fmap_app, mapM_node_int_ints.
  rewrite filter_app, filter_all, filter_none, app_nil_r; last first.
  { apply Forall_forall. intros x (i & -> & _)%list_elem_of_fmap. lia. }
  { apply Forall_forall. intros x (i & -> & _)%list_elem_of_fmap. lia. }
  rewrite bind_run. unfold liftO at 1.
  match goal with |- context [foldl ?f ?a ?l] =>
    assert (is_Some (foldl f a l)) as [G HG]
  end.
  { apply (init_pairs_total lim frags rcs _ (Graph (fragment_nodes frags rcs) [])
             Hup Hrc Halg Hlen).
    - apply Forall_forall. intros [x y] Hxy.
      apply elem_of_combinations2 in Hxy as (i & j & Hij & Hi & Hj).
      apply list_lookup_fmap_Some in Hi as (i' & -> & Hi').
      apply list_lookup_fmap_Some in Hj as (j' & -> & Hj').
      apply lookup_seq in Hi' as [-> Hi'], Hj' as [-> Hj']. simpl. lia.
    - done.
    - intros e He. apply has_edge_true in He. simpl in He. by apply elem_of_nil in He. }
  exists G. rewrite HG. rewrite bind_run. unfold new_graph at 1. reflexivity.
Qed.
End ConstructorReturns.

Lemma Reference_common_prefix_le (x y : list ascii) :
  (Reference.common_prefix x y <= length x)%nat /\
  (Reference.common_prefix x y <= length y)%nat.
Proof.
  revert y. induction x as [|a x IH]; intros [|b y]; simpl; try lia.
  destruct (decide (a = b)); [|lia]. specialize (IH y). lia.
Qed.

(** The reference algorithm reports matches inside the two sequences. *)
Lemma Reference_matches_in_range (x y : list ascii) (lim : Z) (m : match_t) :
  m ∈ Reference.common_sub_strings x y lim -> match_in_range x y m.
Proof.
  unfold Reference.common_sub_strings.
  intros (i & Hm & Hi)%list_elem_of_bind.
  apply list_elem_of_bind in Hm as (j & Hm & Hj).
  apply list_elem_of_In, in_seq in Hi, Hj.
  destruct (Reference_common_prefix_le (drop i x) (drop j y)) as [Hlx Hly].
  rewrite length_drop in Hlx, Hly.
  cbv zeta in Hm.
  destruct (_ && _ && bool_decide (0 < _)%nat) eqn:Hc;
    [|by apply elem_of_nil in Hm].
  apply list_elem_of_singleton in Hm as ->.
  apply andb_true_iff in Hc as [_ Hpos%bool_decide_eq_true].
  unfold match_in_range. lia.
Qed.

Lemma X23_witness :
  exists G,
    Reference.Assembly_init Reference.example_fragments 5 Reference.common_sub_strings
      false false Reference.empty_store
    = (Some (Assembly_ (length (st_graphs Reference.empty_store))
               Reference.example_fragments 5 false false),
       Store (st_graphs Reference.empty_store ++ [G]) (st_feats Reference.empty_store)).
Proof.
  apply (X23_constructor_returns Reference.str_upper Reference.reverse_complement
           Reference.record_reverse_complement Reference.common_sub_strings
           Reference.example_fragments 5 false false Reference.empty_store
           Reference.empty_store
           [Reference.dseqrecord "ggagcaTGatcgtT"; Reference.dseqrecord "gcagaatTTAggagcaA";
            Reference.dseqrecord "CatcgtCCTCgcagaatG"]).
  - intros x. apply length_fmap.
  - intros x. unfold Reference.reverse_complement. by rewrite length_reverse, length_fmap.
  - intros x y m. apply Reference_matches_in_range.
  - vm_compute. reflexivity.
Defined.

(** ** Validity of the parts of a linear assembly *)

Lemma check_edge_pairs_ordered (G : MultiDiGraph) (pairs : list (edge * edge)) :
  Forall (fun p => ordering_ok G p.1 p.2) pairs -> check_edge_pairs G pairs = Some true.
Proof.
  induction 1 as [|[e1 e2] pairs (l & r & Hl & Hr & Hlt) _ IH]; [done|].
  simpl in *. rewrite Hl, Hr. simpl. by rewrite decide_False by lia.
Qed.

Lemma consecutive_sub_run (pre b post : assembly) (e1 e2 : edge) :
  consecutive false b e1 e2 -> consecutive false (pre ++ b ++ post) e1 e2.
Proof.
  intros (i & H1 & H2). exists (length pre + i)%nat. split.
  - etrans; [apply lookup_app_r; lia|].
    replace (length pre + i - length pre)%nat with i by lia.
    by apply lookup_app_l_Some.
  - etrans; [apply lookup_app_r; lia|].
    replace (S (length pre + i) - length pre)%nat with (S i) by lia.
    by apply lookup_app_l_Some.
Qed.

(** X24: without [use_all_fragments], validity of a linear candidate is
    inherited by its parts: every non-empty contiguous run of edges of an
    accepted linear assembly that does not close on itself is accepted as
    well.  (This is why [get_linear_assemblies] has to remove
    subassemblies.) *)
Theorem X24_validate_assembly_sub_runs (self : Assembly) (a b : assembly)
    (s : store) :
  use_all_fragments self = false ->
  validate_assembly self a s = (Some true, s) ->
  is_circular a = Some false ->
  is_sublist b a = true ->
  is_circular b = Some false ->
  validate_assembly self b s = (Some true, s).
Proof.
  intros Hall Hva Hca Hsub Hcb.
  unfold validate_assembly in *. rewrite bind_run in *. unfold get_graph, liftO in *.
  destruct (st_graphs s !! self_G self) as [G|] eqn:HG; [|done].
  injection Hva as Hva. f_equal.
  pose proof (validate_on_ordering _ _ _ _ Hva Hca) as Hord.
  apply is_sublist_spec in Hsub as (pre & post & ->).
  unfold validate_on. destruct b as [|e0 b]; [done|].
  rewrite decide_False by (simpl; lia). rewrite Hcb. cbn [mbind option_bind].
  rewrite Hall. cbn [andb].
  apply check_edge_pairs_ordered. apply Forall_forall. intros [e1 e2] Hin.
  apply elem_of_zip_next in Hin. simpl. apply Hord. by apply consecutive_sub_run.
Qed.

Lemma X24_witness :
  validate_assembly Reference.example_self [Reference.edge_23] Reference.example_store
  = (Some true, Reference.example_store).
Proof.
  apply (X24_validate_assembly_sub_runs Reference.example_self Reference.example_linear
           [Reference.edge_23] Reference.example_store); by vm_compute.
Defined.

(** ** Rotations of a circular assembly *)

Lemma lookup_app_swap {A} (x y : list A) (i : nat) :
  (i < length x + length y)%nat ->
  (y ++ x) !! i = (x ++ y) !! ((i + length x) `mod` (length x + length y))%nat.
Proof.
  intros Hi. destruct (decide (i < length y)%nat) as [Hlt|Hge].
  - rewrite Nat.mod_small by lia. rewrite lookup_app_l by done.
    rewrite lookup_app_r by lia. f_equal. lia.
  - replace (i + length x)%nat with ((i - length y) + 1 * (length x + length y))%nat by lia.
    rewrite Nat.Div0.mod_add. rewrite Nat.mod_small by lia.
    rewrite lookup_app_r by lia. by rewrite lookup_app_l by lia.
Qed.

Lemma consecutive_app_swap (x y : list edge) (e1 e2 : edge) :
  consecutive true (y ++ x) e1 e2 -> consecutive true (x ++ y) e1 e2.
Proof.
  intros (i & H1 & H2). rewrite !length_app in *.
  pose proof (lookup_lt_Some _ _ _ H1) as Hi. rewrite length_app in Hi.
  set (n := (length x + length y)%nat) in *.
  replace (length y + length x)%nat with n in H2 by lia.
  exists ((i + length x) `mod` n)%nat. split.
  - rewrite <- H1. symmetry. apply lookup_app_swap. lia.
  - rewrite length_app. fold n. rewrite <- H2.
    etrans; [|symmetry; apply lookup_app_swap; apply Nat.mod_upper_bound; lia].
    fold n. f_equal.
    rewrite (Nat.Div0.add_mod_idemp_l (S i)).
    replace (S ((i + length x) `mod` n)) with (1 + (i + length x) `mod` n)%nat by lia.
    rewrite Nat.Div0.add_mod_idemp_r. f_equal; lia.
Qed.

Lemma consecutive_rotate (k : nat) (a : list edge) (e1 e2 : edge) :
  consecutive true (rotate k a) e1 e2 -> consecutive true a e1 e2.
Proof.
  unfold rotate. intros Hc. apply consecutive_app_swap in Hc.
  by rewrite take_drop in Hc.
Qed.

(** X25: acceptance of a circular candidate does not depend on where the
    circle is cut: if [validate_assembly] accepts an assembly that is a
    closed walk (each edge starts where the previous one ends, the first
    where the last ends), it accepts every rotation of it.  The canonical
    rotation chosen by [get_circular_assemblies] therefore discards no valid
    circle. *)
Theorem X25_validate_assembly_rotation_invariant (self : Assembly) (a : assembly)
    (s : store) (k : nat) :
  validate_assembly self a s = (Some true, s) ->
  (forall e1 e2, consecutive true a e1 e2 -> e_tgt e1 = e_src e2) ->
  validate_assembly self (rotate k a) s = (Some true, s).
Proof.
  intros Hva Hwalk.
  unfold validate_assembly in *. rewrite bind_run in *. unfold get_graph, liftO in *.
  destruct (st_graphs s !! self_G self) as [G|] eqn:HG; [|done].
  injection Hva as Hva. f_equal.
  destruct (validate_on_true_inv _ _ _ Hva) as (circ & Hcirc & Hcount & _).
  destruct a as [|e0 a']; [done|].
  assert (circ = true) as ->.
  { simpl in Hcirc. injection Hcirc as <-. apply bool_decide_eq_true.
    symmetry. apply Hwalk. apply consecutive_wrap. }
  pose proof (validate_on_ordering _ _ _ _ Hva Hcirc) as Hord.
  assert (length (rotate k (e0 :: a')) = length (e0 :: a')) as Hlen by apply length_rotate.
  destruct (rotate k (e0 :: a')) as [|r0 r'] eqn:Hrot; [done|].
  assert (forall e1 e2, consecutive true (r0 :: r') e1 e2 -> consecutive true (e0 :: a') e1 e2)
    as Hback.
  { intros e1 e2 Hc. rewrite <- Hrot in Hc. by eapply consecutive_rotate. }
  unfold validate_on. rewrite decide_False by (simpl; lia).
  assert (is_circular (r0 :: r') = Some true) as ->.
  { simpl. f_equal. apply bool_decide_eq_true. symmetry.
    apply Hwalk, Hback, consecutive_wrap. }
  cbn [mbind option_bind].
  assert (use_all_fragments self
          && bool_decide (Z.of_nat (length (r0 :: r')) - 1
                          ≠ Z.of_nat (length (fragments self)) - 1) = false) as ->.
  { destruct (use_all_fragments self) eqn:Hall; [|done]. simpl.
    apply bool_decide_eq_false. intros Hne. apply Hne.
    pose proof (Hcount Hall) as Hc. cbn [length] in Hlen, Hc |- *. lia. }
  apply check_edge_pairs_ordered. apply Forall_forall. intros [e1 e2] Hin.
  apply elem_of_zip_cyclic in Hin. simpl. by apply Hord, Hback.
Qed.

Lemma X25_witness :
  validate_assembly Reference.example_self (rotate 1 Reference.example_circular)
    Reference.example_store
  = (Some true, Reference.example_store).
Proof.
  apply (X25_validate_assembly_rotation_invariant Reference.example_self
           Reference.example_circular Reference.example_store 1).
  - by vm_compute.
  - intros e1 e2 (i & H1 & H2).
    destruct i as [|[|[|i]]]; simpl in H1, H2; try done;
      injection H1 as <-; injection H2 as <-; reflexivity.
Defined.

(** ** The printed form of an Assembly *)

Section Repr.
Variable str_upper : list ascii -> list ascii.
Variable reverse_complement : list ascii -> list ascii.
Variable record_reverse_complement : Dseqrecord -> M Dseqrecord.
Variable algorithm : list ascii -> list ascii -> Z -> list match_t.

(** X26: the printed form of a constructed Assembly always exists and
    changes nothing; it lists the lengths of the fragments that were given,
    the limit, and as number of graph nodes twice the number of fragments,
    however many overlaps were found. *)
Theorem X26_repr_of_constructed_assembly (frags : list Dseqrecord) (lim : Z)
    (ufo uaf : bool) (s s' : store) (self : Assembly) (algorithm_name : string) :
  Assembly_init str_upper reverse_complement record_reverse_complement
    frags lim algorithm ufo uaf s = (Some self, s') ->
  Assembly_repr self algorithm_name s'
  = (Some ("Assembly" +:+ newline
           +:+ "fragments..: "
           +:+ str_join " " ((fun x => pretty (rec_len x) +:+ "bp") <$> frags) +:+ newline
           +:+ "limit(bp)..: " +:+ pretty lim +:+ newline
           +:+ "G.nodes....: " +:+ pretty (2 * Z.of_nat (length frags)) +:+ newline
           +:+ "algorithm..: " +:+ algorithm_name), s').
Proof.
  intros Hinit.
  destruct (Assembly_init_graph _ _ _ _ _ _ _ _ _ _ _ Hinit)
    as (G & rcs & s1 & Hrcs & Hlen & -> & -> & Hnodes & _).
  unfold Assembly_repr. rewrite bind_run. unfold get_graph. cbn [self_G st_graphs].
  rewrite list_lookup_middle by done. cbn [fragments limit].
  unfold mret, M_ret. do 2 f_equal.
  assert (Z.of_nat (length (g_nodes G)) = 2 * Z.of_nat (length frags)) as ->; [|done].
  rewrite Hnodes. unfold fragment_nodes. rewrite length_app, !length_imap. lia.
Qed.
End Repr.

Lemma X26_witness :
  Assembly_repr Reference.example_self "common_sub_strings" Reference.example_store
  = (Some ("Assembly" +:+ newline
           +:+ "fragments..: "
           +:+ str_join " " ((fun x => pretty (rec_len x) +:+ "bp")
                               <$> Reference.example_fragments) +:+ newline
           +:+ "limit(bp)..: " +:+ pretty 5 +:+ newline
           +:+ "G.nodes....: "
           +:+ pretty (2 * Z.of_nat (length Reference.example_fragments)) +:+ newline
           +:+ "algorithm..: " +:+ "common_sub_strings"), Reference.example_store).
Proof.
  apply (X26_repr_of_constructed_assembly Reference.str_upper Reference.reverse_complement
           Reference.record_reverse_complement Reference.common_sub_strings
           Reference.example_fragments 5 false false Reference.empty_store).
  vm_compute. reflexivity.
Defined.

(** ** Nodes and their sequences when edges are added *)





(** ** The canonical rotation, again *)

(** X28: [circular_permutation_min_abs] is idempotent: applied to its own
    result it returns that result unchanged. *)
Theorem X28_circular_permutation_min_abs_idempotent (lst r : list node) :
  circular_permutation_min_abs lst = Some r ->
  circular_permutation_min_abs r = Some r.
Proof.
  intros Hr.
  apply circular_permutation_min_abs_spec in Hr as (i & n0 & v & Hi & Hv & -> & Hmin).
  rewrite (drop_S _ _ _ Hi). rewrite <- app_comm_cons.
  apply (circular_permutation_min_abs_fixed n0 _ v Hv).
  apply Forall_app. split; [by apply Forall_drop|by apply Forall_take].
Qed.

Lemma X28_witness :
  circular_permutation_min_abs [NInt 1; NInt 2; NInt 3] = Some [NInt 1; NInt 2; NInt 3].
Proof.
  apply (X28_circular_permutation_min_abs_idempotent [NInt 3; NInt 1; NInt 2]).
  reflexivity.
Defined.
